(** * yupsh/ls: a shallow embedding of the directory lister

    The repository holds two variants of the same command:
    - [Ls]      embeds src/ls.go (package ls, with context cancellation);
    - [Command] embeds the newer package command (brace and glob expansion,
      [filepath.WalkDir] for recursive listings).

    Go strings are byte strings: [string] here is a list of bytes ([ascii]).
    int and int64 are 64-bit two's complement integers, carried as [Z] with
    the wrap-around written out by [wrap64]. *)

From Stdlib Require Import ZArith List String Ascii Bool Lia Permutation Sorted.
From Stdlib Require Import Numbers.DecimalString.
From stdpp Require Import base option gmap strings list.

Local Open Scope Z_scope.

(** ** Outcomes of Go code that may panic *)

Inductive outcome (A : Type) : Type :=
| Done (a : A)
| Panic (msg : string).
Arguments Done {A} a.
Arguments Panic {A} msg.

#[global] Instance outcome_ret : MRet outcome := fun A a => Done a.
#[global] Instance outcome_bind : MBind outcome := fun A B k m =>
  match m with
  | Done a => k a
  | Panic msg => Panic msg
  end.

(** ** Machine integers *)

Definition min_int64 : Z := - 2 ^ 63.
Definition max_int64 : Z := 2 ^ 63 - 1.

Definition in_int64 (z : Z) : Prop := min_int64 <= z <= max_int64.

Definition wrap64 (z : Z) : Z := (z + 2 ^ 63) mod 2 ^ 64 - 2 ^ 63.

(** ** Go's strings package, on byte strings *)

Definition byte (c : ascii) : Z := Z.of_N (N_of_ascii c).

Definition byte_eqb (c : ascii) (n : Z) : bool := byte c =? n.

(** [strings.HasPrefix s p]. *)
Definition HasPrefix (s p : string) : bool := String.prefix p s.

(** [strings.Index s sub]; [None] stands for Go's -1. *)
Fixpoint Index_from (i : nat) (s sub : string) : option nat :=
  if String.prefix sub s then Some i
  else match s with
       | EmptyString => None
       | String _ s' => Index_from (S i) s' sub
       end.

Definition Index (s sub : string) : option nat := Index_from 0 s sub.

Definition Contains (s sub : string) : bool :=
  match Index s sub with Some _ => true | None => false end.

Definition rev_string (s : string) : string :=
  string_of_list_ascii (rev (list_ascii_of_string s)).

(** [strings.Split s sep] for a non-empty [sep]: cut at every occurrence
    of [sep], scanning left to right; [skip] counts the bytes of a matched
    separator still to be dropped, [cur] is the current piece, reversed. *)
Fixpoint Split_go (sep : string) (skip : nat) (cur : string) (s : string)
  : list string :=
  match s with
  | EmptyString => [rev_string cur]
  | String c s' =>
      match skip with
      | S k => Split_go sep k cur s'
      | O =>
          if String.prefix sep s
          then rev_string cur :: Split_go sep (String.length sep - 1) EmptyString s'
          else Split_go sep 0 (String c cur) s'
      end
  end.

Definition Split (s sep : string) : list string := Split_go sep 0 EmptyString s.

(** [unicode.IsSpace] on the UTF-8 encodings of the white-space runes:
    one byte for tab, LF, VT, FF, CR and space; two bytes for U+0085 and
    U+00A0; three bytes for U+1680, U+2000..U+200A, U+2028, U+2029, U+202F,
    U+205F and U+3000. *)
Definition isSpace1 (a : ascii) : bool :=
  ((9 <=? byte a) && (byte a <=? 13)) || byte_eqb a 32.

Definition isSpace2 (a b : ascii) : bool :=
  byte_eqb a 194 && (byte_eqb b 133 || byte_eqb b 160).

Definition isSpace3 (a b c : ascii) : bool :=
  (byte_eqb a 225 && byte_eqb b 154 && byte_eqb c 128)
  || (byte_eqb a 226 && byte_eqb b 128
      && (((128 <=? byte c) && (byte c <=? 138))
          || byte_eqb c 168 || byte_eqb c 169 || byte_eqb c 175))
  || (byte_eqb a 226 && byte_eqb b 129 && byte_eqb c 159)
  || (byte_eqb a 227 && byte_eqb b 128 && byte_eqb c 128).

Fixpoint TrimLeftSpace (s : string) : string :=
  match s with
  | EmptyString => EmptyString
  | String a s1 =>
      if isSpace1 a then TrimLeftSpace s1
      else match s1 with
           | EmptyString => s
           | String b s2 =>
               if isSpace2 a b then TrimLeftSpace s2
               else match s2 with
                    | EmptyString => s
                    | String c s3 =>
                        if isSpace3 a b c then TrimLeftSpace s3 else s
                    end
           end
  end.

(** The same scan from the end of the string, on the reversed bytes:
    [utf8.DecodeLastRuneInString] finds a white-space rune exactly when the
    string ends with one of the encodings above. *)
Fixpoint TrimLeftSpace_rev (s : string) : string :=
  match s with
  | EmptyString => EmptyString
  | String a s1 =>
      if isSpace1 a then TrimLeftSpace_rev s1
      else match s1 with
           | EmptyString => s
           | String b s2 =>
               if isSpace2 b a then TrimLeftSpace_rev s2
               else match s2 with
                    | EmptyString => s
                    | String c s3 =>
                        if isSpace3 c b a then TrimLeftSpace_rev s3 else s
                    end
           end
  end.

Definition TrimRightSpace (s : string) : string :=
  rev_string (TrimLeftSpace_rev (rev_string s)).

(** [strings.TrimSpace]. *)
Definition TrimSpace (s : string) : string := TrimRightSpace (TrimLeftSpace s).

(** ** Go's fmt package *)

(** [fmt.Sprintf("%d", z)]. *)
Definition format_int (z : Z) : string := NilEmpty.string_of_int (Z.to_int z).

Definition isDigit (c : ascii) : bool := (48 <=? byte c) && (byte c <=? 57).

(** The scanner of the verb %d accepts the characters of "0123456789_". *)
Definition isScanDigit (c : ascii) : bool := isDigit c || byte_eqb c 95.

Fixpoint scan_token (s : string) : string :=
  match s with
  | EmptyString => EmptyString
  | String c s' => if isScanDigit c then String c (scan_token s') else EmptyString
  end.

Fixpoint parse_digits (acc : Z) (s : string) : option Z :=
  match s with
  | EmptyString => Some acc
  | String c s' =>
      if isDigit c then parse_digits (10 * acc + (byte c - 48)) s' else None
  end.

(** [SkipSpace] of a scan started by [Sscanf]: white space is skipped, a
    newline in the input is an error. *)
Fixpoint SkipSpace (s : string) : option string :=
  match s with
  | EmptyString => Some EmptyString
  | String a s1 =>
      if byte_eqb a 10 then None
      else if isSpace1 a then SkipSpace s1
      else match s1 with
           | EmptyString => Some s
           | String b s2 =>
               if isSpace2 a b then SkipSpace s2
               else match s2 with
                    | EmptyString => Some s
                    | String c s3 =>
                        if isSpace3 a b c then SkipSpace s3 else Some s
                    end
           end
  end.

(** [fmt.Sscanf(s, "%d", &v)] with [v] an int: [Some v] when err is nil.
    An optional sign, then the longest run of scan digits, which must not
    be empty; [strconv.ParseInt] in base 10 then rejects underscores and
    values outside int64.  Input after the number is left unread. *)
Definition Sscanf_d (s : string) : option Z :=
  s0 ← SkipSpace s;
  let '(neg, rest) :=
    match s0 with
    | String c s' =>
        if byte_eqb c 45 then (true, s')
        else if byte_eqb c 43 then (false, s')
        else (false, s0)
    | EmptyString => (false, s0)
    end in
  match scan_token rest with
  | EmptyString => None
  | tok =>
      m ← parse_digits 0 tok;
      let v := if neg then - m else m in
      if (min_int64 <=? v) && (v <=? max_int64) then Some v else None
  end.

(** [fmt.Sprintf("%Ns", s)]: right-aligned in a field of [w] bytes. *)
Definition pad_left (w : nat) (s : string) : string :=
  string_of_list_ascii (repeat " "%char (w - String.length s)) +:+ s.

(** ** Human-readable sizes: the arithmetic shared by both variants *)

Definition unit : Z := 1024.

(** [for n := size / unit; n >= unit; n /= unit { div *= unit; exp++ }]:
    the loop state after the last iteration. *)
Fixpoint scale_loop (fuel : nat) (n div : Z) (exp : nat) : option (Z * nat) :=
  match fuel with
  | O => None
  | S fuel' =>
      if unit <=? n
      then scale_loop fuel' (Z.quot n unit) (wrap64 (div * unit)) (S exp)
      else Some (div, exp)
  end.

(** Every iteration removes ten bits of [n]. *)
Definition scale_fuel (n : Z) : nat := S (Z.to_nat (Z.log2 n)).

(** [float64(x)] for an int64 [x]: the nearest number with 53 significant
    bits, ties to even.  The result is an integer; it is returned as one. *)
Definition float64_of_int (x : Z) : Z :=
  let a := Z.abs x in
  if a <? 2 ^ 53 then x
  else
    let e := Z.log2 a - 52 in
    let q := Z.shiftr a e in
    let r := Z.land a (Z.ones e) in
    let half := 2 ^ (e - 1) in
    let q' := if r <? half then q
              else if half <? r then q + 1
              else if Z.even q then q else q + 1 in
    Z.sgn x * Z.shiftl q' e.

(** [fmt.Sprintf("%.1f", num/den)] for the exact quotient of [0 <= num] by
    [0 < den]: the number of tenths nearest to it (ties to even), printed
    with one fractional digit.  In both formatters [den] is a power of two
    that a float64 holds exactly, so the float64 division is exact and the
    formatted value is this quotient. *)
Definition tenths (num den : Z) : Z :=
  let q := (10 * num) / den in
  let r := (10 * num) mod den in
  if 2 * r <? den then q
  else if den <? 2 * r then q + 1
  else if Z.even q then q else q + 1.

Definition format_f1 (num den : Z) : string :=
  let m := tenths num den in
  format_int (m / 10) +:+ "." +:+ format_int (m mod 10).

Definition format_scaled (size div : Z) (suffix : string) : string :=
  format_f1 (float64_of_int size) div +:+ suffix.

(** ** Go's path/filepath package (Unix) *)

Definition slash : ascii := "/"%char.

Definition join_with (sep : string) (l : list string) : string :=
  match l with
  | [] => EmptyString
  | x :: l' => fold_left (fun acc y => acc +:+ sep +:+ y) l' x
  end.

(** The element stack of [filepath.Clean], top first: empty and "."
    elements are dropped, ".." removes the element before it, or is kept
    when there is none to remove and the path is not rooted. *)
Fixpoint clean_elems (rooted : bool) (stack : list string) (cs : list string)
  : list string :=
  match cs with
  | [] => rev stack
  | c :: cs' =>
      if String.eqb c "" || String.eqb c "." then clean_elems rooted stack cs'
      else if String.eqb c ".." then
        match stack with
        | top :: stack' =>
            if String.eqb top ".." then clean_elems rooted (c :: stack) cs'
            else clean_elems rooted stack' cs'
        | [] =>
            if rooted then clean_elems rooted [] cs'
            else clean_elems rooted [c] cs'
        end
      else clean_elems rooted (c :: stack) cs'
  end.

Definition Clean (p : string) : string :=
  let rooted := HasPrefix p "/" in
  let out := (if rooted then "/" else "")
             +:+ join_with "/" (clean_elems rooted [] (Split p "/")) in
  if String.eqb out "" then "." else out.

(** [filepath.Join(a, b)]: empty elements are ignored, the rest is joined
    with a slash and cleaned. *)
Definition Join (a b : string) : string :=
  if negb (String.eqb a "") then Clean (a +:+ "/" +:+ b)
  else if negb (String.eqb b "") then Clean b
  else "".

Fixpoint drop_slashes (s : string) : string :=
  match s with
  | EmptyString => EmptyString
  | String c s' => if Ascii.eqb c slash then drop_slashes s' else s
  end.

Fixpoint take_elem (s : string) : string :=
  match s with
  | EmptyString => EmptyString
  | String c s' => if Ascii.eqb c slash then EmptyString else String c (take_elem s')
  end.

(** [filepath.Base]: trailing slashes are stripped, then the last element
    is returned; both scans run from the end of the path. *)
Definition Base (p : string) : string :=
  if String.eqb p "" then "."
  else
    let r := drop_slashes (rev_string p) in
    if String.eqb r "" then "/" else rev_string (take_elem r).

(** ** Errors *)

Inductive error : Type :=
| Canceled
| DeadlineExceeded
| SkipDir
| SkipAll
| ErrBadPattern
| PathError (op path msg : string)
| Errorf (msg : string).

(** The text of [err.Error()], as the verb %v prints it. *)
Definition Error (e : error) : string :=
  match e with
  | Canceled => "context canceled"
  | DeadlineExceeded => "context deadline exceeded"
  | SkipDir => "skip this directory"
  | SkipAll => "skip everything and stop the walk"
  | ErrBadPattern => "syntax error in pattern"
  | PathError op path msg => op +:+ " " +:+ path +:+ ": " +:+ msg
  | Errorf msg => msg
  end.

#[global] Instance error_eq_dec : EqDecision error.
Proof. solve_decision. Defined.

(** A Go pair (value, err). *)
Inductive result (A : Type) : Type :=
| Ok (a : A)
| Err (e : error).
Arguments Ok {A} a.
Arguments Err {A} e.

(** ** The file system seen by the command *)

(** [fs.FileMode] is a uint32; bit 31 is [ModeDir]. *)
Definition ModeDir : Z := 2 ^ 31.

Definition mode_letters : list ascii :=
  list_ascii_of_string "dalTLDpSugct?".

Definition rwx_letters : list ascii := list_ascii_of_string "rwxrwxrwx".

(** [FileMode.String]. *)
Definition FileMode_String (m : Z) : string :=
  let kinds :=
    flat_map (fun '(i, c) => if Z.testbit m (31 - Z.of_nat i) then [c] else [])
             (combine (seq 0 13) mode_letters) in
  let perms :=
    map (fun '(i, c) => if Z.testbit m (8 - Z.of_nat i) then c else "-"%char)
        (combine (seq 0 9) rwx_letters) in
  string_of_list_ascii ((if kinds is [] then ["-"%char] else kinds) ++ perms).

Record FileInfo : Type := mkFileInfo {
  Size : Z;            (* int64 *)
  Mode : Z;            (* fs.FileMode *)
  ModTime : Z          (* the instant, as a count of nanoseconds *)
}.

Definition FileInfo_IsDir (info : FileInfo) : bool := Z.testbit (Mode info) 31.

(** [os.DirEntry]: the name and type come from the directory read,
    [Info] is a later lstat of the entry and may fail. *)
Record DirEntry : Type := mkDirEntry {
  Name : string;
  IsDir : bool;
  Info : result FileInfo
}.

(** [fs.FileInfoToDirEntry], used by [filepath.WalkDir] for its root. *)
Definition FileInfoToDirEntry (name : string) (info : FileInfo) : DirEntry :=
  {| Name := name; IsDir := FileInfo_IsDir info; Info := Ok info |}.

(** What the command reads from its surroundings: a snapshot of the file
    system, the answers of the context to successive polls, and the
    rendering of time stamps (which depends on the local time zone). *)
Record Env : Type := mkEnv {
  Stat : string -> result FileInfo;
  Lstat : string -> result FileInfo;
  ReadDir : string -> list DirEntry * option error;
  Glob : string -> result (list string);
  ctx_err : nat -> option error;
  TimeFormat : string -> Z -> string
}.

Record Flags : Type := mkFlags {
  LongFormat : bool;
  AllFiles : bool;
  HumanReadable : bool;
  Recursive : bool;
  Reverse : bool;
  SortBy : string
}.

(** Functional updates of single flags. *)
Definition with_Recursive (r : bool) (f : Flags) : Flags :=
  {| LongFormat := LongFormat f; AllFiles := AllFiles f;
     HumanReadable := HumanReadable f; Recursive := r;
     Reverse := Reverse f; SortBy := SortBy f |}.

Definition with_AllFiles (a : bool) (f : Flags) : Flags :=
  {| LongFormat := LongFormat f; AllFiles := a;
     HumanReadable := HumanReadable f; Recursive := Recursive f;
     Reverse := Reverse f; SortBy := SortBy f |}.

Definition with_Reverse (r : bool) (f : Flags) : Flags :=
  {| LongFormat := LongFormat f; AllFiles := AllFiles f;
     HumanReadable := HumanReadable f; Recursive := Recursive f;
     Reverse := r; SortBy := SortBy f |}.

Definition with_SortBy (s : string) (f : Flags) : Flags :=
  {| LongFormat := LongFormat f; AllFiles := AllFiles f;
     HumanReadable := HumanReadable f; Recursive := Recursive f;
     Reverse := Reverse f; SortBy := s |}.

Definition with_LongFormat (l h : bool) (f : Flags) : Flags :=
  {| LongFormat := l; AllFiles := AllFiles f;
     HumanReadable := h; Recursive := Recursive f;
     Reverse := Reverse f; SortBy := SortBy f |}.

Definition SortByName : string := "name".
Definition SortByTime : string := "time".
Definition SortBySize : string := "size".

(** ** Running the command: output streams, polls of the context, fuel *)

(** [stdout] and [stderr] hold the text of each Fprintln or Fprintf call in
    the order of the calls, without its final newline; the command never
    looks at the results of its writes.  [polls] counts the polls of the
    context made so far. *)
Record World : Type := mkWorld {
  stdout : list string;
  stderr : list string;
  polls : nat
}.

Definition World0 : World := {| stdout := []; stderr := []; polls := 0 |}.

(** A computation either runs out of fuel ([None]; fuel bounds the depth
    of the recursion into directories) or ends, normally or in a panic,
    in a world that keeps what was written before. *)
Definition M (A : Type) : Type := World -> option (outcome A * World).

#[global] Instance M_ret : MRet M := fun A a w => Some (Done a, w).
#[global] Instance M_bind : MBind M := fun A B k m w =>
  match m w with
  | None => None
  | Some (Done a, w') => k a w'
  | Some (Panic msg, w') => Some (Panic msg, w')
  end.

Definition lift {A} (o : outcome A) : M A := fun w => Some (o, w).

Definition out_of_fuel {A} : M A := fun _ => None.

Definition Fprintln_stdout (line : string) : M () := fun w =>
  Some (Done (), {| stdout := stdout w ++ [line]; stderr := stderr w; polls := polls w |}).

Definition Fprintln_stderr (line : string) : M () := fun w =>
  Some (Done (), {| stdout := stdout w; stderr := stderr w ++ [line]; polls := polls w |}).

(** [fmt.Fprintf(stderr, "ls: %s: %v\n", path, err)]. *)
Definition diagnostic (path : string) (e : error) : string :=
  "ls: " +:+ path +:+ ": " +:+ Error e.

(** [yup.CheckContextCancellation(ctx)]: the error of the context when it
    is done, nil otherwise. *)
Definition CheckContextCancellation (env : Env) : M (option error) := fun w =>
  Some (Done (ctx_err env (polls w)),
        {| stdout := stdout w; stderr := stderr w; polls := S (polls w) |}).

(** ** Go's sort.Slice

    [sort.Slice] sorts slices of at most 12 elements by insertion
    ([insertionSortLessFunc]); this is its model.  The sorted prefix is
    kept reversed, so that the element being inserted meets its left
    neighbour first, as [Less(j, j-1)] does.  A panic of [less]
    interrupts the sort.  Longer slices go through pdqsort; the
    properties below either concern two entries or hold of any sort that
    permutes its input. *)
Fixpoint insert_left {A} (less : A -> A -> outcome bool) (x : A) (rp : list A)
  : outcome (list A) :=
  match rp with
  | [] => Done [x]
  | y :: rp' =>
      b ← less x y;
      if b : bool then rest ← insert_left less x rp'; mret (y :: rest)
      else mret (x :: rp)
  end.

Fixpoint insertion_sort {A} (less : A -> A -> outcome bool) (rp : list A)
  (l : list A) : outcome (list A) :=
  match l with
  | [] => mret (rev rp)
  | x :: l' => rp' ← insert_left less x rp; insertion_sort less rp' l'
  end.

Definition sort_Slice {A} (less : A -> A -> outcome bool) (l : list A)
  : outcome (list A) :=
  insertion_sort less [] l.

Definition lift_fuel {A} (o : option (outcome A)) : M A := fun w =>
  match o with
  | None => None
  | Some r => Some (r, w)
  end.

Definition nil_dereference : string :=
  "runtime error: invalid memory address or nil pointer dereference".

Definition index_out_of_range (i len : nat) : string :=
  "runtime error: index out of range [" +:+ format_int (Z.of_nat i)
  +:+ "] with length " +:+ format_int (Z.of_nat len).

(** A method call on the [FileInfo] of a pair (info, err) whose error was
    dropped: the info is nil when the error is not. *)
Definition deref (r : result FileInfo) : outcome FileInfo :=
  match r with
  | Ok info => Done info
  | Err _ => Panic nil_dereference
  end.

(** Polls made only every [period] iterations of a loop. *)
Definition poll_every (env : Env) (period i : nat) : M (option error) :=
  if (i mod period =? 0)%nat then CheckContextCancellation env else mret None.

(** * src/ls.go *)

Module Ls.
Section Command.
Variable env : Env.
Variable flags : Flags.

Definition units : list string := ["K"; "M"; "G"; "T"].

Definition humanReadableSize (size : Z) : option (outcome string) :=
  if size <? unit then Some (Done (format_int size +:+ "B"))
  else
    '(div, exp) ← scale_loop (scale_fuel (Z.quot size unit)) (Z.quot size unit) unit 0;
    match units !! exp with
    | Some u => Some (Done (format_scaled size div u))
    | None => Some (Panic (index_out_of_range exp (length units)))
    end.

(** The closure given to [sort.Slice], on the two entries compared. *)
Definition less (e1 e2 : DirEntry) : outcome bool :=
  b ← (if String.eqb (SortBy flags) SortByTime then
         info1 ← deref (Info e1);
         info2 ← deref (Info e2);
         mret (ModTime info1 <? ModTime info2)
       else if String.eqb (SortBy flags) SortBySize then
         info1 ← deref (Info e1);
         info2 ← deref (Info e2);
         mret (Size info1 <? Size info2)
       else mret (String.ltb (Name e1) (Name e2)));
  mret (if Reverse flags then negb b else b).

Definition sortEntries (entries : list DirEntry) : M (list DirEntry) :=
  c ← CheckContextCancellation env;
  match c with
  | Some _ => mret entries
  | None => lift (sort_Slice less entries)
  end.

Definition printLongFormat (path : string) (info : FileInfo) : M () :=
  let mode := FileMode_String (Mode info) in
  let size := Size info in
  let modTime := TimeFormat env "Jan _2 15:04:05" (ModTime info) in
  let name := Base path in
  sizeStr ← (if HumanReadable flags then lift_fuel (humanReadableSize size)
             else mret (format_int size));
  Fprintln_stdout (mode +:+ " " +:+ pad_left 8 sizeStr +:+ " " +:+ modTime
                   +:+ " " +:+ name).

Definition printFile (path : string) (info : FileInfo) : M () :=
  if LongFormat flags then printLongFormat path info
  else Fprintln_stdout (Base path).

(** The filter loop of [listPath]: [Err] when a poll saw the context
    done, the kept entries otherwise. *)
Fixpoint filterEntries (i : nat) (entries items : list DirEntry)
  : M (result (list DirEntry)) :=
  match entries with
  | [] => mret (Ok items)
  | entry :: rest =>
      c ← poll_every env 1000 i;
      match c with
      | Some e => mret (Err e)
      | None =>
          if negb (AllFiles flags) && HasPrefix (Name entry) "."
          then filterEntries (S i) rest items
          else filterEntries (S i) rest (items ++ [entry])
      end
  end.

(** The print loop of [listPath]; [rec] is [listPath] itself, whose
    result the loop drops. *)
Fixpoint printEntries (rec : string -> M (option error)) (path : string)
  (i : nat) (items : list DirEntry) : M (option error) :=
  match items with
  | [] => mret None
  | entry :: rest =>
      c ← poll_every env 100 i;
      match c with
      | Some e => mret (Some e)
      | None =>
          let entryPath := Join path (Name entry) in
          match Info entry with
          | Err e =>
              Fprintln_stderr (diagnostic entryPath e);;
              printEntries rec path (S i) rest
          | Ok entryInfo =>
              printFile entryPath entryInfo;;
              (if Recursive flags && FileInfo_IsDir entryInfo then
                 Fprintln_stdout "";;
                 Fprintln_stdout (entryPath +:+ ":");;
                 rec entryPath;;
                 mret ()
               else mret ());;
              printEntries rec path (S i) rest
          end
      end
  end.

Fixpoint listPath (fuel : nat) (path : string) : M (option error) :=
  match fuel with
  | O => out_of_fuel
  | S fuel' =>
      c ← CheckContextCancellation env;
      if c is Some e then mret (Some e) else
      match Stat env path with
      | Err e => mret (Some e)
      | Ok info =>
          if negb (FileInfo_IsDir info) then printFile path info;; mret None
          else
            match ReadDir env path with
            | (_, Some e) => mret (Some e)
            | (entries, None) =>
                c ← CheckContextCancellation env;
                if c is Some e then mret (Some e) else
                r ← filterEntries 0 entries [];
                match r with
                | Err e => mret (Some e)
                | Ok items =>
                    items ← sortEntries items;
                    c ← CheckContextCancellation env;
                    if c is Some e then mret (Some e) else
                    printEntries (listPath fuel') path 0 items
                end
            end
      end
  end.

(** The loop of [Execute] over the paths; [n] is [len(paths)]. *)
Fixpoint executePaths (fuel n i : nat) (paths : list string) : M (option error) :=
  match paths with
  | [] => mret None
  | path :: rest =>
      c ← CheckContextCancellation env;
      if c is Some e then mret (Some e) else
      (if (1 <? n)%nat && (0 <? i)%nat then Fprintln_stdout "" else mret ());;
      (if (1 <? n)%nat then Fprintln_stdout (path +:+ ":") else mret ());;
      r ← listPath fuel path;
      (if r is Some e then Fprintln_stderr (diagnostic path e) else mret ());;
      executePaths fuel n (S i) rest
  end.

Definition Execute (fuel : nat) (positional : list string) : M (option error) :=
  c ← CheckContextCancellation env;
  if c is Some e then mret (Some e) else
  let paths := if (length positional =? 0)%nat then ["."] else positional in
  executePaths fuel (length paths) 0 paths.

End Command.
End Ls.

(** ** Go's filepath.WalkDir *)

Section WalkDir.
Variable env : Env.
Variable fn : string -> option DirEntry -> option error -> M (option error).

(** [if err == SkipDir && d.IsDir() { err = nil }]. *)
Definition skipped (d : DirEntry) (err : option error) : option error :=
  if bool_decide (err = Some SkipDir) && IsDir d then None else err.

(** The loop of [walkDir] over the entries read; [rec] is [walkDir]. *)
Fixpoint walkEntries (rec : string -> DirEntry -> M (option error))
  (path : string) (dirs : list DirEntry) : M (option error) :=
  match dirs with
  | [] => mret None
  | d1 :: rest =>
      err ← rec (Join path (Name d1)) d1;
      match err with
      | Some e => if bool_decide (e = SkipDir) then mret None else mret (Some e)
      | None => walkEntries rec path rest
      end
  end.

Fixpoint walkDir (fuel : nat) (path : string) (d : DirEntry) : M (option error) :=
  match fuel with
  | O => out_of_fuel
  | S fuel' =>
      err ← fn path (Some d) None;
      if bool_decide (err ≠ None) || negb (IsDir d) then mret (skipped d err)
      else
        let '(dirs, rerr) := ReadDir env path in
        err ← (if rerr is Some e then fn path (Some d) (Some e) else mret None);
        if err is Some _ then mret (skipped d err)
        else walkEntries (walkDir fuel') path dirs
  end.

Definition WalkDir (fuel : nat) (root : string) : M (option error) :=
  err ← match Lstat env root with
        | Err e => fn root None (Some e)
        | Ok info => walkDir fuel root (FileInfoToDirEntry (Base root) info)
        end;
  if bool_decide (err = Some SkipDir) || bool_decide (err = Some SkipAll)
  then mret None else mret err.
End WalkDir.

(** * The newer variant: package command *)

Module Command.

(** [for i := s; i <= e; i++] and [for i := s; i >= e; i--] on int: the
    values of [i] in the loop body.  The increment wraps, so the loop
    never exits when [e] is the largest int: no fuel is enough then. *)
Fixpoint count_up (fuel : nat) (i e : Z) : option (list Z) :=
  match fuel with
  | O => None
  | S fuel' =>
      if i <=? e then rest ← count_up fuel' (wrap64 (i + 1)) e; Some (i :: rest)
      else Some []
  end.

Fixpoint count_down (fuel : nat) (i e : Z) : option (list Z) :=
  match fuel with
  | O => None
  | S fuel' =>
      if e <=? i then rest ← count_down fuel' (wrap64 (i - 1)) e; Some (i :: rest)
      else Some []
  end.

Definition range_fuel (s e : Z) : nat := Z.to_nat (Z.abs (e - s)) + 2.

(** The same loops on runes built from one byte each: no wrap-around. *)
Definition runes_between (s e : Z) : list Z :=
  if s <=? e then map (fun k => s + Z.of_nat k) (seq 0 (Z.to_nat (e - s + 1)))
  else map (fun k => s - Z.of_nat k) (seq 0 (Z.to_nat (s - e + 1))).

Definition ascii_of_Z (z : Z) : ascii := ascii_of_N (Z.to_N z).

(** [string(r)] for a rune below 256: its UTF-8 encoding. *)
Definition string_of_rune (r : Z) : string :=
  if r <? 128 then String (ascii_of_Z r) ""
  else String (ascii_of_Z (192 + r / 64)) (String (ascii_of_Z (128 + r mod 64)) "").

Definition expandRange (start end_ : string) : option (list string) :=
  match Sscanf_d start, Sscanf_d end_ with
  | Some s, Some e =>
      ints ← (if s <=? e then count_up (range_fuel s e) s e
              else count_down (range_fuel s e) s e);
      Some (map format_int ints)
  | _, _ =>
      match start, end_ with
      | String a EmptyString, String b EmptyString =>
          Some (map string_of_rune (runes_between (byte a) (byte b)))
      | _, _ => Some [start; end_]
      end
  end.

(** The scan for the closing brace; [s] is [pattern[i:]]. *)
Fixpoint matchClose (depth : Z) (i : nat) (s : string) : option nat :=
  match s with
  | EmptyString => None
  | String c s' =>
      if Ascii.eqb c "{" then matchClose (depth + 1) (S i) s'
      else if Ascii.eqb c "}" then
        if depth - 1 =? 0 then Some i else matchClose (depth - 1) (S i) s'
      else matchClose depth (S i) s'
  end.

(** [pattern[lo:hi]]. *)
Definition slice (s : string) (lo hi : nat) : string := substring lo (hi - lo) s.

Fixpoint expandBraces_fuel (fuel : nat) (pattern : string) : option (list string) :=
  match fuel with
  | O => None
  | S fuel' =>
      match Index pattern "{" with
      | None => Some [pattern]
      | Some start =>
          match matchClose 0 start (slice pattern start (String.length pattern)) with
          | None => Some [pattern]
          | Some end_ =>
              let prefix := slice pattern 0 start in
              let braceContent := slice pattern (start + 1) end_ in
              let suffix := slice pattern (end_ + 1) (String.length pattern) in
              expansions ← (if Contains braceContent ".." then
                              match Split braceContent ".." with
                              | [p0; p1] => expandRange (TrimSpace p0) (TrimSpace p1)
                              | _ => Some []
                              end
                            else Some []);
              let expansions :=
                if (length expansions =? 0)%nat
                then map TrimSpace (Split braceContent ",")
                else expansions in
              results ← mapM (fun exp => expandBraces_fuel fuel' (prefix +:+ exp +:+ suffix))
                             expansions;
              Some (concat results)
          end
      end
  end.

(** Every recursive call is on a pattern with fewer braces, and a pattern
    has no more braces than bytes: this fuel never runs out
    ([expandBraces_fuel_enough]). *)
Definition expandBraces (pattern : string) : option (list string) :=
  expandBraces_fuel (S (String.length pattern)) pattern.

Section Command.
Variable env : Env.
Variable flags : Flags.

(** One step of the inner loops of [expandPatterns]: [st] is the pair of
    [result] and of the set [seen]. *)
Definition addUnique (st : list string * gset string) (p : string)
  : list string * gset string :=
  if bool_decide (p ∈ st.2) then st else (st.1 ++ [p], {[p]} ∪ st.2).

Fixpoint globAll (st : list string * gset string) (expanded : list string)
  : result (list string * gset string) :=
  match expanded with
  | [] => Ok st
  | exp :: rest =>
      match Glob env exp with
      | Err e => Err (Errorf ("invalid pattern " +:+ exp +:+ ": " +:+ Error e))
      | Ok matches =>
          globAll (if (length matches =? 0)%nat then addUnique st exp
                   else fold_left addUnique matches st) rest
      end
  end.

Fixpoint expandPatterns_go (st : list string * gset string) (patterns : list string)
  : option (result (list string)) :=
  match patterns with
  | [] => Some (Ok st.1)
  | pattern :: rest =>
      expanded ← expandBraces pattern;
      match globAll st expanded with
      | Err e => Some (Err e)
      | Ok st' => expandPatterns_go st' rest
      end
  end.

Definition expandPatterns (patterns : list string) : option (result (list string)) :=
  expandPatterns_go ([], ∅) patterns.

Definition units : list string := ["K"; "M"; "G"; "T"; "P"; "E"].

Definition formatHumanReadable (size : Z) : option (outcome string) :=
  if size <? unit then Some (Done (format_int size +:+ "B"))
  else
    '(div, exp) ← scale_loop (scale_fuel (Z.quot size unit)) (Z.quot size unit) unit 0;
    match units !! exp with
    | Some u => Some (Done (format_scaled size div u))
    | None => Some (Panic (index_out_of_range exp (length units)))
    end.

Definition formatLong (path : string) (info : FileInfo) : M string :=
  let mode := FileMode_String (Mode info) in
  let size := Size info in
  let modTime := TimeFormat env "2006-01-02 15:04:05" (ModTime info) in
  let name := Base path in
  sizeStr ← (if HumanReadable flags then lift_fuel (formatHumanReadable size)
             else mret (format_int size));
  mret (mode +:+ " " +:+ pad_left 10 sizeStr +:+ " " +:+ modTime +:+ " " +:+ name).

Definition formatEntry (path : string) (info : FileInfo) : M string :=
  if LongFormat flags then formatLong path info else mret (Base path).

(** The closure given to [sort.Slice], on the two entries compared. *)
Definition less (e1 e2 : DirEntry) : bool :=
  let b :=
    if String.eqb (SortBy flags) "time" then
      match Info e1, Info e2 with
      | Ok infoI, Ok infoJ => ModTime infoJ <? ModTime infoI
      | _, _ => String.ltb (Name e1) (Name e2)
      end
    else if String.eqb (SortBy flags) "size" then
      match Info e1, Info e2 with
      | Ok infoI, Ok infoJ => Size infoJ <? Size infoI
      | _, _ => String.ltb (Name e1) (Name e2)
      end
    else String.ltb (Name e1) (Name e2) in
  if Reverse flags then negb b else b.

Definition sortEntries (entries : list DirEntry) : outcome (list DirEntry) :=
  sort_Slice (fun e1 e2 => Done (less e1 e2)) entries.

Definition filterEntries (entries : list DirEntry) : list DirEntry :=
  List.filter (fun entry => negb (negb (AllFiles flags) && HasPrefix (Name entry) "."))
              entries.

(** The output loop of [listSingle]. *)
Fixpoint printEntries (dirPath : string) (filtered : list DirEntry) : M () :=
  match filtered with
  | [] => mret ()
  | entry :: rest =>
      let fullPath := Join dirPath (Name entry) in
      match Info entry with
      | Err e => Fprintln_stderr (diagnostic fullPath e)
      | Ok info => line ← formatEntry fullPath info; Fprintln_stdout line
      end;;
      printEntries dirPath rest
  end.

Definition listSingle (dirPath : string) : M (option error) :=
  match ReadDir env dirPath with
  | (_, Some e) => mret (Some e)
  | (entries, None) =>
      filtered ← lift (sortEntries (filterEntries entries));
      printEntries dirPath filtered;;
      mret None
  end.

(** The function that [listRecursive] hands to [filepath.WalkDir]. *)
Definition visit (dirPath path : string) (d : option DirEntry) (err : option error)
  : M (option error) :=
  match err with
  | Some e => Fprintln_stderr (diagnostic path e);; mret None
  | None =>
      match d with
      | None => lift (Panic nil_dereference)
      | Some d =>
          if negb (AllFiles flags) && HasPrefix (Name d) "."
             && negb (String.eqb path dirPath)
          then (if IsDir d then mret (Some SkipDir) else mret None)
          else
            match Info d with
            | Err e => Fprintln_stderr (diagnostic path e);; mret None
            | Ok info =>
                line ← formatEntry path info;
                Fprintln_stdout line;;
                mret None
            end
      end
  end.

Definition listRecursive (fuel : nat) (dirPath : string) : M (option error) :=
  WalkDir env (visit dirPath) fuel dirPath.

Definition listDirectory (fuel : nat) (dirPath : string) : M (option error) :=
  if Recursive flags then listRecursive fuel dirPath else listSingle dirPath.

(** The loop of the executor over the paths. *)
Fixpoint executePaths (fuel : nat) (paths : list string) : M (option error) :=
  match paths with
  | [] => mret None
  | path :: rest =>
      match Stat env path with
      | Err e => Fprintln_stderr (diagnostic path e)
      | Ok info =>
          if negb (FileInfo_IsDir info) then
            output ← formatEntry path info; Fprintln_stdout output
          else
            r ← listDirectory fuel path;
            if r is Some e then Fprintln_stderr (diagnostic path e) else mret ()
      end;;
      executePaths fuel rest
  end.

Definition Executor (fuel : nat) (positional : list string) : M (option error) :=
  let patterns := if (length positional =? 0)%nat then ["."] else positional in
  r ← lift_fuel (Done <$> expandPatterns patterns);
  match r with
  | Err e => Fprintln_stderr ("ls: " +:+ Error e);; mret (Some e)
  | Ok paths =>
      let paths := if (length paths =? 0)%nat then patterns else paths in
      executePaths fuel paths
  end.

End Command.
End Command.

(** * Concrete surroundings, used to run the embedding *)

Module Examples.

Definition file_info (size mtime : Z) : FileInfo :=
  {| Size := size; Mode := 420; ModTime := mtime |}.

Definition dir_info : FileInfo :=
  {| Size := 4096; Mode := ModeDir + 493; ModTime := 0 |}.

Definition file_entry (name : string) (size mtime : Z) : DirEntry :=
  {| Name := name; IsDir := false; Info := Ok (file_info size mtime) |}.

Definition dir_entry (name : string) : DirEntry :=
  {| Name := name; IsDir := true; Info := Ok dir_info |}.

Definition ENOENT (op path : string) : error :=
  PathError op path "no such file or directory".

(** An entry removed between the directory read and the lstat of
    [Info]. *)
Definition vanished_entry (dir name : string) : DirEntry :=
  {| Name := name; IsDir := false;
     Info := Err (ENOENT "lstat" (dir +:+ "/" +:+ name)) |}.

(** A context that is never done, and one that is done with [e] from
    its [k]-th poll on. *)
Definition never_done : nat -> option error := fun _ => None.

Definition done_from (k : nat) (e : error) : nat -> option error :=
  fun n => if (k <=? n)%nat then Some e else None.

Definition no_TimeFormat : string -> Z -> string := fun _ _ => "".

(** Directories are given by their listings, files by their infos. *)
Definition lookup_path {A} (p : string) (table : list (string * A)) : option A :=
  snd <$> List.find (fun '(q, _) => String.eqb p q) table.

Definition mkTree (dirs : list (string * list DirEntry))
  (files : list (string * FileInfo)) (ctx : nat -> option error) : Env :=
  let stat := fun p =>
    match lookup_path p dirs, lookup_path p files with
    | Some _, _ => Ok dir_info
    | None, Some info => Ok info
    | None, None => Err (ENOENT "stat" p)
    end in
  {| Stat := stat;
     Lstat := stat;
     ReadDir := fun p =>
       match lookup_path p dirs with
       | Some entries => (entries, None)
       | None => ([], Some (ENOENT "open" p))
       end;
     Glob := fun p => if stat p is Ok _ then Ok [p] else Ok [];
     ctx_err := ctx;
     TimeFormat := no_TimeFormat |}.

(** The directory d holds .hidden, a.txt, b.txt and the directory sub,
    which holds the file f. *)
Definition tree_dirs : list (string * list DirEntry) :=
  [("d", [file_entry ".hidden" 1 10; file_entry "a.txt" 30 20;
          file_entry "b.txt" 20 30; dir_entry "sub"]);
   ("d/sub", [file_entry "f" 5 40])].

Definition tree_files : list (string * FileInfo) :=
  [("d/.hidden", file_info 1 10); ("d/a.txt", file_info 30 20);
   ("d/b.txt", file_info 20 30); ("d/sub/f", file_info 5 40)].

Definition tree : Env := mkTree tree_dirs tree_files never_done.

(** The directory v holds a, which vanishes before its lstat, and b. *)
Definition vanishing : Env :=
  mkTree [("v", [vanished_entry "v" "a"; file_entry "b" 7 50])]
         [("v/b", file_info 7 50)] never_done.

Definition default_flags : Flags :=
  {| LongFormat := false; AllFiles := false; HumanReadable := false;
     Recursive := false; Reverse := false; SortBy := SortByName |}.

End Examples.

(** * Notions used by the statements *)

(** One iteration of [div *= unit]. *)
Definition grow (d : Z) : Z := wrap64 (d * unit).

(** The world after [n] more polls and the lines [out] on stdout. *)
Definition after (n : nat) (out : list string) (w : World) : World :=
  {| stdout := stdout w ++ out; stderr := stderr w; polls := (polls w + n)%nat |}.

(** The world after one poll. *)
Definition tick (w : World) : World :=
  {| stdout := stdout w; stderr := stderr w; polls := S (polls w) |}.

Definition lines_of (w : World) : gset string := list_to_set (stdout w).

(** A computation only ever appends to stdout. *)
Definition appends {A} (m : M A) : Prop :=
  forall w r w', m w = Some (r, w') -> exists out, stdout w' = stdout w ++ out.

(** [m] ends from every world, within the fuel it was given, and a
    normal result satisfies [Q]. *)
Definition returns {A} (m : M A) (Q : A -> Prop) : Prop :=
  forall w, exists r w', m w = Some (r, w')
                         /\ match r with Done a => Q a | Panic _ => True end.

(** [m'] ends as [m] does wherever [m] ends. *)
Definition refines {A} (m m' : M A) : Prop :=
  forall w r, m w = Some r -> m' w = Some r.

(** ** Names *)

Fixpoint slash_free (s : string) : bool :=
  match s with
  | EmptyString => true
  | String c s' => negb (Ascii.eqb c slash) && slash_free s'
  end.

(** What [os.ReadDir] gives as the name of an entry: not empty, neither
    "." nor "..", without a slash. *)
Definition valid_name (n : string) : Prop :=
  n <> "" /\ n <> "." /\ n <> ".." /\ slash_free n = true.

(** The metadata of the entry can be retrieved. *)
Definition has_info (e : DirEntry) : Prop := exists info, Info e = Ok info.

(** The test of both filter loops, negated: the entry is kept. *)
Definition visible (flags : Flags) (e : DirEntry) : bool :=
  negb (negb (AllFiles flags) && HasPrefix (Name e) ".").

Definition hidden_name (n : string) : bool := HasPrefix n ".".

Definition names (entries : list DirEntry) : gset string :=
  list_to_set (map Name entries).

(** The children's names, without the hidden ones unless [AllFiles]. *)
Definition expected_names (flags : Flags) (entries : list DirEntry) : gset string :=
  if AllFiles flags then names entries
  else names entries ∖ names (List.filter (fun e => hidden_name (Name e)) entries).

Definition brace_free (p : string) : Prop :=
  Forall (fun c => c <> "{"%char /\ c <> "}"%char) (list_ascii_of_string p).

Definition is_brace (c : ascii) : bool := Ascii.eqb c "{" || Ascii.eqb c "}".

(** The number of braces of a pattern: every step of the expansion
    lowers it. *)
Fixpoint braces (s : string) : nat :=
  match s with
  | EmptyString => 0
  | String c s' => (if is_brace c then 1 else 0) + braces s'
  end.

(** ** Sort keys *)

Inductive key : Type :=
| KName (s : string)
| KNum (z : Z).

#[global] Instance key_eq_dec : EqDecision key.
Proof. solve_decision. Defined.

(** The key that [SortBy] selects; none when it needs metadata that
    cannot be retrieved. *)
Definition sort_key (sortBy : string) (e : DirEntry) : option key :=
  if String.eqb sortBy "time" then
    match Info e with Ok info => Some (KNum (ModTime info)) | Err _ => None end
  else if String.eqb sortBy "size" then
    match Info e with Ok info => Some (KNum (Size info)) | Err _ => None end
  else Some (KName (Name e)).

Definition keyed (sortBy : string) (e : DirEntry) : Prop :=
  is_Some (sort_key sortBy e).

Definition same_kind (k1 k2 : key) : Prop :=
  match k1, k2 with
  | KName _, KName _ | KNum _, KNum _ => True
  | _, _ => False
  end.

(** Ascending on every key: the order of src/ls.go. *)
Definition key_ltb (k1 k2 : key) : bool :=
  match k1, k2 with
  | KName a, KName b => String.ltb a b
  | KNum a, KNum b => a <? b
  | _, _ => false
  end.

(** Names ascending, times and sizes descending: the order of the newer
    variant. *)
Definition key_before (k1 k2 : key) : bool :=
  match k1, k2 with
  | KNum a, KNum b => b <? a
  | _, _ => key_ltb k1 k2
  end.

Class StrictTotal (before : key -> key -> bool) : Prop := {
  before_irrefl : forall k, before k k = false;
  before_trans : forall k1 k2 k3,
    before k1 k2 = true -> before k2 k3 = true -> before k1 k3 = true;
  before_total : forall k1 k2,
    same_kind k1 k2 -> k1 <> k2 -> before k1 k2 = negb (before k2 k1)
}.

(** [R] is a total order that respects the key, on entries that have
    one: transitive; of two entries with distinct keys exactly one comes
    before the other; and [R] depends on the keys only.  Both a strict
    order and its complement qualify. *)
Definition total_order_on_key (sortBy : string) (R : DirEntry -> DirEntry -> bool) : Prop :=
  (forall a b c, keyed sortBy a -> keyed sortBy b -> keyed sortBy c ->
     R a b = true -> R b c = true -> R a c = true)
  /\ (forall a b, keyed sortBy a -> keyed sortBy b ->
        sort_key sortBy a <> sort_key sortBy b -> R a b = negb (R b a))
  /\ (forall a b a' b', keyed sortBy a -> keyed sortBy b ->
        sort_key sortBy a = sort_key sortBy a' ->
        sort_key sortBy b = sort_key sortBy b' -> R a b = R a' b').

(** The same on the entries of a given list, keyed or not. *)
Definition total_order_on (l : list DirEntry) (sortBy : string)
  (R : DirEntry -> DirEntry -> bool) : Prop :=
  (forall a b c, a ∈ l -> b ∈ l -> c ∈ l ->
     R a b = true -> R b c = true -> R a c = true)
  /\ (forall a b, a ∈ l -> b ∈ l ->
        sort_key sortBy a <> sort_key sortBy b -> R a b = negb (R b a))
  /\ (forall a b a' b', a ∈ l -> b ∈ l -> a' ∈ l -> b' ∈ l ->
        sort_key sortBy a = sort_key sortBy a' ->
        sort_key sortBy b = sort_key sortBy b' -> R a b = R a' b').

(** The comparison with its result inverted. *)
Definition invert {A} (less : A -> A -> outcome bool) : A -> A -> outcome bool :=
  fun a b => b ← less a b; mret (negb b).

Definition value_or (d : bool) (o : outcome bool) : bool :=
  match o with Done b => b | Panic _ => d end.

(** Three entries of one directory; the lstat of m fails. *)
Definition mixed_entries : list DirEntry :=
  [Examples.vanished_entry "v" "m"; Examples.file_entry "n" 0 2;
   Examples.file_entry "b" 0 1].

(** ** Notions used by the further properties *)

(** What one brace-expanded pattern contributes to the paths: its
    matches, or itself when it has none. *)
Definition candidate (env : Env) (exp p : string) : Prop :=
  exists matches, Glob env exp = Ok matches
                  /\ (matches = [] /\ p = exp \/ p ∈ matches).

(** The set [seen] holds the strings of [result], each once. *)
Definition coherent (st : list string * gset string) : Prop :=
  NoDup st.1 /\ forall p, p ∈ st.2 <-> p ∈ st.1.

(** The pattern holds no closing brace. *)
Definition close_free (p : string) : Prop :=
  Forall (fun c => c <> "}"%char) (list_ascii_of_string p).

(** The integers from [s] to [e], ascending or descending. *)
Definition between (s e : Z) : list Z :=
  if s <=? e then map (fun k => s + Z.of_nat k) (seq 0 (Z.to_nat (e - s + 1)))
  else map (fun k => s - Z.of_nat k) (seq 0 (Z.to_nat (s - e + 1))).

(** The strings put in place of the group with content [mid]. *)
Definition group_expansions (mid : string) (expansions : list string) : list string :=
  if (length expansions =? 0)%nat then map TrimSpace (Split mid ",") else expansions.

(** [a] may stand before [b] in a listing ordered by [before] on the
    keys: the key of [b] is not strictly before that of [a]. *)
Definition in_order (before : key -> key -> bool) (sortBy : string) (a b : DirEntry)
  : Prop :=
  forall ka kb, sort_key sortBy a = Some ka -> sort_key sortBy b = Some kb ->
                before kb ka = false.

(** The comparison of the keys of two entries; false when one has no
    key. *)
Definition before_by (before : key -> key -> bool) (sortBy : string) (a b : DirEntry)
  : bool :=
  match sort_key sortBy a, sort_key sortBy b with
  | Some ka, Some kb => before ka kb
  | _, _ => false
  end.

(** A sorted prefix, rightmost element first: no element is less than
    one to its left. *)
Definition descending {A} (lt : A -> A -> bool) (rp : list A) : Prop :=
  StronglySorted (fun a b => lt a b = false) rp.

(** The path names a file that is not a directory, or nothing that
    [os.Stat] can reach. *)
Definition plain (env : Env) (path : string) : Prop :=
  match Stat env path with
  | Ok info => FileInfo_IsDir info = false
  | Err _ => True
  end.

(** The lines of stdout for such paths, in short form: the base name of
    each path that is there. *)
Definition found (env : Env) (paths : list string) : list string :=
  flat_map (fun p => if Stat env p is Ok _ then [Base p] else []) paths.

(** The lines of stderr: one diagnostic for each path that is not. *)
Definition missing (env : Env) (paths : list string) : list string :=
  flat_map (fun p => if Stat env p is Err e then [diagnostic p e] else []) paths.

(** The lines of stdout when each path is announced by a header and all
    but the first by an empty line; [i] is the index of the first of
    [paths]. *)
Fixpoint announced (env : Env) (i : nat) (paths : list string) : list string :=
  match paths with
  | [] => []
  | p :: rest =>
      (if (0 <? i)%nat then [""] else []) ++ [p +:+ ":"] ++ found env [p]
      ++ announced env (S i) rest
  end.

(** The lines that the entries give on stdout, in short form: the names
    of those whose metadata can be retrieved. *)
Definition listed (entries : list DirEntry) : list string :=
  flat_map (fun e => if Info e is Ok _ then [Name e] else []) entries.

(** The lines that they give on stderr: a diagnostic for each of the
    others, with the path of the entry below [dirPath]. *)
Definition reported (dirPath : string) (entries : list DirEntry) : list string :=
  flat_map (fun e => if Info e is Err err
                     then [diagnostic (Join dirPath (Name e)) err] else []) entries.

(** A computation that leaves stderr as it is. *)
Definition silent {A} (m : M A) : Prop :=
  forall w r w', m w = Some (r, w') -> stderr w' = stderr w.

(** ** Further surroundings *)

(** A file system without entries, where the pattern [ is malformed. *)
Definition bad_pattern : Env :=
  {| Stat := fun p => Err (Examples.ENOENT "stat" p);
     Lstat := fun p => Err (Examples.ENOENT "lstat" p);
     ReadDir := fun p => ([], Some (Examples.ENOENT "open" p));
     Glob := fun p => if String.eqb p "[" then Err ErrBadPattern else Ok [];
     ctx_err := Examples.never_done;
     TimeFormat := Examples.no_TimeFormat |}.

(** The directory d lists a and the directory sub, which is gone when
    the listing comes to it. *)
Definition missing_sub : Env :=
  Examples.mkTree [("d", [Examples.file_entry "a" 1 1; Examples.dir_entry "sub"])]
                  [("d/a", Examples.file_info 1 1)] Examples.never_done.

(** Newest or oldest first. *)
Definition by_time : Flags := with_SortBy SortByTime Examples.default_flags.

(** The entries of d in the example tree. *)
Definition d_entries : list DirEntry :=
  [Examples.file_entry ".hidden" 1 10; Examples.file_entry "a.txt" 30 20;
   Examples.file_entry "b.txt" 20 30; Examples.dir_entry "sub"].

(** The depth of the directories below the paths of the example tree. *)
Definition tree_rank (p : string) : nat := if String.eqb p "d" then 1 else 0.

(** * Properties *)

Import Examples.

(** ** The models of the Go library on examples *)

Example Clean_examples :
  Clean "a//b/../c/." = "a/c" /\ Clean "/../a" = "/a" /\ Clean "" = "."
  /\ Clean "../../a/.." = "../.." /\ Clean "a/.." = ".".
Proof. repeat split. Qed.

Example Join_examples :
  Join "." "x" = "x" /\ Join "d/" "x" = "d/x" /\ Join "" "x" = "x"
  /\ Join "a/b" "../c" = "a/c".
Proof. repeat split. Qed.

Example Base_examples :
  Base "a/b/" = "b" /\ Base "/" = "/" /\ Base "" = "." /\ Base "d/x.txt" = "x.txt".
Proof. repeat split. Qed.

Example Split_examples :
  Split "a,b,,c" "," = ["a"; "b"; ""; "c"] /\ Split "1...3" ".." = ["1"; ".3"]
  /\ Split "" "," = [""].
Proof. repeat split. Qed.

Example TrimSpace_examples :
  TrimSpace "  a b  " = "a b" /\ TrimSpace "   " = "".
Proof. repeat split. Qed.

Example Sscanf_d_examples :
  Sscanf_d "12" = Some 12 /\ Sscanf_d "-12" = Some (-12) /\ Sscanf_d "+7x" = Some 7
  /\ Sscanf_d "x" = None /\ Sscanf_d "1_0" = None
  /\ Sscanf_d "9223372036854775808" = None.
Proof. repeat split. Qed.

Example FileMode_String_examples :
  FileMode_String (ModeDir + 493) = "drwxr-xr-x" /\ FileMode_String 420 = "-rw-r--r--".
Proof. repeat split. Qed.

Example float64_of_int_examples :
  float64_of_int 12345 = 12345
  /\ float64_of_int (2 ^ 53 + 1) = 2 ^ 53
  /\ float64_of_int (2 ^ 53 + 3) = 2 ^ 53 + 4.
Proof. repeat split. Qed.

Example format_f1_examples :
  format_f1 1280 1024 = "1.2" /\ format_f1 1126 1024 = "1.1"
  /\ format_f1 1048575 1024 = "1024.0".
Proof. repeat split. Qed.

(** The scenarios of the listing on the tree d. *)
Example Execute_default :
  Ls.Execute tree default_flags 1 ["d"] World0
  = Some (Done None, after 8 ["a.txt"; "b.txt"; "sub"] World0).
Proof. vm_compute. reflexivity. Qed.

Example Execute_all_reverse :
  Ls.Execute tree (with_Reverse true (with_AllFiles true default_flags)) 1 ["d"] World0
  = Some (Done None, after 8 ["sub"; "b.txt"; "a.txt"; ".hidden"] World0).
Proof. vm_compute. reflexivity. Qed.

Example Execute_recursive :
  Ls.Execute tree (with_Recursive true default_flags) 2 ["d"] World0
  = Some (Done None, after 14 ["a.txt"; "b.txt"; "sub"; ""; "d/sub:"; "f"] World0).
Proof. vm_compute. reflexivity. Qed.

Example Executor_default :
  Command.Executor tree default_flags 1 ["d"] World0
  = Some (Done None, after 0 ["a.txt"; "b.txt"; "sub"] World0).
Proof. vm_compute. reflexivity. Qed.

(** ** Strings *)

Lemma append_assoc (a b c : string) : (a +:+ b) +:+ c = a +:+ (b +:+ c).
Proof.
  induction a as [|x a IH]; [reflexivity|].
  change (String x ((a +:+ b) +:+ c) = String x (a +:+ (b +:+ c))).
  f_equal. exact IH.
Qed.

Lemma append_nil_r (a : string) : a +:+ "" = a.
Proof.
  induction a as [|x a IH]; [reflexivity|].
  change (String x (a +:+ "") = String x a). f_equal. exact IH.
Qed.

Lemma append_cons (x : ascii) (a b : string) : String x a +:+ b = String x (a +:+ b).
Proof. reflexivity. Qed.

Lemma las_app (a b : string) :
  list_ascii_of_string (a +:+ b) = list_ascii_of_string a ++ list_ascii_of_string b.
Proof.
  induction a as [|x a IH]; [reflexivity|].
  rewrite append_cons. cbn [list_ascii_of_string]. rewrite IH. reflexivity.
Qed.

Lemma sol_app (l1 l2 : list ascii) :
  string_of_list_ascii (l1 ++ l2) = string_of_list_ascii l1 +:+ string_of_list_ascii l2.
Proof.
  induction l1 as [|x l1 IH]; [reflexivity|].
  cbn [app string_of_list_ascii]. rewrite IH. reflexivity.
Qed.

Lemma rev_string_app (a b : string) :
  rev_string (a +:+ b) = rev_string b +:+ rev_string a.
Proof. unfold rev_string. rewrite las_app, rev_app_distr, sol_app. reflexivity. Qed.

Lemma rev_string_involutive (a : string) : rev_string (rev_string a) = a.
Proof.
  unfold rev_string.
  rewrite list_ascii_of_string_of_list_ascii, rev_involutive.
  apply string_of_list_ascii_of_string.
Qed.

Lemma rev_string_cons (x : ascii) (a : string) :
  rev_string (String x a) = rev_string a +:+ String x "".
Proof. change (String x a) with (String x "" +:+ a). apply rev_string_app. Qed.

(** ** Human-readable sizes *)

Lemma scale_loop_steps fuel : forall n d e,
  0 <= n -> Z.log2 n < Z.of_nat fuel ->
  exists j : nat,
    scale_loop fuel n d e = Some (Nat.iter j grow d, (e + j)%nat)
    /\ n < 1024 ^ (Z.of_nat j + 1)
    /\ (j = 0%nat \/ 1024 ^ Z.of_nat j <= n).
Proof.
  induction fuel as [|fuel IH]; intros n d e Hn Hlog.
  - pose proof (Z.log2_nonneg n). lia.
  - cbn [scale_loop]. unfold unit at 1.
    destruct (Z.leb_spec 1024 n) as [Hge|Hlt].
    + assert (Hq : Z.quot n unit = n / 1024)
        by (unfold unit; apply Z.quot_div_nonneg; lia).
      rewrite Hq.
      assert (Hn' : 0 <= n / 1024) by (apply Z.div_pos; lia).
      assert (Hlog' : Z.log2 (n / 1024) < Z.of_nat fuel).
      { change 1024 with (2 ^ 10). rewrite <- Z.shiftr_div_pow2 by lia.
        rewrite Z.log2_shiftr by lia. pose proof (Z.log2_nonneg n). rewrite Nat2Z.inj_succ in Hlog.
        pose proof (Z.log2_le_mono 1024 n Hge) as Hmono. change (Z.log2 1024) with 10 in Hmono. lia. }
      destruct (IH (n / 1024) (wrap64 (d * unit)) (S e) Hn' Hlog')
        as (j & Heq & Hup & Hlow).
      exists (S j). split; [|split].
      * rewrite Heq. f_equal. f_equal.
        -- rewrite Nat.iter_succ_r. reflexivity.
        -- lia.
      * replace (Z.of_nat (S j) + 1) with (Z.succ (Z.of_nat j + 1)) by lia.
        rewrite Z.pow_succ_r by lia.
        pose proof (Z.mul_succ_div_gt n 1024 ltac:(lia)). lia.
      * right. replace (Z.of_nat (S j)) with (Z.succ (Z.of_nat j)) by lia.
        rewrite Z.pow_succ_r by lia.
        pose proof (Z.mul_div_le n 1024 ltac:(lia)).
        destruct Hlow as [->|Hlow]; [simpl; lia|]. lia.
    + exists 0%nat. split; [|split].
      * simpl. f_equal. f_equal. lia.
      * simpl. lia.
      * left. reflexivity.
Qed.

Lemma scale_fuel_enough n : 0 <= n -> Z.log2 n < Z.of_nat (scale_fuel n).
Proof.
  intros Hn. unfold scale_fuel. pose proof (Z.log2_nonneg n).
  rewrite Nat2Z.inj_succ, Z2Nat.id by lia. lia.
Qed.

Ltac eval_pow :=
  repeat match goal with
    | |- context [1024 ^ ?e] =>
        let v := eval vm_compute in (1024 ^ e) in change (1024 ^ e) with v
    | H : context [1024 ^ ?e] |- _ =>
        let v := eval vm_compute in (1024 ^ e) in change (1024 ^ e) with v in H
    end.

Lemma scaled_index size :
  1024 <= size <= max_int64 ->
  exists j : nat,
    (j <= 5)%nat
    /\ scale_loop (scale_fuel (Z.quot size unit)) (Z.quot size unit) unit 0
       = Some (1024 ^ (Z.of_nat j + 1), j)
    /\ 1024 ^ (Z.of_nat j + 1) <= size < 1024 ^ (Z.of_nat j + 2).
Proof.
  intros [Hlo Hhi]. unfold max_int64 in Hhi.
  assert (Hq : Z.quot size unit = size / 1024)
    by (unfold unit; apply Z.quot_div_nonneg; lia).
  rewrite Hq.
  pose proof (Z.div_mod size 1024 ltac:(lia)) as Hdm.
  pose proof (Z.mod_pos_bound size 1024 ltac:(lia)) as Hmod.
  set (n := size / 1024) in *. clearbody n.
  assert (Hn : 0 <= n) by lia.
  destruct (scale_loop_steps _ n unit 0%nat Hn (scale_fuel_enough n Hn))
    as (j & Heq & Hup & Hlow).
  assert (Hj : (j <= 5)%nat).
  { destruct Hlow as [->|Hlow]; [lia|].
    destruct (Nat.le_gt_cases j 5) as [|Hgt]; [assumption|exfalso].
    pose proof (Z.pow_le_mono_r 1024 6 (Z.of_nat j) ltac:(lia) ltac:(lia)) as Hpow.
    change (1024 ^ 6) with 1152921504606846976 in Hpow. lia. }
  exists j. split; [assumption|].
  rewrite Heq.
  do 6 (destruct j as [|j];
        [split; [reflexivity|]; eval_pow;
         destruct Hlow as [Hlow|Hlow]; [try discriminate Hlow|]; lia|]).
  lia.
Qed.

Lemma format_digit_length d : 0 <= d <= 9 -> String.length (format_int d) = 1%nat.
Proof.
  intros H.
  assert (Hd : d = 0 \/ d = 1 \/ d = 2 \/ d = 3 \/ d = 4 \/ d = 5 \/ d = 6 \/ d = 7
               \/ d = 8 \/ d = 9) by lia.
  repeat (destruct Hd as [->|Hd]; [reflexivity|]). subst d. reflexivity.
Qed.

Lemma below_unit_A size :
  size < 1024 -> Ls.humanReadableSize size = Some (Done (format_int size +:+ "B")).
Proof.
  intros H. unfold Ls.humanReadableSize, unit.
  destruct (Z.ltb_spec size 1024); [reflexivity|lia].
Qed.

Lemma below_unit_B size :
  size < 1024 -> Command.formatHumanReadable size = Some (Done (format_int size +:+ "B")).
Proof.
  intros H. unfold Command.formatHumanReadable, unit.
  destruct (Z.ltb_spec size 1024); [reflexivity|lia].
Qed.

Lemma scaled_A size j :
  1024 <= size ->
  scale_loop (scale_fuel (Z.quot size unit)) (Z.quot size unit) unit 0
    = Some (1024 ^ (Z.of_nat j + 1), j) ->
  Ls.humanReadableSize size =
    match Ls.units !! j with
    | Some u => Some (Done (format_scaled size (1024 ^ (Z.of_nat j + 1)) u))
    | None => Some (Panic (index_out_of_range j 4))
    end.
Proof.
  intros H Heq. unfold Ls.humanReadableSize. unfold unit at 1.
  destruct (Z.ltb_spec size 1024); [lia|]. rewrite Heq. reflexivity.
Qed.

Lemma scaled_B size j :
  1024 <= size ->
  scale_loop (scale_fuel (Z.quot size unit)) (Z.quot size unit) unit 0
    = Some (1024 ^ (Z.of_nat j + 1), j) ->
  Command.formatHumanReadable size =
    match Command.units !! j with
    | Some u => Some (Done (format_scaled size (1024 ^ (Z.of_nat j + 1)) u))
    | None => Some (Panic (index_out_of_range j 6))
    end.
Proof.
  intros H Heq. unfold Command.formatHumanReadable. unfold unit at 1.
  destruct (Z.ltb_spec size 1024); [lia|]. rewrite Heq. reflexivity.
Qed.

(** Claim C7.  The formatter maps 0 to "0B", 1023 to "1023B", 1536 to
    "1.5K" and 1048576 to "1.0M".  Every size below 1024 renders as its
    decimal count followed by B.  Every int64 size from 1024 on renders,
    in the newer variant, as the number of tenths nearest to
    size / 1024^(k+1), printed with exactly one fractional digit, followed
    by the single letter of the unit with 1024^(k+1) <= size < 1024^(k+2);
    src/ls.go renders the same string for sizes below 1024^5. *)
Theorem human_readable_shape (size : Z) :
  in_int64 size ->
  (Ls.humanReadableSize 0 = Some (Done "0B")
   /\ Ls.humanReadableSize 1023 = Some (Done "1023B")
   /\ Ls.humanReadableSize 1536 = Some (Done "1.5K")
   /\ Ls.humanReadableSize 1048576 = Some (Done "1.0M")
   /\ Command.formatHumanReadable 0 = Some (Done "0B")
   /\ Command.formatHumanReadable 1023 = Some (Done "1023B")
   /\ Command.formatHumanReadable 1536 = Some (Done "1.5K")
   /\ Command.formatHumanReadable 1048576 = Some (Done "1.0M"))
  /\ (size < 1024 ->
      Ls.humanReadableSize size = Some (Done (format_int size +:+ "B"))
      /\ Command.formatHumanReadable size = Some (Done (format_int size +:+ "B")))
  /\ (1024 <= size ->
      exists (k : nat) (u : string),
        Command.units !! k = Some u
        /\ String.length u = 1%nat
        /\ 1024 ^ (Z.of_nat k + 1) <= size < 1024 ^ (Z.of_nat k + 2)
        /\ let m := tenths (float64_of_int size) (1024 ^ (Z.of_nat k + 1)) in
           let s := format_int (m / 10) +:+ "." +:+ format_int (m mod 10) +:+ u in
           String.length (format_int (m mod 10)) = 1%nat
           /\ Command.formatHumanReadable size = Some (Done s)
           /\ (size < 1024 ^ 5 -> Ls.humanReadableSize size = Some (Done s))).
Proof.
  intros [_ Hhi]. split; [|split].
  - repeat split; vm_compute; reflexivity.
  - intros H. split; [apply below_unit_A | apply below_unit_B]; assumption.
  - intros Hlo.
    destruct (scaled_index size (conj Hlo Hhi)) as (j & Hj & Heq & Hrange).
    assert (Hu : exists u, Command.units !! j = Some u /\ String.length u = 1%nat
                           /\ (size < 1024 ^ 5 -> Ls.units !! j = Some u)).
    { do 6 (destruct j as [|j];
            [eexists; split; [reflexivity|]; split; [reflexivity|];
             intros Hlt; try reflexivity; exfalso; eval_pow; lia|]).
      lia. }
    destruct Hu as (u & Hu & Hlen & HuA).
    exists j, u. split; [assumption|]. split; [assumption|]. split; [assumption|].
    cbv zeta. split; [|split].
    + apply format_digit_length.
      match goal with |- 0 <= ?a mod 10 <= 9 =>
        pose proof (Z.mod_pos_bound a 10 ltac:(lia)) end. lia.
    + rewrite (scaled_B size j Hlo Heq), Hu. unfold format_scaled, format_f1.
      rewrite !append_assoc. reflexivity.
    + intros Hlt. rewrite (scaled_A size j Hlo Heq), (HuA Hlt).
      unfold format_scaled, format_f1. rewrite !append_assoc. reflexivity.
Qed.

Lemma human_readable_shape_witness :
  in_int64 1536
  /\ Command.formatHumanReadable 1536 = Some (Done "1.5K").
Proof.
  split; [unfold in_int64, min_int64, max_int64; lia|].
  apply (human_readable_shape 1536). unfold in_int64, min_int64, max_int64; lia.
Defined.

(** Claim C9.  For every int64 size the formatter of the newer variant
    returns a string: the index stays within its six units.  The formatter
    of src/ls.go returns a string below 1024^5 only; from 1024^5 on its
    index is at least 4 and the lookup in its four units panics. *)
Theorem humanReadableSize_units_bound (size : Z) :
  in_int64 size ->
  (exists s, Command.formatHumanReadable size = Some (Done s))
  /\ (size < 1024 ^ 5 -> exists s, Ls.humanReadableSize size = Some (Done s))
  /\ (1024 ^ 5 <= size ->
      exists exp : nat, (4 <= exp)%nat
        /\ Ls.humanReadableSize size = Some (Panic (index_out_of_range exp 4))).
Proof.
  intros [_ Hhi].
  destruct (Z.lt_ge_cases size 1024) as [Hlt|Hge].
  - split; [|split].
    + eexists. apply below_unit_B. assumption.
    + intros _. eexists. apply below_unit_A. assumption.
    + intros H. exfalso. eval_pow. lia.
  - destruct (scaled_index size (conj Hge Hhi)) as (j & Hj & Heq & Hrange).
    rewrite (scaled_B size j Hge Heq), (scaled_A size j Hge Heq).
    split; [|split].
    + do 6 (destruct j as [|j]; [eexists; reflexivity|]). lia.
    + intros Hlt.
      do 4 (destruct j as [|j]; [eexists; reflexivity|]).
      exfalso. assert (1024 ^ 5 <= 1024 ^ (Z.of_nat (S (S (S (S j)))) + 1))
        by (apply Z.pow_le_mono_r; lia). lia.
    + intros H5. exists j. 
      do 4 (destruct j as [|j]; [exfalso; eval_pow; lia|]).
      split; [lia|]. reflexivity.
Qed.

Lemma humanReadableSize_units_bound_witness :
  in_int64 (1024 ^ 5)
  /\ exists exp : nat, (4 <= exp)%nat
       /\ Ls.humanReadableSize (1024 ^ 5) = Some (Panic (index_out_of_range exp 4)).
Proof.
  assert (H : in_int64 (1024 ^ 5)) by (unfold in_int64, min_int64, max_int64; lia).
  split; [exact H|].
  apply (humanReadableSize_units_bound (1024 ^ 5) H). lia.
Defined.

(** ** Paths *)

Lemma Split_go_slash_cons (c : ascii) (cur s : string) :
  Split_go "/" 0 cur (String c s)
  = if Ascii.eqb c slash then rev_string cur :: Split_go "/" 0 "" s
    else Split_go "/" 0 (String c cur) s.
Proof.
  cbn [Split_go String.prefix String.length Nat.sub].
  unfold slash. destruct (ascii_dec "/" c) as [<-|Hne].
  - destruct s; reflexivity.
  - destruct (Ascii.eqb_spec c "/") as [->|_]; [contradiction|reflexivity].
Qed.

Lemma Split_go_slash_free (n cur : string) :
  slash_free n = true ->
  Split_go "/" 0 cur n = [rev_string cur +:+ n].
Proof.
  revert cur. induction n as [|c n IH]; intros cur Hfree.
  - cbn [Split_go]. rewrite append_nil_r. reflexivity.
  - cbn [slash_free] in Hfree. apply andb_true_iff in Hfree as [Hc Hfree].
    rewrite Split_go_slash_cons. apply negb_true_iff in Hc. rewrite Hc.
    rewrite (IH _ Hfree), rev_string_cons, append_assoc. reflexivity.
Qed.

Lemma Split_go_last (a n cur : string) :
  slash_free n = true ->
  exists l, Split_go "/" 0 cur (a +:+ "/" +:+ n) = l ++ [n].
Proof.
  intros Hfree. revert cur. induction a as [|c a IH]; intros cur.
  - change ("" +:+ "/" +:+ n) with (String slash n).
    rewrite Split_go_slash_cons, Ascii.eqb_refl, (Split_go_slash_free n "" Hfree).
    exists [rev_string cur]. reflexivity.
  - rewrite append_cons, Split_go_slash_cons.
    destruct (Ascii.eqb c slash).
    + destruct (IH "") as [l Hl]. rewrite Hl. exists (rev_string cur :: l). reflexivity.
    + apply IH.
Qed.

(** Cleaning keeps a last element that is a name *)

Lemma clean_elems_last (rooted : bool) (n : string) (l stack : list string) :
  valid_name n ->
  exists pre, clean_elems rooted stack (l ++ [n]) = pre ++ [n].
Proof.
  intros (Hne & Hdot & Hdotdot & _). revert stack.
  induction l as [|c l IH]; intros stack.
  - cbn [app clean_elems].
    destruct (String.eqb_spec n ""); [contradiction|].
    destruct (String.eqb_spec n "."); [contradiction|].
    destruct (String.eqb_spec n ".."); [contradiction|].
    cbn [orb]. exists (rev stack). reflexivity.
  - cbn [app clean_elems].
    destruct (String.eqb c "" || String.eqb c "."); [apply IH|].
    destruct (String.eqb c "..").
    + destruct stack as [|top stack']; [destruct rooted; apply IH|].
      destruct (String.eqb top ".."); apply IH.
    + apply IH.
Qed.

Lemma join_with_snoc (sep : string) (l : list string) (n : string) :
  join_with sep (l ++ [n])
  = match l with [] => n | _ => join_with sep l +:+ sep +:+ n end.
Proof.
  destruct l as [|x l]; [reflexivity|].
  unfold join_with. cbn [app]. rewrite fold_left_app. reflexivity.
Qed.

(** The last element of a path that ends with a name *)

Lemma drop_slashes_name (n t : string) :
  n <> "" -> slash_free n = true ->
  drop_slashes (rev_string n +:+ t) = rev_string n +:+ t.
Proof.
  intros Hne Hfree.
  assert (Hlast : exists c m, rev_string n = String c m /\ Ascii.eqb c slash = false).
  { revert Hne Hfree. induction n as [|c n IH]; intros Hne Hfree; [contradiction|].
    cbn [slash_free] in Hfree. apply andb_true_iff in Hfree as [Hc Hfree].
    apply negb_true_iff in Hc. rewrite rev_string_cons.
    destruct n as [|c' n'].
    - exists c, "". split; [reflexivity|assumption].
    - destruct (IH ltac:(discriminate) Hfree) as (d & m & Hrev & Hd).
      rewrite Hrev. exists d, (m +:+ String c ""). split; [reflexivity|assumption]. }
  destruct Hlast as (c & m & -> & Hc).
  rewrite append_cons. cbn [drop_slashes]. rewrite Hc. reflexivity.
Qed.

Lemma slash_free_app (a b : string) :
  slash_free (a +:+ b) = slash_free a && slash_free b.
Proof.
  induction a as [|c a IH]; [reflexivity|].
  rewrite append_cons. cbn [slash_free]. rewrite IH, andb_assoc. reflexivity.
Qed.

Lemma slash_free_rev (n : string) : slash_free (rev_string n) = slash_free n.
Proof.
  induction n as [|c n IH]; [reflexivity|].
  rewrite rev_string_cons, slash_free_app, IH. cbn [slash_free].
  rewrite andb_true_r, andb_comm. reflexivity.
Qed.

Lemma take_elem_name (m t : string) :
  slash_free m = true -> (t = "" \/ exists t', t = String slash t') ->
  take_elem (m +:+ t) = m.
Proof.
  intros Hfree Ht. induction m as [|c m IH].
  - destruct Ht as [->|[t' ->]]; [reflexivity|].
    change ("" +:+ String slash t') with (String slash t').
    cbn [take_elem]. rewrite Ascii.eqb_refl. reflexivity.
  - cbn [slash_free] in Hfree. apply andb_true_iff in Hfree as [Hc Hfree].
    apply negb_true_iff in Hc. rewrite append_cons. cbn [take_elem].
    rewrite Hc, (IH Hfree). reflexivity.
Qed.

Lemma append_eq_nil (a b : string) : a +:+ b = "" -> a = "" /\ b = "".
Proof. destruct a; [intros H; split; [reflexivity|exact H] | discriminate]. Qed.

Lemma Base_name (y n : string) :
  valid_name n -> (y = "" \/ exists z, y = z +:+ "/") ->
  Base (y +:+ n) = n.
Proof.
  intros (Hne & _ & _ & Hfree) Hy. unfold Base.
  destruct (String.eqb_spec (y +:+ n) "") as [Heq|_].
  { apply append_eq_nil in Heq as [_ ->]. contradiction. }
  rewrite rev_string_app, (drop_slashes_name n _ Hne Hfree).
  destruct (String.eqb_spec (rev_string n +:+ rev_string y) "") as [Heq|_].
  { apply append_eq_nil in Heq as [Heq _].
    apply (f_equal rev_string) in Heq. rewrite rev_string_involutive in Heq.
    contradiction. }
  rewrite take_elem_name.
  - apply rev_string_involutive.
  - rewrite slash_free_rev. exact Hfree.
  - destruct Hy as [->|[z ->]]; [left; reflexivity|right].
    rewrite rev_string_app. exists (rev_string z). reflexivity.
Qed.

Lemma Clean_last (p n : string) (l : list string) :
  valid_name n -> Split p "/" = l ++ [n] ->
  exists y, Clean p = y +:+ n /\ (y = "" \/ exists z, y = z +:+ "/").
Proof.
  intros Hn Hsplit. unfold Clean. rewrite Hsplit.
  destruct (clean_elems_last (HasPrefix p "/") n l [] Hn) as [pre ->].
  rewrite join_with_snoc.
  set (root := if HasPrefix p "/" then "/" else "").
  assert (Hroot : root = "" \/ root = "/")
    by (subst root; destruct (HasPrefix p "/"); auto).
  set (y := match pre with
            | [] => root
            | _ => root +:+ join_with "/" pre +:+ "/"
            end).
  assert (Hout : root +:+ match pre with
                          | [] => n
                          | _ :: _ => join_with "/" pre +:+ "/" +:+ n
                          end = y +:+ n).
  { subst y. destruct pre; [reflexivity|]. rewrite !append_assoc. reflexivity. }
  rewrite Hout.
  destruct (String.eqb_spec (y +:+ n) "") as [Heq|_].
  { apply append_eq_nil in Heq as [_ ->]. destruct Hn as [Hn _]. contradiction. }
  exists y. split; [reflexivity|].
  subst y. destruct pre as [|x pre].
  - destruct Hroot as [->| ->]; [left; reflexivity|right; exists ""; reflexivity].
  - right. exists (root +:+ join_with "/" (x :: pre)). rewrite append_assoc. reflexivity.
Qed.

Lemma Base_Join (path n : string) : valid_name n -> Base (Join path n) = n.
Proof.
  intros Hn. pose proof Hn as (Hne & _ & _ & Hfree). unfold Join.
  destruct (String.eqb_spec path "") as [->|Hpath]; cbn [negb].
  - destruct (String.eqb_spec n ""); [contradiction|]. cbn [negb].
    destruct (Clean_last n n [] Hn) as (y & -> & Hy).
    { unfold Split. rewrite (Split_go_slash_free n "" Hfree). reflexivity. }
    apply Base_name; assumption.
  - destruct (Split_go_last path n "" Hfree) as [l Hl].
    destruct (Clean_last (path +:+ "/" +:+ n) n l Hn Hl) as (y & -> & Hy).
    apply Base_name; assumption.
Qed.

(** ** The model of sort.Slice *)

Section Sorting.
Context {A : Type} (less : A -> A -> outcome bool).

Lemma insert_left_total x rp :
  (forall y, y ∈ rp -> exists b, less x y = Done b) ->
  exists rp', insert_left less x rp = Done rp' /\ rp' ≡ₚ x :: rp.
Proof.
  induction rp as [|y rp IH]; intros Hless.
  - exists [x]. split; reflexivity.
  - cbn [insert_left]. destruct (Hless y ltac:(left)) as [b ->].
    cbn [mbind outcome_bind]. destruct b.
    + destruct IH as (rp' & -> & Hperm).
      { intros z Hz. apply Hless. right. exact Hz. }
      exists (y :: rp'). split; [reflexivity|].
      rewrite Hperm. apply Permutation_swap.
    + exists (x :: y :: rp). split; reflexivity.
Qed.

Lemma insertion_sort_total l : forall rp,
  (forall a b, a ∈ rp ++ l -> b ∈ rp ++ l -> exists v, less a b = Done v) ->
  exists l', insertion_sort less rp l = Done l' /\ l' ≡ₚ rp ++ l.
Proof.
  induction l as [|x l IH]; intros rp Hless.
  - exists (rev rp). split; [reflexivity|].
    rewrite app_nil_r. apply Permutation_sym, Permutation_rev.
  - cbn [insertion_sort].
    destruct (insert_left_total x rp) as (rp' & -> & Hperm).
    { intros y Hy. apply Hless; rewrite elem_of_app.
      - right. left.
      - left. exact Hy. }
    cbn [mbind outcome_bind].
    assert (Hin : forall a, a ∈ rp' ++ l -> a ∈ rp ++ x :: l).
    { intros a. rewrite !elem_of_app, Hperm, !elem_of_cons. tauto. }
    destruct (IH rp') as (l' & -> & Hperm').
    { intros a b Ha Hb. apply Hless; apply Hin; assumption. }
    exists l'. split; [reflexivity|].
    rewrite Hperm', Hperm. apply Permutation_middle.
Qed.

Lemma sort_Slice_total l :
  (forall a b, a ∈ l -> b ∈ l -> exists v, less a b = Done v) ->
  exists l', sort_Slice less l = Done l' /\ l' ≡ₚ l.
Proof. intros H. apply (insertion_sort_total l []). exact H. Qed.
End Sorting.

Section Sorted.
Context {A : Type} (less : A -> A -> outcome bool).

Lemma insert_left_perm x rp rp' :
  insert_left less x rp = Done rp' -> rp' ≡ₚ x :: rp.
Proof.
  revert rp'. induction rp as [|y rp IH]; intros rp' H.
  - injection H as <-. reflexivity.
  - cbn [insert_left] in H. destruct (less x y) as [[|]|]; cbn in H.
    + destruct (insert_left less x rp) as [rest|]; [|discriminate].
      injection H as <-. rewrite (IH rest eq_refl). apply Permutation_swap.
    + injection H as <-. reflexivity.
    + discriminate.
Qed.

Lemma insertion_sort_perm l : forall rp l',
  insertion_sort less rp l = Done l' -> l' ≡ₚ rp ++ l.
Proof.
  induction l as [|x l IH]; intros rp l' H.
  - injection H as <-. rewrite app_nil_r. apply Permutation_sym, Permutation_rev.
  - cbn [insertion_sort] in H.
    destruct (insert_left less x rp) as [rp1|] eqn:Hins; [|discriminate].
    cbn in H. rewrite (IH _ _ H), (insert_left_perm _ _ _ Hins).
    apply Permutation_middle.
Qed.

Lemma sort_Slice_perm l l' : sort_Slice less l = Done l' -> l' ≡ₚ l.
Proof. apply (insertion_sort_perm l []). Qed.
End Sorted.

(** ** The comparisons of the two sorters *)

Lemma ltb_compare a b : String.ltb a b = true <-> String.compare a b = Lt.
Proof. unfold String.ltb. destruct (String.compare a b); split; congruence. Qed.

Lemma ltb_irrefl a : String.ltb a a = false.
Proof.
  unfold String.ltb. pose proof (String.compare_antisym a a) as H.
  destruct (String.compare a a); simpl in H; congruence.
Qed.

Lemma ltb_leb a b : String.ltb a b = true -> String.leb a b = true.
Proof. unfold String.ltb, String.leb. destruct (String.compare a b); congruence. Qed.

Lemma ltb_asym a b : String.ltb a b = true -> String.ltb b a = false.
Proof.
  unfold String.ltb. rewrite (String.compare_antisym b a).
  destruct (String.compare a b); simpl; congruence.
Qed.

Lemma ltb_total a b : a <> b -> String.ltb a b = negb (String.ltb b a).
Proof.
  intros Hne. unfold String.ltb. rewrite (String.compare_antisym b a).
  destruct (String.compare a b) eqn:Hc; simpl; try reflexivity.
  apply String.compare_eq_iff in Hc. contradiction.
Qed.

Lemma ltb_trans a b c :
  String.ltb a b = true -> String.ltb b c = true -> String.ltb a c = true.
Proof.
  intros Hab Hbc.
  assert (Hle : String.le a c).
  { transitivity b; unfold String.le; apply Is_true_true; apply ltb_leb; assumption. }
  unfold String.le in Hle. apply Is_true_true in Hle.
  unfold String.ltb, String.leb in *.
  destruct (String.compare a c) eqn:Hc; try congruence.
  apply String.compare_eq_iff in Hc. subst c.
  rewrite (String.compare_antisym b a) in Hbc.
  destruct (String.compare a b); simpl in Hbc; congruence.
Qed.

Lemma key_ltb_trans k1 k2 k3 :
  key_ltb k1 k2 = true -> key_ltb k2 k3 = true -> key_ltb k1 k3 = true.
Proof.
  destruct k1, k2, k3; simpl; try congruence.
  - apply ltb_trans.
  - rewrite !Z.ltb_lt. lia.
Qed.

Lemma key_ltb_irrefl k : key_ltb k k = false.
Proof. destruct k; simpl; [apply ltb_irrefl | apply Z.ltb_irrefl]. Qed.

Lemma key_ltb_asym k1 k2 : key_ltb k1 k2 = true -> key_ltb k2 k1 = false.
Proof.
  destruct k1, k2; simpl; try congruence.
  - apply ltb_asym.
  - rewrite Z.ltb_lt, Z.ltb_ge. lia.
Qed.

#[global] Instance key_ltb_strict : StrictTotal key_ltb.
Proof.
  split.
  - apply key_ltb_irrefl.
  - apply key_ltb_trans.
  - intros [a|a] [b|b] Hkind Hne; simpl in *; try contradiction.
    + apply ltb_total. congruence.
    + destruct (Z.ltb_spec a b), (Z.ltb_spec b a); simpl; try reflexivity; try lia.
      exfalso. apply Hne. f_equal. lia.
Qed.

#[global] Instance key_before_strict : StrictTotal key_before.
Proof.
  split.
  - intros [a|a]; simpl; [apply ltb_irrefl | apply Z.ltb_irrefl].
  - intros [a|a] [b|b] [c|c]; simpl; try congruence.
    + apply ltb_trans.
    + rewrite !Z.ltb_lt. lia.
  - intros [a|a] [b|b] Hkind Hne; simpl in *; try contradiction.
    + apply ltb_total. congruence.
    + destruct (Z.ltb_spec a b), (Z.ltb_spec b a); simpl; try reflexivity; try lia.
      exfalso. apply Hne. f_equal. lia.
Qed.

Lemma sort_key_kind sortBy a b ka kb :
  sort_key sortBy a = Some ka -> sort_key sortBy b = Some kb -> same_kind ka kb.
Proof.
  unfold sort_key. intros Ha Hb.
  destruct (String.eqb sortBy "time"); [|destruct (String.eqb sortBy "size")];
    destruct (Info a), (Info b); simplify_eq; exact I.
Qed.

Lemma before_asym before `{!StrictTotal before} k1 k2 :
  before k1 k2 = true -> before k2 k1 = false.
Proof.
  intros H. destruct (before k2 k1) eqn:H'; [|reflexivity].
  pose proof (before_trans _ _ _ H H') as Habs.
  rewrite before_irrefl in Habs. discriminate.
Qed.

(** A comparison induced by a strict total order on keys, inverted or
    not, is a total order on the key. *)
Lemma induced_total_order sortBy before `{!StrictTotal before} (r : bool)
  (R : DirEntry -> DirEntry -> bool) :
  (forall a b ka kb, sort_key sortBy a = Some ka -> sort_key sortBy b = Some kb ->
     R a b = xorb r (before ka kb)) ->
  total_order_on_key sortBy R.
Proof.
  intros HR. split; [|split].
  - intros a b c [ka Ha] [kb Hb] [kc Hc].
    rewrite (HR _ _ _ _ Ha Hb), (HR _ _ _ _ Hb Hc), (HR _ _ _ _ Ha Hc).
    destruct r; rewrite ?xorb_true_l, ?xorb_false_l.
    + rewrite !negb_true_iff. intros Hab Hbc.
      destruct (before ka kc) eqn:Hac; [exfalso|reflexivity].
      destruct (decide (ka = kb)) as [->|Hne]; [congruence|].
      pose proof (sort_key_kind _ _ _ _ _ Ha Hb) as Hkind.
      rewrite (before_total _ _ Hkind Hne), negb_false_iff in Hab.
      pose proof (before_trans _ _ _ Hab Hac). congruence.
    + apply before_trans.
  - intros a b [ka Ha] [kb Hb] Hne.
    rewrite (HR _ _ _ _ Ha Hb), (HR _ _ _ _ Hb Ha).
    rewrite Ha, Hb in Hne.
    pose proof (sort_key_kind _ _ _ _ _ Ha Hb) as Hkind.
    rewrite (before_total ka kb Hkind ltac:(congruence)).
    destruct r, (before kb ka); reflexivity.
  - intros a b a' b' [ka Ha] [kb Hb] Haa Hbb.
    rewrite Ha in Haa. rewrite Hb in Hbb. symmetry in Haa, Hbb.
    rewrite (HR _ _ _ _ Ha Hb), (HR _ _ _ _ Haa Hbb). reflexivity.
Qed.

Lemma total_order_on_keyed l sortBy R :
  Forall (keyed sortBy) l -> total_order_on_key sortBy R -> total_order_on l sortBy R.
Proof.
  intros Hl (Htrans & Htot & Hresp). rewrite Forall_forall in Hl.
  split; [|split].
  - intros a b c Ha Hb Hc. apply Htrans; apply Hl; assumption.
  - intros a b Ha Hb. apply Htot; apply Hl; assumption.
  - intros a b a' b' Ha Hb _ _. apply Hresp; apply Hl; assumption.
Qed.

Lemma less_B_keyed flags a b ka kb :
  sort_key (SortBy flags) a = Some ka -> sort_key (SortBy flags) b = Some kb ->
  Command.less flags a b = xorb (Reverse flags) (key_before ka kb).
Proof.
  unfold sort_key, Command.less. intros Ha Hb.
  destruct (String.eqb (SortBy flags) "time");
    [|destruct (String.eqb (SortBy flags) "size")];
    destruct (Info a), (Info b); simplify_eq; simpl;
    destruct (Reverse flags); reflexivity.
Qed.

Lemma less_A_keyed flags a b ka kb :
  sort_key (SortBy flags) a = Some ka -> sort_key (SortBy flags) b = Some kb ->
  Ls.less flags a b = Done (xorb (Reverse flags) (key_ltb ka kb)).
Proof.
  unfold sort_key, Ls.less, SortByTime, SortBySize. intros Ha Hb.
  destruct (String.eqb (SortBy flags) "time");
    [|destruct (String.eqb (SortBy flags) "size")];
    destruct (Info a), (Info b); simplify_eq; simpl;
    destruct (Reverse flags); reflexivity.
Qed.

Lemma less_B_reverse flags a b :
  Command.less (with_Reverse true flags) a b
  = negb (Command.less (with_Reverse false flags) a b).
Proof. reflexivity. Qed.

Lemma less_A_reverse flags a b :
  Ls.less (with_Reverse true flags) a b
  = invert (Ls.less (with_Reverse false flags)) a b.
Proof.
  unfold invert, Ls.less. simpl.
  destruct (String.eqb (SortBy flags) SortByTime);
    [|destruct (String.eqb (SortBy flags) SortBySize)];
    destruct (deref (Info a)), (deref (Info b)); reflexivity.
Qed.

Lemma insert_left_ext {A} (less1 less2 : A -> A -> outcome bool) x rp :
  (forall a b, less1 a b = less2 a b) ->
  insert_left less1 x rp = insert_left less2 x rp.
Proof.
  intros Hext. induction rp as [|y rp IH]; [reflexivity|].
  cbn [insert_left]. rewrite Hext, IH. reflexivity.
Qed.

Lemma sort_Slice_ext {A} (less1 less2 : A -> A -> outcome bool) l :
  (forall a b, less1 a b = less2 a b) ->
  sort_Slice less1 l = sort_Slice less2 l.
Proof.
  intros Hext. unfold sort_Slice. generalize (@nil A) as rp.
  induction l as [|x l IH]; intros rp; [reflexivity|].
  cbn [insertion_sort]. rewrite (insert_left_ext less1 less2 x rp Hext).
  destruct (insert_left less2 x rp); [apply IH | reflexivity].
Qed.

Lemma invert_invert {A} (less : A -> A -> outcome bool) a b :
  invert (invert less) a b = less a b.
Proof. unfold invert. destruct (less a b) as [x|]; [destruct x|]; reflexivity. Qed.

(** Claim C8, amended.  On every list of entries that have the chosen key
    (always, for the name; when the metadata can be retrieved, for the
    time and the size) the comparison of either sorter is a total order
    respecting the key, and that of src/ls.go does not panic.  For all
    entries the [Reverse] flag inverts the result of the comparison and
    nothing else, so that a sort whose comparison is inverted twice is the
    sort without [Reverse]. *)
Theorem sort_total_order (flags : Flags) (l : list DirEntry) :
  Forall (keyed (SortBy flags)) l ->
  total_order_on l (SortBy flags) (Command.less flags)
  /\ (forall a b, a ∈ l -> b ∈ l -> exists x, Ls.less flags a b = Done x)
  /\ total_order_on l (SortBy flags) (fun a b => value_or false (Ls.less flags a b))
  /\ (forall a b : DirEntry,
        Command.less (with_Reverse true flags) a b
        = negb (Command.less (with_Reverse false flags) a b)
        /\ Ls.less (with_Reverse true flags) a b
           = invert (Ls.less (with_Reverse false flags)) a b)
  /\ sort_Slice (invert (invert (Ls.less (with_Reverse false flags)))) l
     = sort_Slice (Ls.less (with_Reverse false flags)) l
  /\ sort_Slice (fun a b => Done (negb (negb (Command.less (with_Reverse false flags) a b)))) l
     = Command.sortEntries (with_Reverse false flags) l.
Proof.
  intros Hl.
  assert (HA : forall a b ka kb,
             sort_key (SortBy flags) a = Some ka -> sort_key (SortBy flags) b = Some kb ->
             value_or false (Ls.less flags a b) = xorb (Reverse flags) (key_ltb ka kb)).
  { intros a b ka kb Ha Hb. rewrite (less_A_keyed flags a b ka kb Ha Hb). reflexivity. }
  split; [|split; [|split; [|split; [|split]]]].
  - apply (total_order_on_keyed l _ _ Hl).
    apply (induced_total_order _ key_before (Reverse flags)).
    intros; apply less_B_keyed; assumption.
  - intros a b Ha Hb. rewrite Forall_forall in Hl.
    destruct (Hl a Ha) as [ka Hka], (Hl b Hb) as [kb Hkb].
    eexists. apply (less_A_keyed flags a b ka kb Hka Hkb).
  - apply (total_order_on_keyed l _ _ Hl).
    apply (induced_total_order _ key_ltb (Reverse flags)). exact HA.
  - intros a b. split; [apply less_B_reverse | apply less_A_reverse].
  - apply sort_Slice_ext. apply invert_invert.
  - apply sort_Slice_ext. intros a b. rewrite negb_involutive. reflexivity.
Qed.

(** With the time as key, the newer variant compares m, whose metadata
    cannot be retrieved, by name, and n with b by time: m comes before n,
    n before b, and m not before b. *)
Lemma less_not_total_order :
  ~ total_order_on mixed_entries "time" (Command.less (with_SortBy "time" default_flags)).
Proof.
  intros (Htrans & _).
  specialize (Htrans (vanished_entry "v" "m") (file_entry "n" 0 2) (file_entry "b" 0 1)).
  assert (Hab : Command.less (with_SortBy "time" default_flags)
                  (vanished_entry "v" "m") (file_entry "n" 0 2) = true) by reflexivity.
  assert (Hbc : Command.less (with_SortBy "time" default_flags)
                  (file_entry "n" 0 2) (file_entry "b" 0 1) = true) by reflexivity.
  assert (Hac : Command.less (with_SortBy "time" default_flags)
                  (vanished_entry "v" "m") (file_entry "b" 0 1) = false) by reflexivity.
  rewrite Htrans in Hac; [discriminate| | | |exact Hab|exact Hbc];
    unfold mixed_entries; apply list_elem_of_In; simpl; auto.
Qed.

Lemma sort_total_order_witness :
  let flags := with_SortBy "time" default_flags in
  let l := [file_entry "n" 0 2; file_entry "b" 0 1] in
  Forall (keyed (SortBy flags)) l
  /\ total_order_on l (SortBy flags) (Command.less flags).
Proof.
  intros flags l.
  assert (H : Forall (keyed (SortBy flags)) l).
  { repeat constructor; eexists; reflexivity. }
  split; [exact H|]. apply (sort_total_order flags l H).
Defined.

Lemma sort_pair {A} (less : A -> A -> outcome bool) (x y : A) (b : bool) :
  less y x = Done b ->
  sort_Slice less [x; y] = Done (if b then [y; x] else [x; y]).
Proof.
  intros H. unfold sort_Slice. cbn [insertion_sort insert_left mbind outcome_bind].
  rewrite H. destruct b; reflexivity.
Qed.

(** Claim C4.  With [Reverse] unset and the time or the size as key, for
    two entries with distinct keys the comparison of src/ls.go holds
    exactly when the first key is the smaller one, that of the newer
    variant exactly when it is the larger one: each is the negation of the
    other.  The sorter of src/ls.go puts the pair in ascending order, the
    sorter of the newer variant in the reverse of it. *)
Theorem sort_directions_opposite (env : Env) (flags : Flags) (w : World)
  (e1 e2 : DirEntry) (i1 i2 : FileInfo) (key : FileInfo -> Z) :
  (SortBy flags = "time" /\ key = ModTime) \/ (SortBy flags = "size" /\ key = Size) ->
  Reverse flags = false ->
  Info e1 = Ok i1 -> Info e2 = Ok i2 ->
  key i1 <> key i2 ->
  ctx_err env (polls w) = None ->
  let ascending := if key i1 <? key i2 then [e1; e2] else [e2; e1] in
  Ls.less flags e1 e2 = Done (key i1 <? key i2)
  /\ Command.less flags e1 e2 = (key i2 <? key i1)
  /\ Ls.less flags e1 e2 = Done (negb (Command.less flags e1 e2))
  /\ Ls.sortEntries env flags [e1; e2] w = Some (Done ascending, tick w)
  /\ Command.sortEntries flags [e1; e2] = Done (rev ascending).
Proof.
  intros Hkey Hrev H1 H2 Hne Hctx ascending.
  assert (HA : forall a b ia ib, Info a = Ok ia -> Info b = Ok ib ->
                 Ls.less flags a b = Done (key ia <? key ib)).
  { intros a b ia ib Ha Hb. unfold Ls.less, SortByTime, SortBySize.
    rewrite Ha, Hb, Hrev.
    destruct Hkey as [[-> ->]|[-> ->]]; reflexivity. }
  assert (HB : forall a b ia ib, Info a = Ok ia -> Info b = Ok ib ->
                 Command.less flags a b = (key ib <? key ia)).
  { intros a b ia ib Ha Hb. unfold Command.less.
    rewrite Ha, Hb, Hrev.
    destruct Hkey as [[-> ->]|[-> ->]]; reflexivity. }
  assert (Hflip : (key i2 <? key i1) = negb (key i1 <? key i2)).
  { destruct (Z.ltb_spec (key i2) (key i1)), (Z.ltb_spec (key i1) (key i2));
      simpl; try reflexivity; lia. }
  split; [|split; [|split; [|split]]].
  - apply HA; assumption.
  - apply HB; assumption.
  - rewrite (HA _ _ _ _ H1 H2), (HB _ _ _ _ H1 H2), Hflip, negb_involutive.
    reflexivity.
  - unfold Ls.sortEntries, CheckContextCancellation.
    unfold mbind, M_bind. rewrite Hctx. unfold lift.
    rewrite (sort_pair _ e1 e2 _ (HA _ _ _ _ H2 H1)).
    subst ascending. rewrite Hflip. destruct (key i1 <? key i2); reflexivity.
  - unfold Command.sortEntries.
    rewrite (sort_pair _ e1 e2 (Command.less flags e2 e1) eq_refl).
    rewrite (HB _ _ _ _ H2 H1). subst ascending.
    destruct (key i1 <? key i2); reflexivity.
Qed.

Lemma sort_directions_opposite_witness :
  let flags := with_SortBy "size" default_flags in
  let small := file_entry "b.txt" 20 30 in
  let large := file_entry "a.txt" 30 20 in
  Ls.sortEntries tree flags [large; small] World0 = Some (Done [small; large], tick World0)
  /\ Command.sortEntries flags [large; small] = Done [large; small].
Proof.
  intros flags small large.
  pose proof (sort_directions_opposite tree flags World0 large small
                (file_info 30 20) (file_info 20 30) Size
                (or_intror (conj eq_refl eq_refl)) eq_refl eq_refl eq_refl
                ltac:(simpl; lia) eq_refl) as H.
  split; [apply H | apply H].
Defined.

(** Claim C3.  When the sort key is the time or the size and the metadata
    of one of the two entries compared cannot be retrieved, the comparison
    of the newer variant is the comparison of the two names (inverted
    under [Reverse]), and its sort returns a permutation of every list.
    The comparison of src/ls.go calls a method of the nil info instead and
    panics, and so does its sort of the two entries. *)
Theorem sort_metadata_failure (env : Env) (flags : Flags) (w : World) (e1 e2 : DirEntry) :
  SortBy flags = "time" \/ SortBy flags = "size" ->
  (exists err, Info e1 = Err err) \/ (exists err, Info e2 = Err err) ->
  ctx_err env (polls w) = None ->
  Command.less flags e1 e2 = xorb (Reverse flags) (String.ltb (Name e1) (Name e2))
  /\ (forall l, exists sorted, Command.sortEntries flags l = Done sorted /\ sorted ≡ₚ l)
  /\ Ls.less flags e1 e2 = Panic nil_dereference
  /\ Ls.sortEntries env flags [e2; e1] w = Some (Panic nil_dereference, tick w).
Proof.
  intros Hby Herr Hctx.
  assert (HA : Ls.less flags e1 e2 = Panic nil_dereference).
  { unfold Ls.less, SortByTime, SortBySize.
    destruct Hby as [-> | ->], Herr as [[err ->]|[err ->]], (Info e1), (Info e2);
      reflexivity. }
  split; [|split; [|split]].
  - unfold Command.less.
    destruct Hby as [-> | ->], Herr as [[err ->]|[err ->]], (Info e1), (Info e2),
      (Reverse flags); reflexivity.
  - intros l. apply sort_Slice_total. intros a b _ _. eexists. reflexivity.
  - exact HA.
  - unfold Ls.sortEntries, CheckContextCancellation.
    unfold mbind, M_bind. rewrite Hctx. unfold lift, sort_Slice.
    cbn [insertion_sort insert_left mbind outcome_bind].
    rewrite HA. reflexivity.
Qed.

Lemma sort_metadata_failure_witness :
  Ls.sortEntries vanishing (with_SortBy "time" default_flags)
    [file_entry "b" 7 50; vanished_entry "v" "a"] World0
  = Some (Panic nil_dereference, tick World0).
Proof.
  apply (sort_metadata_failure vanishing (with_SortBy "time" default_flags) World0
           (vanished_entry "v" "a") (file_entry "b" 7 50)).
  - left. reflexivity.
  - left. eexists. reflexivity.
  - reflexivity.
Defined.

Example Execute_panics_on_vanished_entry :
  Ls.Execute vanishing (with_SortBy "time" default_flags) 1 ["v"] World0
  = Some (Panic nil_dereference, {| stdout := []; stderr := []; polls := 6 |}).
Proof. vm_compute. reflexivity. Qed.

(** ** Listing one directory *)

Lemma after_after n1 out1 n2 out2 w :
  after n2 out2 (after n1 out1 w) = after (n1 + n2) (out1 ++ out2) w.
Proof. unfold after. cbn. f_equal; [apply eq_sym, app_assoc | lia]. Qed.

Lemma after_0 w : after 0 [] w = w.
Proof. destruct w. unfold after. cbn. rewrite app_nil_r, Nat.add_0_r. reflexivity. Qed.

Lemma less_A_total flags (l : list DirEntry) :
  Forall has_info l ->
  forall a b, a ∈ l -> b ∈ l -> exists v, Ls.less flags a b = Done v.
Proof.
  intros Hl a b Ha Hb. rewrite Forall_forall in Hl.
  destruct (Hl a Ha) as [ia Hia], (Hl b Hb) as [ib Hib].
  unfold Ls.less. rewrite Hia, Hib. cbn [deref mbind outcome_bind].
  destruct (String.eqb _ _); [|destruct (String.eqb _ _)]; eexists; reflexivity.
Qed.

Section NeverDone.
Variable env : Env.
Variable flags : Flags.
Hypothesis never : forall k, ctx_err env k = None.

Lemma poll_never w :
  CheckContextCancellation env w = Some (Done None, after 1 [] w).
Proof.
  unfold CheckContextCancellation, after. rewrite never.
  rewrite app_nil_r, Nat.add_1_r. reflexivity.
Qed.

Lemma poll_every_never period i w :
  exists n, poll_every env period i w = Some (Done None, after n [] w).
Proof.
  unfold poll_every. destruct (_ =? _)%nat.
  - exists 1%nat. apply poll_never.
  - exists 0%nat. rewrite after_0. reflexivity.
Qed.

Lemma filterEntries_never entries : forall i items w,
  exists n, Ls.filterEntries env flags i entries items w
            = Some (Done (Ok (items ++ List.filter (visible flags) entries)), after n [] w).
Proof.
  induction entries as [|entry rest IH]; intros i items w.
  - exists 0%nat. cbn. rewrite after_0, app_nil_r. reflexivity.
  - cbn [Ls.filterEntries]. unfold mbind at 1, M_bind.
    destruct (poll_every_never 1000 i w) as [n1 ->].
    cbn [List.filter]. unfold visible at 1.
    destruct (negb (AllFiles flags) && HasPrefix (Name entry) ".").
    + destruct (IH (S i) items (after n1 [] w)) as [n2 ->].
      exists (n1 + n2)%nat. rewrite after_after. reflexivity.
    + destruct (IH (S i) (items ++ [entry]) (after n1 [] w)) as [n2 ->].
      exists (n1 + n2)%nat. rewrite after_after, <- app_assoc. reflexivity.
Qed.

Lemma sortEntries_never items w :
  Forall has_info items ->
  exists sorted, Ls.sortEntries env flags items w = Some (Done sorted, after 1 [] w)
                 /\ sorted ≡ₚ items.
Proof.
  intros Hinfo. unfold Ls.sortEntries, mbind, M_bind. rewrite poll_never.
  destruct (sort_Slice_total (Ls.less flags) items (less_A_total flags items Hinfo))
    as (sorted & Hsort & Hperm).
  exists sorted. unfold lift. rewrite Hsort. split; [reflexivity|exact Hperm].
Qed.

Lemma printFile_short path info w :
  LongFormat flags = false ->
  Ls.printFile env flags path info w = Some (Done (), after 0 [Base path] w).
Proof.
  intros Hshort. unfold Ls.printFile. rewrite Hshort.
  unfold Fprintln_stdout, after. rewrite Nat.add_0_r. reflexivity.
Qed.

Lemma printEntries_never rec path items : forall i w,
  LongFormat flags = false -> Recursive flags = false ->
  Forall (fun e => valid_name (Name e) /\ has_info e) items ->
  exists n, Ls.printEntries env flags rec path i items w
            = Some (Done None, after n (map Name items) w).
Proof.
  intros i w Hshort Hflat Hitems. revert i w.
  induction Hitems as [|entry rest [Hname [info Hinfo]] _ IH]; intros i w.
  - exists 0%nat. cbn. rewrite after_0. reflexivity.
  - cbn [Ls.printEntries]. unfold mbind at 1, M_bind.
    destruct (poll_every_never 100 i w) as [n1 ->].
    rewrite Hinfo, Hflat. cbn [andb].
    unfold mbind at 1, M_bind. rewrite (printFile_short _ _ _ Hshort).
    unfold mbind at 1, M_bind. unfold mret at 1, M_ret.
    destruct (IH (S i) (after 0 [Base (Join path (Name entry))] (after n1 [] w)))
      as [n2 ->].
    exists (n1 + n2)%nat. rewrite !after_after, (Base_Join _ _ Hname).
    reflexivity.
Qed.

Lemma listPath_never fuel path info entries w :
  LongFormat flags = false -> Recursive flags = false ->
  Stat env path = Ok info -> FileInfo_IsDir info = true ->
  ReadDir env path = (entries, None) ->
  Forall (fun e => valid_name (Name e) /\ has_info e) entries ->
  exists n lines,
    Ls.listPath env flags (S fuel) path w = Some (Done None, after n lines w)
    /\ lines ≡ₚ map Name (List.filter (visible flags) entries).
Proof.
  intros Hshort Hflat Hstat Hdir Hread Hentries.
  cbn [Ls.listPath]. unfold mbind at 1, M_bind. rewrite poll_never.
  rewrite Hstat, Hdir, Hread. cbn [negb].
  unfold mbind at 1, M_bind. rewrite poll_never.
  unfold mbind at 1, M_bind.
  destruct (filterEntries_never entries 0 [] (after 1 [] (after 1 [] w))) as [n1 ->].
  cbn [app].
  assert (Hkept : Forall (fun e => valid_name (Name e) /\ has_info e)
                    (List.filter (visible flags) entries)).
  { apply Forall_forall. intros e He. apply list_elem_of_In, filter_In in He as [He _].
    rewrite Forall_forall in Hentries. apply Hentries, list_elem_of_In. exact He. }
  unfold mbind at 1, M_bind.
  destruct (sortEntries_never (List.filter (visible flags) entries)
              (after n1 [] (after 1 [] (after 1 [] w))))
    as (sorted & -> & Hperm).
  { eapply Forall_impl; [exact Hkept|]. intros e [_ He]. exact He. }
  unfold mbind at 1, M_bind. rewrite poll_never.
  destruct (printEntries_never (Ls.listPath env flags fuel) path sorted 0
              (after 1 [] (after 1 [] (after n1 [] (after 1 [] (after 1 [] w)))))
              Hshort Hflat) as [n2 ->].
  { rewrite Hperm. exact Hkept. }
  rewrite !after_after. cbn [app].
  eexists _, _. split; [reflexivity|]. rewrite Hperm. reflexivity.
Qed.
End NeverDone.

Section Newer.
Variable env : Env.
Variable flags : Flags.

Lemma less_B_total (a b : DirEntry) :
  exists v, (fun e1 e2 => Done (Command.less flags e1 e2)) a b = Done v.
Proof. eexists. reflexivity. Qed.

Lemma sortEntries_B_total (entries : list DirEntry) :
  exists sorted, Command.sortEntries flags entries = Done sorted /\ sorted ≡ₚ entries.
Proof.
  apply sort_Slice_total. intros a b _ _. apply less_B_total.
Qed.

Lemma printEntries_B dirPath filtered : forall w,
  LongFormat flags = false ->
  Forall (fun e => valid_name (Name e) /\ has_info e) filtered ->
  Command.printEntries env flags dirPath filtered w
  = Some (Done (), after 0 (map Name filtered) w).
Proof.
  intros w Hshort Hitems. revert w.
  induction Hitems as [|entry rest [Hname [info Hinfo]] _ IH]; intros w.
  - cbn. rewrite after_0. reflexivity.
  - cbn [Command.printEntries]. rewrite Hinfo.
    unfold Command.formatEntry. rewrite Hshort.
    unfold mbind, M_bind, mret, M_ret, Fprintln_stdout.
    rewrite IH, (Base_Join _ _ Hname). unfold after. cbn.
    rewrite <- app_assoc. reflexivity.
Qed.

Lemma listSingle_short dirPath entries w :
  LongFormat flags = false ->
  ReadDir env dirPath = (entries, None) ->
  Forall (fun e => valid_name (Name e) /\ has_info e) entries ->
  exists lines,
    Command.listSingle env flags dirPath w = Some (Done None, after 0 lines w)
    /\ lines ≡ₚ map Name (List.filter (visible flags) entries).
Proof.
  intros Hshort Hread Hentries. unfold Command.listSingle. rewrite Hread.
  change (Command.filterEntries flags entries) with (List.filter (visible flags) entries).
  destruct (sortEntries_B_total (List.filter (visible flags) entries))
    as (sorted & Hsort & Hperm).
  rewrite Hsort. unfold lift, mbind, M_bind.
  rewrite printEntries_B; [|exact Hshort|].
  - exists (map Name sorted). split; [reflexivity|]. rewrite Hperm. reflexivity.
  - rewrite Hperm. apply Forall_forall. intros e He.
    apply list_elem_of_In, filter_In in He as [He _].
    rewrite Forall_forall in Hentries. apply Hentries, list_elem_of_In. exact He.
Qed.
End Newer.

Lemma visible_names flags entries (lines : list string) :
  lines ≡ₚ map Name (List.filter (visible flags) entries) ->
  list_to_set lines = expected_names flags entries.
Proof.
  intros Hperm. apply set_eq. intros x.
  rewrite elem_of_list_to_set, Hperm, list_elem_of_In, in_map_iff.
  unfold expected_names, names, visible.
  destruct (AllFiles flags); cbn [negb andb].
  - rewrite elem_of_list_to_set, list_elem_of_In, in_map_iff.
    split; intros (e & Hx & He); exists e; (split; [exact Hx|]).
    + apply filter_In in He as [He _]. exact He.
    + apply filter_In. split; [exact He|reflexivity].
  - rewrite elem_of_difference, !elem_of_list_to_set, !list_elem_of_In, !in_map_iff.
    split.
    + intros (e & Hx & He). apply filter_In in He as [He Hvis]. split.
      * exists e. split; assumption.
      * intros (e' & Hx' & He'). apply filter_In in He' as [_ Hhid].
        unfold hidden_name in Hhid. rewrite Hx', <- Hx in Hhid.
        rewrite Hhid in Hvis. discriminate.
    + intros [(e & Hx & He) Hnot]. exists e. split; [exact Hx|].
      apply filter_In. split; [exact He|].
      destruct (HasPrefix (Name e) ".") eqn:Hhid; [exfalso|reflexivity].
      apply Hnot. exists e. split; [exact Hx|].
      apply filter_In. split; [exact He|exact Hhid].
Qed.

(** Claim C6, amended.  For a directory listed alone (without [Recursive])
    in short form, whose children all have their metadata retrievable,
    with a context that is never done: the set of the lines either variant
    writes to stdout is the set of the children's names, without the names
    beginning with a dot unless [AllFiles] is set.  The sort is the model
    of [sort.Slice] above; only that it permutes the entries matters. *)
Theorem short_listing_names (env : Env) (flags : Flags) (fuel : nat) (path : string)
  (info : FileInfo) (entries : list DirEntry) (w : World) :
  LongFormat flags = false -> Recursive flags = false ->
  Stat env path = Ok info -> FileInfo_IsDir info = true ->
  ReadDir env path = (entries, None) ->
  Forall (fun e => valid_name (Name e) /\ has_info e) entries ->
  (forall k, ctx_err env k = None) ->
  (exists n lines,
      Ls.listPath env flags (S fuel) path w = Some (Done None, after n lines w)
      /\ list_to_set lines = expected_names flags entries)
  /\ (exists lines,
        Command.listSingle env flags path w = Some (Done None, after 0 lines w)
        /\ list_to_set lines = expected_names flags entries).
Proof.
  intros Hshort Hflat Hstat Hdir Hread Hentries Hnever. split.
  - destruct (listPath_never env flags Hnever fuel path info entries w
                Hshort Hflat Hstat Hdir Hread Hentries) as (n & lines & Hrun & Hperm).
    exists n, lines. split; [exact Hrun|]. apply visible_names. exact Hperm.
  - destruct (listSingle_short env flags path entries w Hshort Hread Hentries)
      as (lines & Hrun & Hperm).
    exists lines. split; [exact Hrun|]. apply visible_names. exact Hperm.
Qed.

Lemma tree_names_valid :
  Forall (fun e => valid_name (Name e) /\ has_info e)
    [file_entry ".hidden" 1 10; file_entry "a.txt" 30 20;
     file_entry "b.txt" 20 30; dir_entry "sub"].
Proof.
  repeat constructor; try discriminate; eexists; reflexivity.
Defined.

Lemma short_listing_names_witness :
  exists lines,
    Command.listSingle tree default_flags "d" World0 = Some (Done None, after 0 lines World0)
    /\ list_to_set lines = expected_names default_flags
         [file_entry ".hidden" 1 10; file_entry "a.txt" 30 20;
          file_entry "b.txt" 20 30; dir_entry "sub"].
Proof.
  apply (short_listing_names tree default_flags 0 "d" dir_info _ World0
           eq_refl eq_refl eq_refl eq_refl eq_refl tree_names_valid (fun _ => eq_refl)).
Defined.

(** With [Recursive], src/ls.go also emits f, which is not a child of d;
    and an entry whose metadata cannot be retrieved is a child of v that
    is not emitted. *)
Lemma listing_names_counterexample :
  (exists w', Ls.listPath tree (with_Recursive true default_flags) 2 "d" World0
              = Some (Done None, w')
     /\ ("f" ∈ lines_of w')
     /\ "f" ∉ expected_names (with_Recursive true default_flags)
                [file_entry ".hidden" 1 10; file_entry "a.txt" 30 20;
                 file_entry "b.txt" 20 30; dir_entry "sub"])
  /\ (exists w', Command.listSingle vanishing default_flags "v" World0
                 = Some (Done None, w')
        /\ ("a" ∉ lines_of w')
        /\ "a" ∈ expected_names default_flags
                   [vanished_entry "v" "a"; file_entry "b" 7 50]).
Proof.
  split.
  - eexists. split; [vm_compute; reflexivity|].
    split; apply (bool_decide_unpack _); vm_compute; exact I.
  - eexists. split; [vm_compute; reflexivity|].
    split; apply (bool_decide_unpack _); vm_compute; exact I.
Qed.

(** ** Output only grows *)

Lemma appends_ret {A} (a : A) : appends (mret a).
Proof. intros w r w' H. injection H as _ <-. exists []. rewrite app_nil_r. reflexivity. Qed.

Lemma appends_bind {A B} (m : M A) (k : A -> M B) :
  appends m -> (forall a, appends (k a)) -> appends (m ≫= k).
Proof.
  intros Hm Hk w r w' H. unfold mbind, M_bind in H.
  destruct (m w) as [[[a|msg] w1]|] eqn:Hmw; [| |discriminate].
  - destruct (Hm _ _ _ Hmw) as [out1 H1], (Hk a _ _ _ H) as [out2 H2].
    exists (out1 ++ out2). rewrite H2, H1, app_assoc. reflexivity.
  - injection H as _ <-. exact (Hm _ _ _ Hmw).
Qed.

Lemma appends_stdout line : appends (Fprintln_stdout line).
Proof. intros w r w' H. injection H as _ <-. exists [line]. reflexivity. Qed.

Lemma appends_stderr line : appends (Fprintln_stderr line).
Proof. intros w r w' H. injection H as _ <-. exists []. cbn. rewrite app_nil_r. reflexivity. Qed.

Lemma appends_poll env : appends (CheckContextCancellation env).
Proof. intros w r w' H. injection H as _ <-. exists []. cbn. rewrite app_nil_r. reflexivity. Qed.

Lemma appends_lift {A} (o : outcome A) : appends (lift o).
Proof. intros w r w' H. injection H as _ <-. exists []. rewrite app_nil_r. reflexivity. Qed.

Lemma appends_lift_fuel {A} (o : option (outcome A)) : appends (lift_fuel o).
Proof.
  intros w r w' H. unfold lift_fuel in H. destruct o; [|discriminate].
  injection H as _ <-. exists []. rewrite app_nil_r. reflexivity.
Qed.

Lemma appends_out_of_fuel {A} : appends (@out_of_fuel A).
Proof. intros w r w' H. discriminate. Qed.

Create HintDb appends.
#[global] Hint Resolve appends_ret appends_stdout appends_stderr appends_poll
  appends_lift appends_lift_fuel appends_out_of_fuel : appends.

Section Appends.
Variable env : Env.
Variable flags : Flags.

Lemma appends_poll_every period i : appends (poll_every env period i).
Proof. unfold poll_every. destruct (_ =? _)%nat; auto with appends. Qed.

Lemma appends_printFile path info : appends (Ls.printFile env flags path info).
Proof.
  unfold Ls.printFile, Ls.printLongFormat.
  destruct (LongFormat flags); [|auto with appends].
  apply appends_bind; [|auto with appends].
  destruct (HumanReadable flags); auto with appends.
Qed.

Lemma appends_filterEntries entries : forall i items,
  appends (Ls.filterEntries env flags i entries items).
Proof.
  induction entries as [|entry rest IH]; intros i items; cbn [Ls.filterEntries].
  - auto with appends.
  - apply appends_bind; [apply appends_poll_every|]. intros [e|].
    + auto with appends.
    + destruct (_ && _); apply IH.
Qed.

Lemma appends_sortEntries items : appends (Ls.sortEntries env flags items).
Proof.
  unfold Ls.sortEntries. apply appends_bind; [auto with appends|].
  intros [e|]; auto with appends.
Qed.

Lemma appends_printEntries rec path items :
  (forall p, appends (rec p)) ->
  forall i, appends (Ls.printEntries env flags rec path i items).
Proof.
  intros Hrec. induction items as [|entry rest IH]; intros i; cbn [Ls.printEntries].
  - auto with appends.
  - apply appends_bind; [apply appends_poll_every|]. intros [e|]; [auto with appends|].
    destruct (Info entry) as [info|e].
    + apply appends_bind; [apply appends_printFile|]. intros _.
      apply appends_bind; [|intros _; apply IH].
      destruct (_ && _); [|auto with appends].
      repeat (apply appends_bind; [auto with appends|intros ?]).
      auto with appends.
    + apply appends_bind; [auto with appends|]. intros _. apply IH.
Qed.

Lemma appends_listPath fuel : forall path, appends (Ls.listPath env flags fuel path).
Proof.
  induction fuel as [|fuel IH]; intros path; cbn [Ls.listPath].
  - auto with appends.
  - apply appends_bind; [auto with appends|]. intros [e|]; [auto with appends|].
    destruct (Stat env path) as [info|e]; [|auto with appends].
    destruct (negb (FileInfo_IsDir info)).
    { apply appends_bind; [apply appends_printFile|]. auto with appends. }
    destruct (ReadDir env path) as [entries [e|]]; [auto with appends|].
    apply appends_bind; [auto with appends|]. intros [e|]; [auto with appends|].
    apply appends_bind; [apply appends_filterEntries|]. intros [items|e];
      [|auto with appends].
    apply appends_bind; [apply appends_sortEntries|]. intros sorted.
    apply appends_bind; [auto with appends|]. intros [e|]; [auto with appends|].
    apply appends_printEntries. exact IH.
Qed.
End Appends.

(** Claim C2, amended to src/ls.go.  When the print loop of [listPath],
    with [Recursive] set, comes to a child that is a directory, sees no
    cancellation at this iteration and emits the child's [line], then it
    goes on as the listing of the child's joined path followed by the rest
    of the loop, from a world whose stdout has gained exactly the child's
    line, an empty line and the header of the joined path.  All that the
    nested listing writes comes next ([sub]), then what the loop writes
    for the remaining entries ([post]). *)
Theorem recursive_listing_block (env : Env) (flags : Flags) (fuel : nat)
  (path : string) (i : nat) (entry : DirEntry) (rest : list DirEntry)
  (info : FileInfo) (line : string) (w w1 : World) :
  Recursive flags = true ->
  poll_every env 100 i w = Some (Done None, w1) ->
  Info entry = Ok info ->
  FileInfo_IsDir info = true ->
  let entryPath := Join path (Name entry) in
  Ls.printFile env flags entryPath info w1 = Some (Done (), after 0 [line] w1) ->
  let block := [line; ""; entryPath +:+ ":"] in
  let loop := Ls.printEntries env flags (Ls.listPath env flags fuel) path in
  loop i (entry :: rest) w
  = (Ls.listPath env flags fuel entryPath ≫= (fun _ => loop (S i) rest)) (after 0 block w1)
  /\ forall r w',
       loop i (entry :: rest) w = Some (r, w') ->
       exists r4 w4 sub post,
         Ls.listPath env flags fuel entryPath (after 0 block w1) = Some (r4, w4)
         /\ stdout w4 = stdout w ++ block ++ sub
         /\ stdout w' = stdout w ++ block ++ sub ++ post.
Proof.
  intros Hrec Hpoll Hinfo Hdir entryPath Hprint block loop.
  assert (Hw1 : stdout w1 = stdout w).
  { unfold poll_every in Hpoll. destruct (_ =? _)%nat.
    - injection Hpoll as _ <-. reflexivity.
    - injection Hpoll as <-. reflexivity. }
  assert (Heq : loop i (entry :: rest) w
                = (Ls.listPath env flags fuel entryPath ≫= (fun _ => loop (S i) rest))
                    (after 0 block w1)).
  { subst loop. cbn [Ls.printEntries]. unfold mbind at 1, M_bind at 1.
    rewrite Hpoll, Hinfo, Hrec, Hdir. cbn [andb].
    fold entryPath. unfold mbind at 1, M_bind at 1. rewrite Hprint.
    unfold mbind, M_bind, mret, M_ret, Fprintln_stdout. 
    assert (Hblock : {| stdout := (stdout (after 0 [line] w1) ++ [""]) ++ [entryPath +:+ ":"];
                        stderr := stderr (after 0 [line] w1);
                        polls := polls (after 0 [line] w1) |} = after 0 block w1).
    { unfold after. cbn. rewrite <- !app_assoc. reflexivity. }
    cbn [stdout stderr polls]. rewrite Hblock.
    destruct (Ls.listPath env flags fuel entryPath (after 0 block w1))
      as [[[r4|msg] w4]|]; reflexivity. }
  split; [exact Heq|].
  intros r w' Hrun. rewrite Heq in Hrun. unfold mbind, M_bind in Hrun.
  destruct (Ls.listPath env flags fuel entryPath (after 0 block w1))
    as [[r4 w4]|] eqn:Hsub; [|discriminate].
  destruct (appends_listPath env flags fuel entryPath _ _ _ Hsub) as [sub Hout].
  assert (Hw4 : stdout w4 = stdout w ++ block ++ sub).
  { rewrite Hout. unfold after. cbn [stdout]. rewrite Hw1, <- app_assoc. reflexivity. }
  exists r4, w4, sub.
  destruct r4 as [r4|msg].
  - destruct (appends_printEntries env flags (Ls.listPath env flags fuel) path rest
                (appends_listPath env flags fuel) (S i) _ _ _ Hrun) as [post Hpost].
    exists post. split; [reflexivity|]. split; [exact Hw4|].
    rewrite Hpost, Hw4, <- !app_assoc. reflexivity.
  - injection Hrun as _ <-. exists []. split; [reflexivity|]. split; [exact Hw4|].
    rewrite app_nil_r. exact Hw4.
Qed.

Lemma recursive_listing_block_witness :
  Ls.printEntries tree (with_Recursive true default_flags)
    (Ls.listPath tree (with_Recursive true default_flags) 1) "d" 0
    [dir_entry "sub"] World0
  = Some (Done None, after 7 ["sub"; ""; "d/sub:"; "f"] World0).
Proof.
  destruct (recursive_listing_block tree (with_Recursive true default_flags) 1 "d" 0
              (dir_entry "sub") [] dir_info "sub" World0 (after 1 [] World0)
              eq_refl eq_refl eq_refl eq_refl eq_refl) as [Heq _].
  rewrite Heq. vm_compute. reflexivity.
Defined.

(** The recursive listing of the newer variant walks the tree: the line
    of the directory sub is followed at once by the line of its file. *)
Lemma walk_prints_no_header :
  exists w',
    Command.listDirectory tree (with_Recursive true default_flags) 3 "d" World0
    = Some (Done None, w')
    /\ stdout w' = ["d"; "a.txt"; "b.txt"; "sub"; "f"]
    /\ forall pre post, stdout w' <> pre ++ ["sub"; ""; "d/sub:"] ++ post.
Proof.
  eexists. split; [vm_compute; reflexivity|]. split; [reflexivity|].
  intros pre post H.
  assert (Hin : In ""%string (pre ++ ["sub"; ""; "d/sub:"] ++ post)).
  { apply in_or_app. right. right. left. reflexivity. }
  rewrite <- H in Hin. cbn in Hin.
  repeat (destruct Hin as [Hin|Hin]; [discriminate Hin|]). exact Hin.
Qed.

(** Cancellation seen by the polls of [Execute] itself is returned at
    once and nothing is written. *)
Lemma cancellation_before_path (env : Env) (flags : Flags) (fuel : nat)
  (positional : list string) (e : error) (w : World) :
  ctx_err env (polls w) = Some e ->
  Ls.Execute env flags fuel positional w = Some (Done (Some e), tick w).
Proof.
  intros H. unfold Ls.Execute, mbind, M_bind, CheckContextCancellation.
  rewrite H. reflexivity.
Qed.

(** Claim C1.  When the context is found done by the first poll of
    [listPath], [listPath] returns the error of the context, and [Execute]
    on that single path writes it to stderr as the diagnostic line of the
    path and returns nil. *)
Theorem cancellation_inside_listPath (env : Env) (flags : Flags) (fuel : nat)
  (path : string) (e : error) (w : World) :
  ctx_err env (polls w) = None ->
  ctx_err env (S (polls w)) = None ->
  ctx_err env (S (S (polls w))) = Some e ->
  Ls.listPath env flags (S fuel) path (after 2 [] w) = Some (Done (Some e), after 3 [] w)
  /\ Ls.Execute env flags (S fuel) [path] w
     = Some (Done None,
             {| stdout := stdout w;
                stderr := stderr w ++ [diagnostic path e];
                polls := (polls w + 3)%nat |}).
Proof.
  intros H0 H1 H2.
  assert (Hlist : Ls.listPath env flags (S fuel) path (after 2 [] w)
                  = Some (Done (Some e), after 3 [] w)).
  { cbn [Ls.listPath]. unfold mbind, M_bind, CheckContextCancellation.
    cbn [polls after]. replace (polls w + 2)%nat with (S (S (polls w))) by lia.
    rewrite H2. unfold mret, M_ret, after. cbn. rewrite !app_nil_r.
    repeat f_equal. lia. }
  split; [exact Hlist|].
  unfold Ls.Execute. cbn [length Nat.eqb Ls.executePaths Nat.ltb Nat.leb andb].
  unfold mbind at 1, M_bind at 1. unfold CheckContextCancellation at 1. rewrite H0.
  unfold mbind at 1, M_bind at 1. unfold CheckContextCancellation at 1.
  cbn [polls]. rewrite H1.
  unfold mbind at 1, M_bind at 1. unfold mret at 1, M_ret at 1.
  unfold mbind at 1, M_bind at 1. unfold mret at 1, M_ret at 1.
  unfold mbind at 1, M_bind at 1.
  assert (Hw : {| stdout := stdout w; stderr := stderr w; polls := S (S (polls w)) |}
               = after 2 [] w).
  { unfold after. rewrite app_nil_r. f_equal. lia. }
  cbn [stdout stderr polls]. rewrite Hw, Hlist.
  unfold mbind, M_bind, Fprintln_stderr, mret, M_ret, after. cbn.
  rewrite app_nil_r. reflexivity.
Qed.

Lemma cancellation_inside_listPath_witness :
  Ls.Execute (mkTree tree_dirs tree_files (done_from 2 Canceled)) default_flags 1 ["d"] World0
  = Some (Done None,
          {| stdout := []; stderr := ["ls: d: context canceled"]; polls := 3 |}).
Proof.
  apply (cancellation_inside_listPath (mkTree tree_dirs tree_files (done_from 2 Canceled))
           default_flags 0 "d" Canceled World0 eq_refl eq_refl eq_refl).
Defined.

(** Claim C10.  With no positional argument either variant runs exactly
    as with the single argument ".". *)
Theorem empty_arguments_list_dot (env : Env) (flags : Flags) (fuel : nat) (w : World) :
  Ls.Execute env flags fuel [] w = Ls.Execute env flags fuel ["."] w
  /\ Command.Executor env flags fuel [] w = Command.Executor env flags fuel ["."] w.
Proof. split; reflexivity. Qed.

(** ** The recursive listing returns *)

Lemma returns_ret {A} (a : A) (Q : A -> Prop) : Q a -> returns (mret a) Q.
Proof. intros HQ w. exists (Done a), w. split; [reflexivity|exact HQ]. Qed.

Lemma returns_bind {A B} (m : M A) (k : A -> M B) (Q : A -> Prop) (R : B -> Prop) :
  returns m Q -> (forall a, Q a -> returns (k a) R) -> returns (m ≫= k) R.
Proof.
  intros Hm Hk w. destruct (Hm w) as (r & w1 & Hrun & HQ).
  unfold mbind, M_bind. rewrite Hrun. destruct r as [a|msg].
  - apply Hk. exact HQ.
  - exists (Panic msg), w1. split; [reflexivity|exact I].
Qed.

Lemma returns_any {A} (m : M A) (Q : A -> Prop) :
  returns m Q -> returns m (fun _ => True).
Proof.
  intros Hm w. destruct (Hm w) as (r & w1 & Hrun & _).
  exists r, w1. split; [exact Hrun|]. destruct r; exact I.
Qed.

Lemma returns_stdout line : returns (Fprintln_stdout line) (fun _ => True).
Proof. intros w. eexists _, _. split; [reflexivity|exact I]. Qed.

Lemma returns_stderr line : returns (Fprintln_stderr line) (fun _ => True).
Proof. intros w. eexists _, _. split; [reflexivity|exact I]. Qed.

Lemma returns_poll env : returns (CheckContextCancellation env) (fun _ => True).
Proof. intros w. eexists _, _. split; [reflexivity|exact I]. Qed.

Lemma returns_poll_every env period i : returns (poll_every env period i) (fun _ => True).
Proof.
  unfold poll_every. destruct (_ =? _)%nat; [apply returns_poll|].
  apply returns_ret. exact I.
Qed.

Lemma scale_loop_returns n d e :
  0 <= n -> exists r, scale_loop (scale_fuel n) n d e = Some r.
Proof.
  intros Hn.
  destruct (scale_loop_steps _ n d e Hn (scale_fuel_enough n Hn)) as (j & Heq & _).
  eexists. exact Heq.
Qed.

Lemma humanReadableSize_returns size : exists r, Ls.humanReadableSize size = Some r.
Proof.
  unfold Ls.humanReadableSize. unfold unit at 1.
  destruct (Z.ltb_spec size 1024) as [|Hge]; [eexists; reflexivity|].
  destruct (scale_loop_returns (Z.quot size unit) unit 0) as [[div exp] ->].
  { unfold unit. apply Z.quot_pos; lia. }
  cbn [mbind option_bind]. destruct (Ls.units !! exp); eexists; reflexivity.
Qed.

Section Termination.
Variable env : Env.
Variable flags : Flags.

(** Every directory below the one listed is closer to the leaves. *)
Variable rank : string -> nat.
Hypothesis rank_decreases : forall path entries e info,
  ReadDir env path = (entries, None) ->
  e ∈ entries -> Info e = Ok info -> FileInfo_IsDir info = true ->
  (rank (Join path (Name e)) < rank path)%nat.

Lemma returns_printFile path info :
  returns (Ls.printFile env flags path info) (fun _ => True).
Proof.
  unfold Ls.printFile, Ls.printLongFormat.
  destruct (LongFormat flags); [|apply returns_stdout].
  apply returns_bind with (Q := fun _ => True).
  - destruct (HumanReadable flags); [|apply returns_ret; exact I].
    intros w. destruct (humanReadableSize_returns (Size info)) as [r Hr].
    unfold lift_fuel. rewrite Hr. exists r, w. split; [reflexivity|]. destruct r; exact I.
  - intros sizeStr _. apply returns_stdout.
Qed.

Lemma returns_filterEntries entries : forall i items,
  returns (Ls.filterEntries env flags i entries items)
    (fun r => match r with
              | Ok kept => forall e, e ∈ kept -> e ∈ items \/ e ∈ entries
              | Err _ => True
              end).
Proof.
  induction entries as [|entry rest IH]; intros i items; cbn [Ls.filterEntries].
  - apply returns_ret. intros e He. left. exact He.
  - eapply returns_bind; [apply returns_poll_every|]. intros [err|] _.
    + apply returns_ret. exact I.
    + destruct (_ && _).
      * intros w. destruct (IH (S i) items w) as (r & w' & Hrun & Hr).
        exists r, w'. split; [exact Hrun|]. destruct r as [[kept|err]|]; try exact I.
        intros e He. destruct (Hr e He) as [|]; [left|right; right]; assumption.
      * intros w. destruct (IH (S i) (items ++ [entry]) w) as (r & w' & Hrun & Hr).
        exists r, w'. split; [exact Hrun|]. destruct r as [[kept|err]|]; try exact I.
        intros e He. destruct (Hr e He) as [Hin|]; [|right; right; assumption].
        apply elem_of_app in Hin as [|Hin]; [left; assumption|].
        apply list_elem_of_singleton in Hin as ->. right. left.
Qed.

Lemma returns_sortEntries items :
  returns (Ls.sortEntries env flags items) (fun sorted => sorted ≡ₚ items).
Proof.
  unfold Ls.sortEntries. eapply returns_bind; [apply returns_poll|].
  intros [err|] _; [apply returns_ret; reflexivity|].
  intros w. unfold lift.
  destruct (sort_Slice (Ls.less flags) items) as [sorted|msg] eqn:Hsort.
  - exists (Done sorted), w. split; [reflexivity|]. apply (sort_Slice_perm _ _ _ Hsort).
  - exists (Panic msg), w. split; [reflexivity|exact I].
Qed.

Lemma returns_printEntries rec path entries items :
  ReadDir env path = (entries, None) ->
  (forall p, (rank p < rank path)%nat -> returns (rec p) (fun _ => True)) ->
  (forall e, e ∈ items -> e ∈ entries) ->
  forall i, returns (Ls.printEntries env flags rec path i items) (fun _ => True).
Proof.
  intros Hread Hrec. induction items as [|entry rest IH]; intros Hin i;
    cbn [Ls.printEntries].
  - apply returns_ret. exact I.
  - assert (Hrest : forall i, returns (Ls.printEntries env flags rec path i rest)
                                (fun _ => True)).
    { apply IH. intros e He. apply Hin. right. exact He. }
    eapply returns_bind; [apply returns_poll_every|]. intros [err|] _.
    { apply returns_ret. exact I. }
    destruct (Info entry) as [info|err] eqn:Hinfo.
    + eapply returns_bind; [apply returns_printFile|]. intros _ _.
      eapply returns_bind with (Q := fun _ => True); [|intros _ _; apply Hrest].
      destruct (Recursive flags && FileInfo_IsDir info) eqn:Hdir.
      * apply andb_true_iff in Hdir as [_ Hdir].
        eapply returns_bind; [apply returns_stdout|]. intros _ _.
        eapply returns_bind; [apply returns_stdout|]. intros _ _.
        eapply returns_bind with (Q := fun _ => True); [|intros _ _; apply returns_ret; exact I].
        apply Hrec. apply (rank_decreases path entries entry info Hread); try assumption.
        apply Hin. left.
      * apply returns_ret. exact I.
    + eapply returns_bind; [apply returns_stderr|]. intros _ _. apply Hrest.
Qed.

(** With more fuel than the rank of the path, [listPath] returns. *)
Lemma listPath_returns fuel : forall path,
  (rank path < fuel)%nat -> returns (Ls.listPath env flags fuel path) (fun _ => True).
Proof.
  induction fuel as [|fuel IH]; intros path Hrank; [lia|]. cbn [Ls.listPath].
  eapply returns_bind; [apply returns_poll|]. intros [err|] _.
  { apply returns_ret. exact I. }
  destruct (Stat env path) as [info|err]; [|apply returns_ret; exact I].
  destruct (negb (FileInfo_IsDir info)).
  { eapply returns_bind; [apply returns_printFile|]. intros _ _.
    apply returns_ret. exact I. }
  destruct (ReadDir env path) as [entries [err|]] eqn:Hread;
    [apply returns_ret; exact I|].
  eapply returns_bind; [apply returns_poll|]. intros [err|] _.
  { apply returns_ret. exact I. }
  eapply returns_bind; [apply returns_filterEntries|]. intros [kept|err] Hkept;
    [|apply returns_ret; exact I].
  eapply returns_bind; [apply returns_sortEntries|]. intros sorted Hperm.
  eapply returns_bind; [apply returns_poll|]. intros [err|] _.
  { apply returns_ret. exact I. }
  apply (returns_printEntries _ path entries sorted Hread).
  - intros p Hp. apply IH. lia.
  - intros e He. rewrite Hperm in He. destruct (Hkept e He) as [Hnil|]; [|assumption].
    apply elem_of_nil in Hnil. contradiction.
Qed.
End Termination.

(** ** Fuel *)

Lemma refines_refl {A} (m : M A) : refines m m.
Proof. intros w r H. exact H. Qed.

Lemma refines_bind {A B} (m m' : M A) (k k' : A -> M B) :
  refines m m' -> (forall a, refines (k a) (k' a)) -> refines (m ≫= k) (m' ≫= k').
Proof.
  intros Hm Hk w r H. unfold mbind, M_bind in *.
  destruct (m w) as [[[a|msg] w1]|] eqn:Hmw; [| |discriminate];
    rewrite (Hm _ _ Hmw); [apply Hk|]; exact H.
Qed.

Section MoreFuel.
Variable env : Env.
Variable flags : Flags.

Lemma refines_printEntries rec rec' path items :
  (forall p, refines (rec p) (rec' p)) ->
  forall i, refines (Ls.printEntries env flags rec path i items)
                    (Ls.printEntries env flags rec' path i items).
Proof.
  intros Hrec. induction items as [|entry rest IH]; intros i; cbn [Ls.printEntries].
  - apply refines_refl.
  - apply refines_bind; [apply refines_refl|]. intros [e|]; [apply refines_refl|].
    destruct (Info entry) as [info|e].
    + apply refines_bind; [apply refines_refl|]. intros _.
      apply refines_bind; [|intros _; apply IH].
      destruct (_ && _); [|apply refines_refl].
      apply refines_bind; [apply refines_refl|]. intros _.
      apply refines_bind; [apply refines_refl|]. intros _.
      apply refines_bind; [apply Hrec|]. intros _. apply refines_refl.
    + apply refines_bind; [apply refines_refl|]. intros _. apply IH.
Qed.

(** More fuel does not change a run that ended. *)
Lemma listPath_more_fuel fuel : forall path,
  refines (Ls.listPath env flags fuel path) (Ls.listPath env flags (S fuel) path).
Proof.
  induction fuel as [|fuel IH]; intros path.
  - intros w r H. discriminate H.
  - cbn [Ls.listPath].
    apply refines_bind; [apply refines_refl|]. intros [e|]; [apply refines_refl|].
    destruct (Stat env path) as [info|e]; [|apply refines_refl].
    destruct (negb (FileInfo_IsDir info)); [apply refines_refl|].
    destruct (ReadDir env path) as [entries [e|]]; [apply refines_refl|].
    apply refines_bind; [apply refines_refl|]. intros [e|]; [apply refines_refl|].
    apply refines_bind; [apply refines_refl|]. intros [items|e]; [|apply refines_refl].
    apply refines_bind; [apply refines_refl|]. intros sorted.
    apply refines_bind; [apply refines_refl|]. intros [e|]; [apply refines_refl|].
    apply refines_printEntries. exact IH.
Qed.
End MoreFuel.

(** ** Brace expansion *)

Lemma mapM_more {A B} (f g : A -> option B) (l : list A) (r : list B) :
  (forall a b, f a = Some b -> g a = Some b) ->
  mapM f l = Some r -> mapM g l = Some r.
Proof.
  intros Hfg. revert r. induction l as [|a l IH]; intros r H; [exact H|].
  cbn [mapM] in *. 
  destruct (f a) as [b|] eqn:Hfa; [|discriminate]. rewrite (Hfg _ _ Hfa).
  cbn in *. destruct (mapM f l) as [bs|]; [|discriminate].
  rewrite (IH bs eq_refl). exact H.
Qed.

(** More fuel does not change a brace expansion that ended. *)
Lemma expandBraces_more_fuel fuel : forall pattern r,
  Command.expandBraces_fuel fuel pattern = Some r ->
  Command.expandBraces_fuel (S fuel) pattern = Some r.
Proof.
  induction fuel as [|fuel IH]; intros pattern r H; [discriminate H|].
  remember (S fuel) as fuel1 eqn:Hfuel1.
  cbn [Command.expandBraces_fuel]. rewrite Hfuel1 in H at 1.
  cbn [Command.expandBraces_fuel] in H.
  destruct (Index pattern "{") as [start|]; [|exact H].
  destruct (Command.matchClose 0 start _) as [end_|]; [|exact H].
  destruct (if Contains _ ".." then _ else _) as [expansions|]; [|discriminate].
  cbn [mbind option_bind] in *.
  destruct (mapM _ _) as [results|] eqn:Hmap; [|discriminate].
  cbn [mbind option_bind] in *. 
  erewrite mapM_more; [exact H| |exact Hmap].
  intros a b Ha. cbn beta in *. apply IH. exact Ha.
Qed.

Lemma Index_brace_free (p : string) (i : nat) :
  brace_free p -> Index_from i p "{" = None.
Proof.
  revert i. induction p as [|c p IH]; intros i Hfree.
  - reflexivity.
  - apply Forall_cons in Hfree as [[Hopen _] Hfree].
    cbn [Index_from String.prefix].
    destruct (ascii_dec "{" c) as [<-|_]; [contradiction|].
    apply IH. exact Hfree.
Qed.

(** Claim C5.  {a,b,c} expands to a, b, c; {1..3} to 1, 2, 3; {3..1} to
    3, 2, 1; and a pattern without any brace to itself alone. *)
Theorem expandBraces_examples (pattern : string) :
  brace_free pattern ->
  Command.expandBraces "{a,b,c}" = Some ["a"; "b"; "c"]
  /\ Command.expandBraces "{1..3}" = Some ["1"; "2"; "3"]
  /\ Command.expandBraces "{3..1}" = Some ["3"; "2"; "1"]
  /\ Command.expandBraces pattern = Some [pattern].
Proof.
  intros Hfree.
  split; [vm_compute; reflexivity|].
  split; [vm_compute; reflexivity|].
  split; [vm_compute; reflexivity|].
  unfold Command.expandBraces. cbn [Command.expandBraces_fuel].
  unfold Index. rewrite (Index_brace_free pattern 0 Hfree). reflexivity.
Qed.

Lemma expandBraces_examples_witness :
  brace_free "*.txt" /\ Command.expandBraces "*.txt" = Some ["*.txt"].
Proof.
  assert (H : brace_free "*.txt").
  { unfold brace_free. cbn. repeat constructor; discriminate. }
  split; [exact H|]. apply (expandBraces_examples "*.txt" H).
Defined.

(** ** Brace expansion: the fuel is enough *)

Lemma braces_app (a b : string) : braces (a +:+ b) = (braces a + braces b)%nat.
Proof.
  induction a as [|c a IH]; [reflexivity|].
  rewrite append_cons. cbn [braces]. rewrite IH. lia.
Qed.

Lemma braces_rev_string (s : string) : braces (rev_string s) = braces s.
Proof.
  induction s as [|c s IH]; [reflexivity|].
  rewrite rev_string_cons, braces_app, IH. cbn [braces]. lia.
Qed.

Lemma braces_le_length (s : string) : (braces s <= String.length s)%nat.
Proof.
  induction s as [|c s IH]; [reflexivity|].
  cbn [braces String.length]. destruct (is_brace c); lia.
Qed.

(** Trimming removes a prefix. *)
Lemma TrimLeftSpace_braces_le (n : nat) : forall s,
  (String.length s <= n)%nat -> (braces (TrimLeftSpace s) <= braces s)%nat.
Proof.
  induction n as [|n IH]; intros s Hlen.
  - destruct s; [reflexivity|cbn in Hlen; lia].
  - destruct s as [|a s1]; [reflexivity|]. cbn [String.length] in Hlen.
    cbn [TrimLeftSpace].
    destruct (isSpace1 a).
    { specialize (IH s1 ltac:(lia)). cbn [braces]. lia. }
    destruct s1 as [|b s2]; [reflexivity|]. cbn [String.length] in Hlen.
    destruct (isSpace2 a b).
    { specialize (IH s2 ltac:(lia)). cbn [braces]. lia. }
    destruct s2 as [|c s3]; [reflexivity|]. cbn [String.length] in Hlen.
    destruct (isSpace3 a b c); [|reflexivity].
    specialize (IH s3 ltac:(lia)). cbn [braces]. lia.
Qed.

Lemma TrimLeftSpace_rev_braces_le (n : nat) : forall s,
  (String.length s <= n)%nat -> (braces (TrimLeftSpace_rev s) <= braces s)%nat.
Proof.
  induction n as [|n IH]; intros s Hlen.
  - destruct s; [reflexivity|cbn in Hlen; lia].
  - destruct s as [|a s1]; [reflexivity|]. cbn [String.length] in Hlen.
    cbn [TrimLeftSpace_rev].
    destruct (isSpace1 a).
    { specialize (IH s1 ltac:(lia)). cbn [braces]. lia. }
    destruct s1 as [|b s2]; [reflexivity|]. cbn [String.length] in Hlen.
    destruct (isSpace2 b a).
    { specialize (IH s2 ltac:(lia)). cbn [braces]. lia. }
    destruct s2 as [|c s3]; [reflexivity|]. cbn [String.length] in Hlen.
    destruct (isSpace3 c b a); [|reflexivity].
    specialize (IH s3 ltac:(lia)). cbn [braces]. lia.
Qed.

Lemma TrimSpace_braces_le (s : string) : (braces (TrimSpace s) <= braces s)%nat.
Proof.
  unfold TrimSpace, TrimRightSpace. rewrite braces_rev_string.
  etransitivity; [eapply TrimLeftSpace_rev_braces_le; reflexivity|].
  rewrite braces_rev_string. eapply TrimLeftSpace_braces_le. reflexivity.
Qed.

Lemma Split_go_braces_le (sep : string) (s : string) : forall skip cur,
  Forall (fun piece => (braces piece <= braces cur + braces s)%nat)
         (Split_go sep skip cur s).
Proof.
  induction s as [|c s IH]; intros skip cur.
  - cbn [Split_go]. constructor; [|constructor]. rewrite braces_rev_string. lia.
  - cbn [Split_go]. destruct skip as [|k].
    + destruct (String.prefix sep (String c s)).
      * constructor; [rewrite braces_rev_string; lia|].
        eapply Forall_impl; [apply IH|]. cbn [braces]. intros piece Hp. lia.
      * eapply Forall_impl; [apply IH|]. cbn [braces]. intros piece Hp. lia.
    + eapply Forall_impl; [apply IH|]. cbn [braces]. intros piece Hp. lia.
Qed.

Lemma Split_braces_le (s sep : string) :
  Forall (fun piece => (braces piece <= braces s)%nat) (Split s sep).
Proof. apply (Split_go_braces_le sep s 0 ""). Qed.

Lemma braces_string_of_uint (d : Decimal.uint) : braces (NilEmpty.string_of_uint d) = 0%nat.
Proof. induction d; cbn [NilEmpty.string_of_uint braces]; try exact IHd; reflexivity. Qed.

Lemma braces_format_int (z : Z) : braces (format_int z) = 0%nat.
Proof.
  unfold format_int. destruct (Z.to_int z) as [d|d]; cbn [NilEmpty.string_of_int braces].
  - apply braces_string_of_uint.
  - apply braces_string_of_uint.
Qed.

Lemma braces_string_of_rune_bytes :
  forallb (fun k => (braces (Command.string_of_rune (Z.of_nat k)) <=? 1)%nat) (seq 0 256) = true.
Proof. vm_compute. reflexivity. Qed.

Lemma byte_range (c : ascii) : 0 <= byte c < 256.
Proof.
  unfold byte. pose proof (N_ascii_bounded c) as H. lia.
Qed.

Lemma braces_string_of_rune (r : Z) :
  0 <= r < 256 -> (braces (Command.string_of_rune r) <= 1)%nat.
Proof.
  intros Hr. pose proof braces_string_of_rune_bytes as H.
  rewrite forallb_forall in H. specialize (H (Z.to_nat r)).
  rewrite Z2Nat.id in H by lia. apply Nat.leb_le, H.
  apply in_seq. lia.
Qed.

Lemma runes_between_range (s e : Z) :
  0 <= s < 256 -> 0 <= e < 256 ->
  Forall (fun r => 0 <= r < 256) (Command.runes_between s e).
Proof.
  intros Hs He. unfold Command.runes_between.
  destruct (Z.leb_spec s e); apply Forall_forall; intros r Hr;
    apply list_elem_of_In, in_map_iff in Hr as (k & <- & Hk);
    apply in_seq in Hk; lia.
Qed.

(** What a range expands to holds at most one brace, or is one of the
    two ends. *)
Lemma expandRange_braces (a b : string) (l : list string) :
  Command.expandRange a b = Some l ->
  Forall (fun x => (braces x <= Nat.max 1 (Nat.max (braces a) (braces b)))%nat) l.
Proof.
  unfold Command.expandRange. intros H.
  assert (Hchars : forall l,
            match a, b with
            | String x EmptyString, String y EmptyString =>
                Some (map Command.string_of_rune (Command.runes_between (byte x) (byte y)))
            | _, _ => Some [a; b]
            end = Some l ->
            Forall (fun x => (braces x <= Nat.max 1 (Nat.max (braces a) (braces b)))%nat) l).
  { clear. intros l H.
    assert (Hends : Forall (fun x => (braces x <= Nat.max 1 (Nat.max (braces a) (braces b)))%nat)
                           [a; b]).
    { repeat constructor; lia. }
    destruct a as [|x [|? ?]]; try (injection H as <-; exact Hends).
    destruct b as [|y [|? ?]]; try (injection H as <-; exact Hends).
    injection H as <-. apply Forall_forall. intros s Hs.
    apply list_elem_of_In, in_map_iff in Hs as (r & <- & Hr).
    pose proof (runes_between_range (byte x) (byte y) (byte_range x) (byte_range y)) as Hall.
    rewrite Forall_forall in Hall. apply list_elem_of_In, Hall in Hr.
    pose proof (braces_string_of_rune r Hr). lia. }
  destruct (Sscanf_d a) as [s|]; [|apply Hchars; exact H].
  destruct (Sscanf_d b) as [e|]; [|apply Hchars; exact H].
  destruct (if s <=? e then _ else _) as [ints|]; [|discriminate].
  cbn in H. injection H as <-. apply Forall_forall. intros x Hx.
  apply list_elem_of_In, in_map_iff in Hx as (i & <- & _).
  rewrite braces_format_int. lia.
Qed.

(** Slices of a concatenation *)

Lemma substring_0_app (a b : string) : substring 0 (String.length a) (a +:+ b) = a.
Proof.
  induction a as [|c a IH]; [destruct b; reflexivity|].
  rewrite append_cons. cbn [String.length substring]. rewrite IH. reflexivity.
Qed.

Lemma substring_skip_app (a b : string) (m : nat) :
  substring (String.length a) m (a +:+ b) = substring 0 m b.
Proof.
  induction a as [|c a IH]; [reflexivity|].
  rewrite append_cons. cbn [String.length substring]. exact IH.
Qed.

Lemma substring_0_all (b : string) : substring 0 (String.length b) b = b.
Proof.
  rewrite <- (append_nil_r b) at 2. rewrite substring_0_app. reflexivity.
Qed.

Lemma length_app (a b : string) :
  String.length (a +:+ b) = (String.length a + String.length b)%nat.
Proof.
  induction a as [|c a IH]; [reflexivity|].
  rewrite append_cons. cbn [String.length]. rewrite IH. reflexivity.
Qed.

Lemma Index_from_brace (s : string) : forall i k,
  Index_from i s "{" = Some k ->
  exists pre post, s = pre +:+ String "{" post /\ k = (i + String.length pre)%nat.
Proof.
  induction s as [|c s IH]; intros i k H.
  - discriminate H.
  - cbn [Index_from String.prefix] in H.
    destruct (ascii_dec "{" c) as [<-|_].
    + assert (Hp : String.prefix "" s = true) by (destruct s; reflexivity).
      rewrite Hp in H. injection H as <-.
      exists "", s. split; [reflexivity|]. cbn. lia.
    + destruct (IH _ _ H) as (pre & post & -> & ->).
      exists (String c pre), post. split; [reflexivity|]. cbn [String.length]. lia.
Qed.

Lemma matchClose_brace (s : string) : forall depth i e,
  Command.matchClose depth i s = Some e ->
  exists mid post, s = mid +:+ String "}" post /\ e = (i + String.length mid)%nat.
Proof.
  induction s as [|c s IH]; intros depth i e H.
  - discriminate H.
  - cbn [Command.matchClose] in H.
    destruct (Ascii.eqb_spec c "{") as [->|_].
    { destruct (IH _ _ _ H) as (mid & post & -> & ->).
      exists (String "{" mid), post. split; [reflexivity|]. cbn [String.length]. lia. }
    destruct (Ascii.eqb_spec c "}") as [->|_].
    + destruct (depth - 1 =? 0).
      * injection H as <-. exists "", s. split; [reflexivity|]. cbn. lia.
      * destruct (IH _ _ _ H) as (mid & post & -> & ->).
        exists (String "}" mid), post. split; [reflexivity|]. cbn [String.length]. lia.
    + destruct (IH _ _ _ H) as (mid & post & -> & ->).
      exists (String c mid), post. split; [reflexivity|]. cbn [String.length]. lia.
Qed.

(** The first group of a pattern: what [expandBraces] slices out. *)
Lemma first_group (pattern : string) (start end_ : nat) :
  Index pattern "{" = Some start ->
  Command.matchClose 0 start (Command.slice pattern start (String.length pattern)) = Some end_ ->
  exists mid,
    pattern = Command.slice pattern 0 start +:+ String "{" mid +:+ String "}"
                (Command.slice pattern (end_ + 1) (String.length pattern))
    /\ Command.slice pattern (start + 1) end_ = mid.
Proof.
  intros Hstart Hend. unfold Index in Hstart.
  destruct (Index_from_brace _ _ _ Hstart) as (pre & post & -> & Hs).
  cbn [Nat.add] in Hs. subst start.
  assert (Hrest : Command.slice (pre +:+ String "{" post) (String.length pre)
                    (String.length (pre +:+ String "{" post))
                  = String "{" post).
  { unfold Command.slice. rewrite substring_skip_app, length_app.
    replace (String.length pre + String.length (String "{" post) - String.length pre)%nat
      with (String.length (String "{" post)) by lia.
    apply substring_0_all. }
  rewrite Hrest in Hend. cbn [Command.matchClose] in Hend.
  rewrite Ascii.eqb_refl in Hend.
  destruct (matchClose_brace _ _ _ _ Hend) as (mid & post' & -> & ->).
  exists mid.
  set (pattern := pre +:+ String "{" (mid +:+ String "}" post')).
  assert (Hpre : Command.slice pattern 0 (String.length pre) = pre).
  { unfold Command.slice. rewrite Nat.sub_0_r. apply substring_0_app. }
  assert (Hmid : Command.slice pattern (String.length pre + 1)
                   (S (String.length pre) + String.length mid) = mid).
  { unfold Command.slice, pattern.
    replace (pre +:+ String "{" (mid +:+ String "}" post'))
      with ((pre +:+ "{") +:+ (mid +:+ String "}" post'))
      by (rewrite append_assoc; reflexivity).
    replace (String.length pre + 1)%nat with (String.length (pre +:+ "{"))
      by (rewrite length_app; reflexivity).
    rewrite substring_skip_app.
    replace (S (String.length pre) + String.length mid - String.length (pre +:+ "{"))%nat
      with (String.length mid) by (rewrite length_app; cbn; lia).
    apply substring_0_app. }
  assert (Hpost : Command.slice pattern (S (String.length pre) + String.length mid + 1)
                    (String.length pattern) = post').
  { unfold Command.slice, pattern.
    replace (pre +:+ String "{" (mid +:+ String "}" post'))
      with ((pre +:+ String "{" (mid +:+ "}")) +:+ post').
    2:{ rewrite !append_assoc. rewrite <- (append_cons "{" mid).
        rewrite !append_assoc. reflexivity. }
    replace (S (String.length pre) + String.length mid + 1)%nat
      with (String.length (pre +:+ String "{" (mid +:+ "}"))).
    2:{ rewrite length_app. cbn [String.length]. rewrite length_app. cbn. lia. }
    rewrite substring_skip_app, length_app.
    replace (String.length (pre +:+ String "{" (mid +:+ "}")) + String.length post'
             - String.length (pre +:+ String "{" (mid +:+ "}")))%nat
      with (String.length post') by lia.
    apply substring_0_all. }
  rewrite Hpre, Hmid, Hpost. split; reflexivity.
Qed.

Lemma mapM_ext_Forall {A B} (f g : A -> option B) (l : list A) :
  Forall (fun a => f a = g a) l -> mapM f l = mapM g l.
Proof.
  induction 1 as [|a l Ha _ IH]; [reflexivity|].
  cbn [mapM]. rewrite Ha, IH. reflexivity.
Qed.

(** The strings put in place of a group hold at most one brace more
    than its content. *)
Lemma expansions_braces (content : string) (expansions : list string) :
  (if Contains content ".." then
     match Split content ".." with
     | [p0; p1] => Command.expandRange (TrimSpace p0) (TrimSpace p1)
     | _ => Some []
     end
   else Some []) = Some expansions ->
  Forall (fun exp => (braces exp <= 1 + braces content)%nat)
         (if (length expansions =? 0)%nat
          then map TrimSpace (Split content ",")
          else expansions).
Proof.
  intros H.
  assert (Hcomma : Forall (fun exp => (braces exp <= 1 + braces content)%nat)
                          (map TrimSpace (Split content ","))).
  { apply Forall_forall. intros x Hx.
    apply list_elem_of_In, in_map_iff in Hx as (piece & <- & Hpiece).
    pose proof (Split_braces_le content ",") as Hall. rewrite Forall_forall in Hall.
    apply list_elem_of_In, Hall in Hpiece.
    pose proof (TrimSpace_braces_le piece). lia. }
  destruct (length expansions =? 0)%nat eqn:Hlen; [exact Hcomma|].
  destruct (Contains content "..").
  2:{ injection H as <-. discriminate Hlen. }
  pose proof (Split_braces_le content "..") as Hall.
  destruct (Split content "..") as [|p0 [|p1 [|? ?]]];
    try (injection H as <-; discriminate Hlen).
  apply Forall_cons in Hall as [H0 Hall]. apply Forall_cons in Hall as [H1 _].
  eapply Forall_impl; [apply (expandRange_braces _ _ _ H)|].
  intros x Hx. cbn beta in Hx.
  pose proof (TrimSpace_braces_le p0). pose proof (TrimSpace_braces_le p1). lia.
Qed.

(** With more fuel than the pattern has braces, the fuel does not
    matter to the result (which is [None] when a numeric range never
    ends). *)
Theorem expandBraces_fuel_enough (fuel1 : nat) : forall fuel2 pattern,
  (braces pattern < fuel1)%nat -> (braces pattern < fuel2)%nat ->
  Command.expandBraces_fuel fuel1 pattern = Command.expandBraces_fuel fuel2 pattern.
Proof.
  induction fuel1 as [|fuel1 IH]; intros fuel2 pattern H1 H2; [lia|].
  destruct fuel2 as [|fuel2]; [lia|].
  cbn [Command.expandBraces_fuel].
  destruct (Index pattern "{") as [start|] eqn:Hstart; [|reflexivity].
  destruct (Command.matchClose 0 start _) as [end_|] eqn:Hend; [|reflexivity].
  destruct (first_group pattern start end_ Hstart Hend) as (mid & Hpat & Hmid).
  rewrite Hmid.
  set (prefix := Command.slice pattern 0 start) in *.
  set (suffix := Command.slice pattern (end_ + 1) (String.length pattern)) in *.
  destruct (if Contains mid ".." then _ else _) as [expansions|] eqn:Hexp;
    [|reflexivity].
  cbn [mbind option_bind].
  pose proof (expansions_braces mid expansions Hexp) as Hall.
  assert (Hbraces : braces pattern = (braces prefix + (1 + braces mid) + (1 + braces suffix))%nat).
  { rewrite Hpat at 1. rewrite !braces_app. cbn [braces].
    change (is_brace "{") with true. change (is_brace "}") with true. cbv iota. lia. }
  erewrite mapM_ext_Forall; [reflexivity|].
  eapply Forall_impl; [exact Hall|]. intros exp Hle. cbn beta in *.
  apply IH; rewrite !braces_app; lia.
Qed.

Corollary expandBraces_any_fuel (pattern : string) (fuel : nat) :
  (String.length pattern < fuel)%nat ->
  Command.expandBraces_fuel fuel pattern = Command.expandBraces pattern.
Proof.
  intros H. pose proof (braces_le_length pattern).
  unfold Command.expandBraces. apply expandBraces_fuel_enough; lia.
Qed.

(** ** The loops of numeric ranges *)

Lemma wrap64_small (z : Z) : in_int64 z -> wrap64 z = z.
Proof.
  unfold in_int64, min_int64, max_int64, wrap64. intros H.
  rewrite Z.mod_small by lia. lia.
Qed.

Lemma wrap64_range (z : Z) : in_int64 (wrap64 z).
Proof.
  unfold in_int64, min_int64, max_int64, wrap64.
  pose proof (Z.mod_pos_bound (z + 2 ^ 63) (2 ^ 64) ltac:(lia)). lia.
Qed.

(** An ascending range that ends below the largest int is the list of
    its values. *)
Lemma count_up_ends (n : nat) : forall fuel i e,
  in_int64 i -> e < max_int64 -> Z.to_nat (e - i + 1) = n -> (n < fuel)%nat ->
  Command.count_up fuel i e = Some (map (fun k => i + Z.of_nat k) (seq 0 n)).
Proof.
  induction n as [|n IH]; intros fuel i e Hi He Hn Hfuel;
    (destruct fuel as [|fuel]; [lia|]); cbn [Command.count_up].
  - destruct (Z.leb_spec i e); [lia|reflexivity].
  - destruct (Z.leb_spec i e); [|lia].
    rewrite wrap64_small by (unfold in_int64, max_int64 in *; lia).
    rewrite (IH fuel (i + 1) e); [| unfold in_int64, max_int64 in *; lia | lia | lia | lia].
    cbn [mbind option_bind seq map]. f_equal. f_equal; [f_equal; lia|].
    rewrite <- seq_shift, map_map. apply map_ext. intros k. lia.
Qed.

Lemma count_down_ends (n : nat) : forall fuel i e,
  in_int64 i -> min_int64 < e -> Z.to_nat (i - e + 1) = n -> (n < fuel)%nat ->
  Command.count_down fuel i e = Some (map (fun k => i - Z.of_nat k) (seq 0 n)).
Proof.
  induction n as [|n IH]; intros fuel i e Hi He Hn Hfuel;
    (destruct fuel as [|fuel]; [lia|]); cbn [Command.count_down].
  - destruct (Z.leb_spec e i); [lia|reflexivity].
  - destruct (Z.leb_spec e i); [|lia].
    rewrite wrap64_small by (unfold in_int64, min_int64 in *; lia).
    rewrite (IH fuel (i - 1) e); [| unfold in_int64, min_int64 in *; lia | lia | lia | lia].
    cbn [mbind option_bind seq map]. f_equal. f_equal; [f_equal; lia|].
    rewrite <- seq_shift, map_map. apply map_ext. intros k. lia.
Qed.

(** A range that ends at the largest int never ends: whatever the fuel. *)
Lemma count_up_never_ends (fuel : nat) : forall i,
  in_int64 i -> Command.count_up fuel i max_int64 = None.
Proof.
  induction fuel as [|fuel IH]; intros i Hi; [reflexivity|].
  cbn [Command.count_up]. destruct (Z.leb_spec i max_int64) as [_|Hgt].
  - rewrite (IH _ (wrap64_range (i + 1))). reflexivity.
  - unfold in_int64 in Hi. lia.
Qed.

Lemma count_down_never_ends (fuel : nat) : forall i,
  in_int64 i -> Command.count_down fuel i min_int64 = None.
Proof.
  induction fuel as [|fuel IH]; intros i Hi; [reflexivity|].
  cbn [Command.count_down]. destruct (Z.leb_spec min_int64 i) as [_|Hgt].
  - rewrite (IH _ (wrap64_range (i - 1))). reflexivity.
  - unfold in_int64 in Hi. lia.
Qed.

(** The fuel given to the loops by [expandRange] is enough whenever the
    loop ends. *)
Lemma range_fuel_enough (s e : Z) :
  in_int64 s -> in_int64 e ->
  (s <= e -> e < max_int64 ->
   Command.count_up (Command.range_fuel s e) s e
   = Some (map (fun k => s + Z.of_nat k) (seq 0 (Z.to_nat (e - s + 1)))))
  /\ (e < s -> min_int64 < e ->
      Command.count_down (Command.range_fuel s e) s e
      = Some (map (fun k => s - Z.of_nat k) (seq 0 (Z.to_nat (s - e + 1))))).
Proof.
  intros Hs He. unfold Command.range_fuel. split; intros Hle Hlim.
  - apply count_up_ends; try assumption; lia.
  - apply count_down_ends; try assumption; lia.
Qed.

(** * Further properties *)

(** ** The paths of the patterns *)

Section Patterns.
Variable env : Env.

Lemma addUnique_spec st p :
  coherent st ->
  coherent (Command.addUnique st p)
  /\ forall q, q ∈ (Command.addUnique st p).1 <-> q ∈ st.1 \/ q = p.
Proof.
  intros [Hnd Hseen]. unfold Command.addUnique.
  destruct (bool_decide_reflect (p ∈ st.2)) as [Hin|Hout].
  - split; [split; assumption|]. intros q. split; [auto|].
    intros [Hq| ->]; [exact Hq|]. apply Hseen. exact Hin.
  - simpl. split; [split|].
    + cbn [fst snd]. apply NoDup_app. split; [exact Hnd|]. split.
      * intros q Hq Hq'. apply list_elem_of_singleton in Hq' as ->.
        apply Hout, Hseen. exact Hq.
      * apply NoDup_singleton.
    + intros q. cbn [fst snd]. rewrite elem_of_union, elem_of_singleton, elem_of_app,
        list_elem_of_singleton, Hseen. tauto.
    + intros q. cbn [fst snd]. rewrite elem_of_app, list_elem_of_singleton. tauto.
Qed.

Lemma fold_addUnique_spec matches : forall st,
  coherent st ->
  coherent (fold_left Command.addUnique matches st)
  /\ forall q, q ∈ (fold_left Command.addUnique matches st).1 <-> q ∈ st.1 \/ q ∈ matches.
Proof.
  induction matches as [|m matches IH]; intros st Hst; cbn [fold_left].
  - split; [exact Hst|]. intros q. rewrite elem_of_nil. tauto.
  - destruct (addUnique_spec st m Hst) as [Hco Hmem].
    destruct (IH _ Hco) as [Hco' Hmem'].
    split; [exact Hco'|]. intros q. rewrite Hmem', Hmem, elem_of_cons. tauto.
Qed.

Lemma globAll_spec expanded : forall st st',
  coherent st ->
  Command.globAll env st expanded = Ok st' ->
  coherent st'
  /\ forall q, q ∈ st'.1 <-> q ∈ st.1 \/ exists exp, exp ∈ expanded /\ candidate env exp q.
Proof.
  induction expanded as [|exp rest IH]; intros st st' Hst H; cbn [Command.globAll] in H.
  - injection H as <-. split; [exact Hst|]. intros q. split; [auto|].
    intros [Hq|(exp & Hexp & _)]; [exact Hq|]. apply elem_of_nil in Hexp. contradiction.
  - destruct (Glob env exp) as [matches|e] eqn:Hglob; [|discriminate].
    assert (Hstep : coherent (if (length matches =? 0)%nat then Command.addUnique st exp
                              else fold_left Command.addUnique matches st)
                    /\ forall q, q ∈ (if (length matches =? 0)%nat
                                      then Command.addUnique st exp
                                      else fold_left Command.addUnique matches st).1
                                 <-> q ∈ st.1 \/ candidate env exp q).
    { destruct matches as [|m ms]; cbn [length Nat.eqb].
      - destruct (addUnique_spec st exp Hst) as [Hco Hmem]. split; [exact Hco|].
        intros q. rewrite Hmem. unfold candidate. rewrite Hglob. split.
        + intros [Hq| ->]; [left; exact Hq|right]. exists []. auto.
        + intros [Hq|(ms & Hms & [[_ ->]|Hq])]; auto.
          injection Hms as <-. apply elem_of_nil in Hq. contradiction.
      - destruct (fold_addUnique_spec (m :: ms) st Hst) as [Hco Hmem].
        split; [exact Hco|]. intros q. rewrite Hmem. unfold candidate. rewrite Hglob.
        split.
        + intros [Hq|Hq]; [left; exact Hq|right]. exists (m :: ms). auto.
        + intros [Hq|(ms' & Hms & [[Hnil _]|Hq])]; auto.
          * injection Hms as <-. discriminate Hnil.
          * injection Hms as <-. right. exact Hq. }
    destruct Hstep as [Hco Hmem].
    destruct (IH _ _ Hco H) as [Hco' Hmem'].
    split; [exact Hco'|]. intros q. rewrite Hmem', Hmem. split.
    + intros [[Hq|Hq]|(exp' & Hexp' & Hq)]; auto.
      * right. exists exp. split; [left|exact Hq].
      * right. exists exp'. split; [right; exact Hexp'|exact Hq].
    + intros [Hq|(exp' & Hexp' & Hq)]; auto.
      apply elem_of_cons in Hexp' as [->|Hexp']; [auto|].
      right. exists exp'. auto.
Qed.

Lemma expandPatterns_go_spec patterns : forall st paths,
  coherent st ->
  Command.expandPatterns_go env st patterns = Some (Ok paths) ->
  NoDup paths
  /\ forall q, q ∈ paths <->
       q ∈ st.1 \/ exists pattern expanded exp,
                     pattern ∈ patterns /\ Command.expandBraces pattern = Some expanded
                     /\ exp ∈ expanded /\ candidate env exp q.
Proof.
  induction patterns as [|pattern rest IH]; intros st paths Hst H;
    cbn [Command.expandPatterns_go] in H.
  - injection H as <-. split; [apply Hst|]. intros q. split; [auto|].
    intros [Hq|(p & _ & _ & Hp & _)]; [exact Hq|]. apply elem_of_nil in Hp. contradiction.
  - destruct (Command.expandBraces pattern) as [expanded|] eqn:Hexp; [|discriminate].
    cbn [mbind option_bind] in H.
    destruct (Command.globAll env st expanded) as [st'|e] eqn:Hglob; [|discriminate].
    destruct (globAll_spec _ _ _ Hst Hglob) as [Hco Hmem].
    destruct (IH _ _ Hco H) as [Hnd Hmem'].
    split; [exact Hnd|]. intros q. rewrite Hmem', Hmem. split.
    + intros [[Hq|(exp & He & Hq)]|(p & ex & exp & Hp & Hex & He & Hq)]; auto.
      * right. exists pattern, expanded, exp. split; [left|auto].
      * right. exists p, ex, exp. split; [right; exact Hp|auto].
    + intros [Hq|(p & ex & exp & Hp & Hex & He & Hq)]; auto.
      apply elem_of_cons in Hp as [->|Hp].
      * rewrite Hexp in Hex. injection Hex as <-. left. right. exists exp. auto.
      * right. exists p, ex, exp. auto.
Qed.

(** The paths that [expandPatterns] gives hold no path twice, and they
    are the candidates of the expansions of the patterns: nothing is
    lost and nothing is added. *)
Theorem expandPatterns_deduplicated (patterns paths : list string) :
  Command.expandPatterns env patterns = Some (Ok paths) ->
  NoDup paths
  /\ forall q, q ∈ paths <->
       exists pattern expanded exp,
         pattern ∈ patterns /\ Command.expandBraces pattern = Some expanded
         /\ exp ∈ expanded /\ candidate env exp q.
Proof.
  intros H. unfold Command.expandPatterns in H.
  destruct (expandPatterns_go_spec patterns ([], ∅) paths) as [Hnd Hmem].
  - split; [apply NoDup_nil_2|]. intros p. cbn [fst snd]. rewrite elem_of_nil.
    split; [apply not_elem_of_empty|contradiction].
  - exact H.
  - split; [exact Hnd|]. intros q. rewrite Hmem. cbn [fst]. rewrite elem_of_nil. tauto.
Qed.
End Patterns.

Lemma expandPatterns_deduplicated_witness :
  Command.expandPatterns tree ["d/{a,b}.txt"; "d/a.txt"] = Some (Ok ["d/a.txt"; "d/b.txt"])
  /\ NoDup ["d/a.txt"; "d/b.txt"].
Proof.
  assert (H : Command.expandPatterns tree ["d/{a,b}.txt"; "d/a.txt"]
              = Some (Ok ["d/a.txt"; "d/b.txt"])) by (vm_compute; reflexivity).
  split; [exact H|].
  apply (expandPatterns_deduplicated tree ["d/{a,b}.txt"; "d/a.txt"]
           ["d/a.txt"; "d/b.txt"] H).
Defined.

Lemma Split_go_nonempty (sep s : string) : forall skip cur, Split_go sep skip cur s <> [].
Proof.
  induction s as [|c s IH]; intros skip cur; cbn [Split_go]; [discriminate|].
  destruct skip; [|apply IH]. destruct (String.prefix sep (String c s)); [discriminate|apply IH].
Qed.

Lemma mapM_nonempty {A B} (f : A -> option (list B)) (l : list A) (rs : list (list B)) :
  l <> [] -> (forall a r, f a = Some r -> r <> []) ->
  mapM f l = Some rs -> concat rs <> [].
Proof.
  intros Hl Hf H. destruct l as [|a l]; [contradiction|].
  cbn [mapM] in H. destruct (f a) as [r|] eqn:Hfa; [|discriminate].
  cbn in H. destruct (mapM f l) as [rs'|]; [|discriminate].
  cbn in H. injection H as <-. cbn [concat].
  pose proof (Hf _ _ Hfa). destruct r; [contradiction|discriminate].
Qed.

Lemma expandBraces_fuel_nonempty (fuel : nat) : forall pattern r,
  Command.expandBraces_fuel fuel pattern = Some r -> r <> [].
Proof.
  induction fuel as [|fuel IH]; intros pattern r H; [discriminate H|].
  cbn [Command.expandBraces_fuel] in H.
  destruct (Index pattern "{") as [start|]; [|injection H as <-; discriminate].
  destruct (Command.matchClose 0 start _) as [end_|]; [|injection H as <-; discriminate].
  destruct (if Contains _ ".." then _ else _) as [expansions|]; [|discriminate].
  cbn [mbind option_bind] in H.
  destruct (mapM _ _) as [results|] eqn:Hmap; [|discriminate].
  cbn [mbind option_bind] in H. injection H as <-.
  eapply mapM_nonempty; [| |exact Hmap].
  - destruct (length expansions =? 0)%nat eqn:Hlen.
    + intros Hnil. apply map_eq_nil in Hnil. revert Hnil. apply Split_go_nonempty.
    + intros ->. discriminate Hlen.
  - intros a r. apply IH.
Qed.

Section Fallback.
Variable env : Env.

Lemma addUnique_nonempty st p :
  coherent st -> (Command.addUnique st p).1 <> [].
Proof.
  intros Hst Hnil. destruct (addUnique_spec st p Hst) as [_ Hmem].
  specialize (Hmem p). rewrite Hnil in Hmem.
  destruct Hmem as [_ Hmem]. specialize (Hmem (or_intror eq_refl)).
  apply elem_of_nil in Hmem. exact Hmem.
Qed.

Lemma globAll_nonempty expanded st st' :
  coherent st -> expanded <> [] ->
  Command.globAll env st expanded = Ok st' -> st'.1 <> [].
Proof.
  intros Hst Hne H. destruct expanded as [|exp rest]; [contradiction|].
  destruct (globAll_spec env _ _ _ Hst H) as [_ Hmem].
  cbn [Command.globAll] in H.
  destruct (Glob env exp) as [matches|e] eqn:Hglob; [|discriminate].
  intros Hnil.
  assert (Hin : exists q, candidate env exp q).
  { destruct matches as [|m ms].
    - exists exp, []. auto.
    - exists m, (m :: ms). split; [exact Hglob|right; left]. }
  destruct Hin as [q Hq]. specialize (Hmem q). rewrite Hnil in Hmem.
  destruct Hmem as [_ Hmem]. eapply elem_of_nil, Hmem. right. exists exp. split; [left|exact Hq].
Qed.

Lemma expandPatterns_go_grows patterns : forall st paths,
  coherent st ->
  Command.expandPatterns_go env st patterns = Some (Ok paths) ->
  st.1 <> [] -> paths <> [].
Proof.
  induction patterns as [|pattern rest IH]; intros st paths Hst H Hne;
    cbn [Command.expandPatterns_go] in H.
  - injection H as <-. exact Hne.
  - destruct (Command.expandBraces pattern) as [expanded|] eqn:Hexp; [|discriminate].
    cbn [mbind option_bind] in H.
    destruct (Command.globAll env st expanded) as [st'|e] eqn:Hglob; [|discriminate].
    destruct (globAll_spec env _ _ _ Hst Hglob) as [Hco Hmem].
    apply (IH _ _ Hco H). intros Hnil. destruct st as [[|q l] seen]; [contradiction|].
    specialize (Hmem q). rewrite Hnil in Hmem. eapply elem_of_nil, Hmem. left. left.
Qed.

Lemma expandPatterns_some (patterns paths : list string) :
  patterns <> [] ->
  Command.expandPatterns env patterns = Some (Ok paths) ->
  paths <> [].
Proof.
  intros Hne H. destruct patterns as [|pattern rest]; [contradiction|].
  unfold Command.expandPatterns in H. cbn [Command.expandPatterns_go] in H.
  destruct (Command.expandBraces pattern) as [expanded|] eqn:Hexp; [|discriminate].
  cbn [mbind option_bind] in H.
  destruct (Command.globAll env ([], ∅) expanded) as [st'|e] eqn:Hglob; [|discriminate].
  assert (Hco0 : coherent ([], ∅)).
  { split; [apply NoDup_nil_2|]. intros p. cbn [fst snd].
    rewrite elem_of_nil. split; [apply not_elem_of_empty|contradiction]. }
  destruct (globAll_spec env _ _ _ Hco0 Hglob) as [Hco _].
  apply (expandPatterns_go_grows rest st' paths Hco H).
  apply (globAll_nonempty expanded _ _ Hco0); [|exact Hglob].
  apply (expandBraces_fuel_nonempty _ _ _ Hexp).
Qed.

(** [expandPatterns] gives at least one path for at least one pattern:
    a pattern without any match stands for itself.  The executor's
    fallback to the patterns, for an empty result, is therefore never
    taken. *)
Theorem expandPatterns_nonempty (flags : Flags) (fuel : nat)
  (patterns paths : list string) (w : World) :
  patterns <> [] ->
  Command.expandPatterns env patterns = Some (Ok paths) ->
  paths <> []
  /\ Command.Executor env flags fuel patterns w
     = Command.executePaths env flags fuel paths w.
Proof.
  intros Hne H. pose proof (expandPatterns_some patterns paths Hne H) as Hpaths.
  split; [exact Hpaths|].
  unfold Command.Executor. destruct patterns as [|p rest]; [contradiction|].
  cbn [length Nat.eqb]. rewrite H.
  unfold mbind, M_bind, lift_fuel. cbn [fmap option_fmap option_map].
  destruct paths as [|q paths]; [contradiction|]. reflexivity.
Qed.
End Fallback.

Lemma expandPatterns_nonempty_witness :
  Command.Executor tree default_flags 0 ["nothing-here"] World0
  = Command.executePaths tree default_flags 0 ["nothing-here"] World0.
Proof.
  apply (expandPatterns_nonempty tree default_flags 0 ["nothing-here"] ["nothing-here"] World0).
  - discriminate.
  - vm_compute. reflexivity.
Defined.

(** ** Groups, ranges and the text around them *)

Lemma close_free_app (a b : string) : close_free (a +:+ b) <-> close_free a /\ close_free b.
Proof. unfold close_free. rewrite las_app. apply Forall_app. Qed.

Lemma slice_from_brace (pre post : string) :
  Command.slice (pre +:+ String "{" post) (String.length pre)
    (String.length (pre +:+ String "{" post)) = String "{" post.
Proof.
  unfold Command.slice. rewrite substring_skip_app, length_app.
  replace (String.length pre + String.length (String "{" post) - String.length pre)%nat
    with (String.length (String "{" post)) by lia.
  apply substring_0_all.
Qed.

(** An opening brace that is never closed is left alone. *)
Theorem expandBraces_unclosed (pattern : string) :
  close_free pattern -> Command.expandBraces pattern = Some [pattern].
Proof.
  intros Hfree. unfold Command.expandBraces. cbn [Command.expandBraces_fuel].
  destruct (Index pattern "{") as [start|] eqn:Hstart; [|reflexivity].
  unfold Index in Hstart.
  destruct (Index_from_brace _ _ _ Hstart) as (pre & post & -> & Hs).
  cbn [Nat.add] in Hs. subst start. rewrite slice_from_brace.
  destruct (Command.matchClose 0 _ _) as [end_|] eqn:Hend; [exfalso|reflexivity].
  destruct (matchClose_brace _ _ _ _ Hend) as (mid & post' & Heq & _).
  apply close_free_app in Hfree as [_ Hfree]. rewrite Heq in Hfree.
  apply close_free_app in Hfree as [_ Hfree].
  unfold close_free in Hfree. cbn [list_ascii_of_string] in Hfree.
  apply Forall_cons in Hfree as [Hc _]. contradiction.
Qed.

Lemma expandBraces_unclosed_witness :
  close_free "{a,b" /\ Command.expandBraces "{a,b" = Some ["{a,b"].
Proof.
  assert (H : close_free "{a,b").
  { unfold close_free. cbn. repeat constructor; discriminate. }
  split; [exact H|]. apply (expandBraces_unclosed "{a,b" H).
Defined.

Lemma brace_free_braces (p : string) : brace_free p <-> braces p = 0%nat.
Proof.
  unfold brace_free. induction p as [|c p IH]; cbn [list_ascii_of_string braces].
  - split; [reflexivity|constructor].
  - rewrite Forall_cons, IH. unfold is_brace.
    destruct (Ascii.eqb_spec c "{") as [Ho|Hopen];
      destruct (Ascii.eqb_spec c "}") as [Hc|Hclose]; cbn [orb].
    + congruence.
    + split; [intros [[H _] _]; contradiction|discriminate].
    + split; [intros [[_ H] _]; contradiction|discriminate].
    + cbn [Nat.add]. split; [intros [_ H]; exact H|intros H; auto].
Qed.

Lemma matchClose_skip (mid rest : string) : forall depth i,
  brace_free mid ->
  Command.matchClose depth i (mid +:+ String "}" rest)
  = if depth - 1 =? 0 then Some (i + String.length mid)%nat
    else Command.matchClose (depth - 1) (S (i + String.length mid)) rest.
Proof.
  induction mid as [|c mid IH]; intros depth i Hfree.
  - change ("" +:+ String "}" rest) with (String "}" rest).
    cbn [Command.matchClose String.length].
    change (Ascii.eqb "}" "{") with false. rewrite Ascii.eqb_refl, Nat.add_0_r.
    reflexivity.
  - apply Forall_cons in Hfree as [[Hopen Hclose] Hfree].
    rewrite append_cons. cbn [Command.matchClose String.length].
    destruct (Ascii.eqb_spec c "{"); [contradiction|].
    destruct (Ascii.eqb_spec c "}"); [contradiction|].
    rewrite (IH _ _ Hfree). rewrite Nat.add_succ_comm. reflexivity.
Qed.

Lemma mapM_singletons {A B} (f : A -> option (list B)) (g : A -> B) (l : list A) :
  Forall (fun a => f a = Some [g a]) l -> mapM f l = Some (map (fun a => [g a]) l).
Proof.
  induction 1 as [|a l Ha _ IH]; [reflexivity|].
  cbn [mapM map]. rewrite Ha, IH. reflexivity.
Qed.

Lemma concat_singletons {A B} (g : A -> B) (l : list A) :
  concat (map (fun a => [g a]) l) = map g l.
Proof. induction l as [|a l IH]; [reflexivity|]. cbn. rewrite IH. reflexivity. Qed.

Lemma prefix_nil (s : string) : String.prefix "" s = true.
Proof. destruct s; reflexivity. Qed.

Lemma Index_from_app_l (a s : string) : forall i,
  brace_free a ->
  Index_from i (a +:+ s) "{" = Index_from (i + String.length a) s "{".
Proof.
  induction a as [|c a IH]; intros i Hfree.
  - change ("" +:+ s) with s. cbn [String.length]. rewrite Nat.add_0_r. reflexivity.
  - apply Forall_cons in Hfree as [[Hopen _] Hfree].
    rewrite append_cons. cbn [Index_from String.prefix].
    destruct (ascii_dec "{" c) as [<-|_]; [contradiction|].
    rewrite (IH _ Hfree). cbn [String.length]. f_equal. lia.
Qed.

Lemma Index_from_app_r (s b : string) : forall i,
  brace_free b -> Index_from i (s +:+ b) "{" = Index_from i s "{".
Proof.
  induction s as [|c s IH]; intros i Hfree.
  - change ("" +:+ b) with b. rewrite (Index_brace_free b i Hfree). reflexivity.
  - rewrite append_cons. cbn [Index_from String.prefix].
    destruct (ascii_dec "{" c) as [_|_]; [rewrite !prefix_nil; reflexivity|].
    apply IH. exact Hfree.
Qed.

Lemma Index_from_shift (s : string) : forall i k,
  Index_from (k + i) s "{" = (fun x => k + x)%nat <$> Index_from i s "{".
Proof.
  induction s as [|c s IH]; intros i k.
  - reflexivity.
  - cbn [Index_from String.prefix].
    destruct (ascii_dec "{" c) as [_|_]; [rewrite prefix_nil; reflexivity|].
    rewrite <- IH. f_equal. lia.
Qed.

Lemma matchClose_free (b : string) : forall depth i,
  brace_free b -> Command.matchClose depth i b = None.
Proof.
  induction b as [|c b IH]; intros depth i Hfree; [reflexivity|].
  apply Forall_cons in Hfree as [[Hopen Hclose] Hfree]. cbn [Command.matchClose].
  destruct (Ascii.eqb_spec c "{"); [contradiction|].
  destruct (Ascii.eqb_spec c "}"); [contradiction|].
  apply IH. exact Hfree.
Qed.

Lemma matchClose_app_r (t b : string) : forall depth i,
  brace_free b ->
  Command.matchClose depth i (t +:+ b) = Command.matchClose depth i t.
Proof.
  induction t as [|c t IH]; intros depth i Hfree.
  - change ("" +:+ b) with b. rewrite (matchClose_free b _ _ Hfree). reflexivity.
  - rewrite append_cons. cbn [Command.matchClose].
    destruct (Ascii.eqb c "{"); [apply IH; exact Hfree|].
    destruct (Ascii.eqb c "}"); [|apply IH; exact Hfree].
    destruct (depth - 1 =? 0); [reflexivity|apply IH; exact Hfree].
Qed.

Lemma matchClose_shift (t : string) : forall depth i k,
  Command.matchClose depth (k + i) t
  = (fun x => k + x)%nat <$> Command.matchClose depth i t.
Proof.
  induction t as [|c t IH]; intros depth i k; [reflexivity|].
  cbn [Command.matchClose]. rewrite <- !Nat.add_succ_r.
  destruct (Ascii.eqb c "{"); [apply IH|].
  destruct (Ascii.eqb c "}"); [|apply IH].
  destruct (depth - 1 =? 0); [reflexivity|apply IH].
Qed.

(** The three slices of a pattern at its first group. *)
Lemma group_slices (pre mid post : string) :
  let pattern := pre +:+ String "{" (mid +:+ String "}" post) in
  Command.slice pattern 0 (String.length pre) = pre
  /\ Command.slice pattern (String.length pre + 1)
       (S (String.length pre) + String.length mid) = mid
  /\ Command.slice pattern (S (String.length pre) + String.length mid + 1)
       (String.length pattern) = post.
Proof.
  intros pattern.
  assert (Hlen : String.length pattern
                 = (String.length pre + S (String.length mid + S (String.length post)))%nat).
  { unfold pattern. rewrite length_app. cbn [String.length]. rewrite length_app.
    reflexivity. }
  split; [|split].
  - unfold Command.slice, pattern. rewrite Nat.sub_0_r. apply substring_0_app.
  - unfold Command.slice, pattern.
    replace (pre +:+ String "{" (mid +:+ String "}" post))
      with ((pre +:+ "{") +:+ (mid +:+ String "}" post))
      by (rewrite append_assoc; reflexivity).
    replace (String.length pre + 1)%nat with (String.length (pre +:+ "{"))
      by (rewrite length_app; reflexivity).
    rewrite substring_skip_app.
    replace (S (String.length pre) + String.length mid - String.length (pre +:+ "{"))%nat
      with (String.length mid) by (rewrite length_app; cbn; lia).
    apply substring_0_app.
  - rewrite Hlen. unfold Command.slice, pattern.
    replace (pre +:+ String "{" (mid +:+ String "}" post))
      with (((pre +:+ "{") +:+ (mid +:+ "}")) +:+ post)
      by (rewrite !append_assoc; reflexivity).
    replace (S (String.length pre) + String.length mid + 1)%nat
      with (String.length ((pre +:+ "{") +:+ (mid +:+ "}")))
      by (rewrite !length_app; cbn; lia).
    rewrite substring_skip_app.
    replace (String.length pre + S (String.length mid + S (String.length post))
             - String.length ((pre +:+ "{") +:+ (mid +:+ "}")))%nat
      with (String.length post) by (rewrite !length_app; cbn; lia).
    apply substring_0_all.
Qed.

Lemma mapM_fmap {A B C} (f : A -> option B) (g : B -> C) (l : list A) :
  mapM (fun x => g <$> f x) l = map g <$> mapM f l.
Proof.
  induction l as [|x l IH]; [reflexivity|].
  cbn [mapM]. rewrite IH. destruct (f x) as [y|]; [|reflexivity].
  cbn. destruct (mapM f l); reflexivity.
Qed.

Lemma brace_free_app (a b : string) : brace_free (a +:+ b) <-> brace_free a /\ brace_free b.
Proof. unfold brace_free. rewrite las_app. apply Forall_app. Qed.

Lemma Sscanf_d_range (a : string) (v : Z) : Sscanf_d a = Some v -> in_int64 v.
Proof.
  unfold Sscanf_d. destruct (SkipSpace a) as [s0|]; [|discriminate].
  cbn [mbind option_bind].
  destruct (match s0 with
            | String c s' => if byte_eqb c 45 then (true, s')
                             else if byte_eqb c 43 then (false, s') else (false, s0)
            | EmptyString => (false, s0)
            end) as [neg rest].
  destruct (scan_token rest) as [|c tok]; [discriminate|].
  destruct (parse_digits 0 (String c tok)) as [m|]; [|discriminate].
  cbn [mbind option_bind].
  destruct (Z.leb_spec min_int64 (if neg then - m else m)); [|discriminate].
  destruct (Z.leb_spec (if neg then - m else m) max_int64); [|discriminate].
  cbn [andb]. intros [= <-]. split; assumption.
Qed.

Lemma expandRange_between (a b : string) (s e : Z) :
  Sscanf_d a = Some s -> Sscanf_d b = Some e ->
  min_int64 < e < max_int64 ->
  Command.expandRange a b = Some (map format_int (between s e)).
Proof.
  intros Ha Hb [Hlo Hhi].
  pose proof (Sscanf_d_range _ _ Ha) as Hs. pose proof (Sscanf_d_range _ _ Hb) as He.
  destruct (range_fuel_enough s e Hs He) as [Hup Hdown].
  unfold Command.expandRange, between. rewrite Ha, Hb.
  destruct (Z.leb_spec s e) as [Hle|Hgt].
  - rewrite (Hup Hle Hhi). reflexivity.
  - rewrite (Hdown Hgt Hlo). reflexivity.
Qed.

Lemma expandBraces_group (pre mid post : string) (expansions : list string) :
  brace_free pre -> brace_free mid -> brace_free post ->
  (if Contains mid ".." then
     match Split mid ".." with
     | [p0; p1] => Command.expandRange (TrimSpace p0) (TrimSpace p1)
     | _ => Some []
     end
   else Some []) = Some expansions ->
  Forall brace_free (group_expansions mid expansions) ->
  Command.expandBraces (pre +:+ String "{" (mid +:+ String "}" post))
  = Some (map (fun exp => pre +:+ exp +:+ post) (group_expansions mid expansions)).
Proof.
  intros Hpre Hmid Hpost Hexp Hfree.
  set (pattern := pre +:+ String "{" (mid +:+ String "}" post)).
  assert (Hlen : String.length pattern
                 = S (String.length pre + (String.length mid + S (String.length post)))).
  { unfold pattern. rewrite length_app. cbn [String.length]. rewrite length_app.
    cbn [String.length]. lia. }
  destruct (group_slices pre mid post) as (Hpre' & Hmid' & Hpost').
  fold pattern in Hpre', Hmid', Hpost'.
  unfold Command.expandBraces. cbn [Command.expandBraces_fuel].
  unfold Index. unfold pattern at 1.
  rewrite (Index_from_app_l pre _ 0 Hpre). cbn [Nat.add Index_from String.prefix].
  destruct (ascii_dec "{" "{") as [_|Hne]; [|contradiction]. rewrite prefix_nil.
  unfold pattern at 1 2. rewrite slice_from_brace.
  cbn [Command.matchClose]. rewrite Ascii.eqb_refl.
  rewrite (matchClose_skip mid post (0 + 1) (S (String.length pre)) Hmid).
  change (0 + 1 - 1 =? 0) with true. cbv iota.
  fold pattern.
  replace (S (String.length pre + String.length mid))
    with (S (String.length pre) + String.length mid)%nat by lia.
  rewrite Hpre', Hmid', Hpost', Hexp.
  cbn [mbind option_bind]. fold (group_expansions mid expansions).
  rewrite (mapM_singletons _ (fun exp => pre +:+ exp +:+ post)).
  - cbn [mbind option_bind]. rewrite concat_singletons. reflexivity.
  - eapply Forall_impl; [exact Hfree|]. intros exp Hexp_free. cbn beta.
    rewrite Hlen. cbn [Command.expandBraces_fuel]. unfold Index.
    rewrite (Index_brace_free _ 0); [reflexivity|].
    apply brace_free_app. split; [exact Hpre|].
    apply brace_free_app. split; assumption.
Qed.

(** A single group of comma-separated alternatives gives one string per
    alternative, in order, each trimmed and set between what stands
    before and after the group. *)
Theorem expandBraces_alternatives (pre mid post : string) :
  brace_free pre -> brace_free mid -> brace_free post ->
  Contains mid ".." = false ->
  Command.expandBraces (pre +:+ String "{" (mid +:+ String "}" post))
  = Some (map (fun item => pre +:+ TrimSpace item +:+ post) (Split mid ",")).
Proof.
  intros Hpre Hmid Hpost Hdots.
  rewrite (expandBraces_group pre mid post [] Hpre Hmid Hpost).
  - unfold group_expansions. cbn [length Nat.eqb]. rewrite map_map. reflexivity.
  - rewrite Hdots. reflexivity.
  - unfold group_expansions. cbn [length Nat.eqb].
    apply Forall_forall. intros item Hitem.
    apply list_elem_of_In, in_map_iff in Hitem as (piece & <- & Hpiece).
    apply brace_free_braces. apply brace_free_braces in Hmid.
    pose proof (Split_braces_le mid ",") as Hall. rewrite Forall_forall in Hall.
    apply list_elem_of_In, Hall in Hpiece.
    pose proof (TrimSpace_braces_le piece). lia.
Qed.

Lemma expandBraces_alternatives_witness :
  Command.expandBraces "f{a, b}.go" = Some ["fa.go"; "fb.go"].
Proof.
  assert (H1 : brace_free "f") by (unfold brace_free; cbn; repeat constructor; discriminate).
  assert (H2 : brace_free "a, b") by (unfold brace_free; cbn; repeat constructor; discriminate).
  assert (H3 : brace_free ".go") by (unfold brace_free; cbn; repeat constructor; discriminate).
  exact (expandBraces_alternatives "f" "a, b" ".go" H1 H2 H3 eq_refl).
Defined.

(** A range whose end is the largest int (ascending) or the smallest
    (descending) never ends: the loop variable wraps around before the
    loop test can fail. *)
Theorem expandRange_never_ends (a b : string) (s e : Z) :
  Sscanf_d a = Some s -> Sscanf_d b = Some e ->
  e = max_int64 \/ (e = min_int64 /\ e < s) ->
  (forall fuel,
     (if s <=? e then Command.count_up fuel s e else Command.count_down fuel s e) = None)
  /\ Command.expandRange a b = None.
Proof.
  intros Ha Hb Hend. pose proof (Sscanf_d_range _ _ Ha) as Hs.
  assert (Hloop : forall fuel,
            (if s <=? e then Command.count_up fuel s e else Command.count_down fuel s e) = None).
  { intros fuel. destruct Hend as [->|[-> Hlt]].
    - destruct (Z.leb_spec s max_int64) as [_|Hgt]; [|unfold in_int64 in Hs; lia].
      apply count_up_never_ends, Hs.
    - destruct (Z.leb_spec s min_int64) as [Hle|_]; [lia|].
      apply count_down_never_ends, Hs. }
  split; [exact Hloop|].
  unfold Command.expandRange. rewrite Ha, Hb.
  specialize (Hloop (Command.range_fuel s e)).
  destruct (s <=? e); rewrite Hloop; reflexivity.
Qed.

Lemma expandRange_never_ends_witness :
  Command.expandRange "9223372036854775806" "9223372036854775807" = None.
Proof.
  apply (expandRange_never_ends "9223372036854775806" "9223372036854775807"
           9223372036854775806 9223372036854775807);
    [reflexivity|reflexivity|left; reflexivity].
Defined.

(** A group whose content splits at the two dots into two numbers
    gives one string per integer between them, in the direction from the
    first to the second, each set between what stands before and after
    the group. *)
Theorem expandBraces_numbers (pre mid post p0 p1 : string) (s e : Z) :
  brace_free pre -> brace_free mid -> brace_free post ->
  Contains mid ".." = true ->
  Split mid ".." = [p0; p1] ->
  Sscanf_d (TrimSpace p0) = Some s -> Sscanf_d (TrimSpace p1) = Some e ->
  min_int64 < e < max_int64 ->
  Command.expandBraces (pre +:+ String "{" (mid +:+ String "}" post))
  = Some (map (fun i => pre +:+ format_int i +:+ post) (between s e)).
Proof.
  intros Hpre Hmid Hpost Hdots Hsplit Hs He Hrange.
  set (expansions := map format_int (between s e)).
  assert (Hsome : expansions <> []).
  { unfold expansions, between.
    destruct (s <=? e) eqn:Hle.
    - apply Z.leb_le in Hle. replace (Z.to_nat (e - s + 1)) with (S (Z.to_nat (e - s))) by lia.
      discriminate.
    - apply Z.leb_gt in Hle. replace (Z.to_nat (s - e + 1)) with (S (Z.to_nat (s - e))) by lia.
      discriminate. }
  assert (Hchosen : group_expansions mid expansions = expansions).
  { unfold group_expansions. destruct expansions; [contradiction|reflexivity]. }
  rewrite (expandBraces_group pre mid post expansions Hpre Hmid Hpost).
  - rewrite Hchosen. unfold expansions. rewrite map_map. reflexivity.
  - rewrite Hdots, Hsplit.
    apply (expandRange_between _ _ _ _ Hs He Hrange).
  - rewrite Hchosen. unfold expansions. apply Forall_forall. intros x Hx.
    apply list_elem_of_In, in_map_iff in Hx as (i & <- & _).
    apply brace_free_braces, braces_format_int.
Qed.

Lemma expandBraces_numbers_witness :
  Command.expandBraces "img{ 9..11 }.png" = Some ["img9.png"; "img10.png"; "img11.png"].
Proof.
  assert (H1 : brace_free "img") by (unfold brace_free; cbn; repeat constructor; discriminate).
  assert (H2 : brace_free " 9..11 ") by (unfold brace_free; cbn; repeat constructor; discriminate).
  assert (H3 : brace_free ".png") by (unfold brace_free; cbn; repeat constructor; discriminate).
  refine (expandBraces_numbers "img" " 9..11 " ".png" " 9" "11 " 9 11 H1 H2 H3
            eq_refl eq_refl eq_refl eq_refl _).
  unfold min_int64, max_int64. lia.
Defined.

Section Context.
Variables a b : string.
Hypothesis a_free : brace_free a.
Hypothesis b_free : brace_free b.

Lemma expandBraces_fuel_context (fuel : nat) : forall s,
  Command.expandBraces_fuel fuel (a +:+ s +:+ b)
  = map (fun x => a +:+ x +:+ b) <$> Command.expandBraces_fuel fuel s.
Proof.
  induction fuel as [|fuel IH]; intros s; [reflexivity|].
  cbn [Command.expandBraces_fuel]. unfold Index.
  rewrite (Index_from_app_l a (s +:+ b) 0 a_free), (Index_from_app_r s b _ b_free).
  replace (0 + String.length a)%nat with (String.length a + 0)%nat by lia.
  rewrite (Index_from_shift s 0 (String.length a)).
  destruct (Index_from 0 s "{") as [start|] eqn:Hstart; [|reflexivity].
  cbn [fmap option_fmap option_map].
  destruct (Index_from_brace _ _ _ Hstart) as (P & R & -> & Hs).
  cbn [Nat.add] in Hs. subst start.
  rewrite slice_from_brace.
  assert (Hpat : a +:+ (P +:+ String "{" R) +:+ b = (a +:+ P) +:+ String "{" (R +:+ b)).
  { rewrite !append_assoc, append_cons. reflexivity. }
  rewrite Hpat.
  replace (String.length a + String.length P)%nat with (String.length (a +:+ P))
    by apply length_app.
  rewrite slice_from_brace. cbn [Command.matchClose]. rewrite Ascii.eqb_refl.
  rewrite (matchClose_app_r R b _ _ b_free), length_app.
  replace (S (String.length a + String.length P))
    with (String.length a + S (String.length P))%nat by lia.
  rewrite (matchClose_shift R (0 + 1) (S (String.length P)) (String.length a)).
  destruct (Command.matchClose (0 + 1) (S (String.length P)) R) as [end_|] eqn:Hend.
  2:{ cbn [fmap option_fmap option_map map]. rewrite <- Hpat. reflexivity. }
  cbn [fmap option_fmap option_map].
  destruct (matchClose_brace _ _ _ _ Hend) as (mid & post & -> & ->).
  destruct (group_slices P mid post) as (HP & Hmid & Hpost).
  replace (S (String.length P + String.length mid))
    with (S (String.length P) + String.length mid)%nat by lia.
  rewrite HP, Hmid, Hpost.
  assert (Hpat' : (a +:+ P) +:+ String "{" ((mid +:+ String "}" post) +:+ b)
                  = (a +:+ P) +:+ String "{" (mid +:+ String "}" (post +:+ b))).
  { rewrite !append_assoc, append_cons. reflexivity. }
  rewrite Hpat'.
  destruct (group_slices (a +:+ P) mid (post +:+ b)) as (HP' & Hmid' & Hpost').
  rewrite length_app in HP', Hmid', Hpost'.
  replace (String.length a + (S (String.length P) + String.length mid))%nat
    with (S (String.length a + String.length P) + String.length mid)%nat by lia.
  rewrite HP', Hmid', Hpost'.
  destruct (if Contains mid ".." then _ else _) as [expansions|]; [|reflexivity].
  cbn [mbind option_bind].
  set (exps := if (length expansions =? 0)%nat then _ else _).
  erewrite (mapM_ext_Forall _
              (fun exp => map (fun x => a +:+ x +:+ b)
                          <$> Command.expandBraces_fuel fuel (P +:+ exp +:+ post))).
  2:{ apply Forall_forall. intros exp _. rewrite <- IH. f_equal.
      rewrite !append_assoc. reflexivity. }
  rewrite mapM_fmap. destruct (mapM _ exps) as [results|]; [|reflexivity].
  cbn [fmap option_fmap option_map mbind option_bind]. rewrite concat_map. reflexivity.
Qed.
End Context.

(** Text without braces around a pattern is carried over to every
    expansion unchanged: the pattern between is expanded as it would be
    on its own. *)
Theorem expandBraces_context (a s b : string) :
  brace_free a -> brace_free b ->
  Command.expandBraces (a +:+ s +:+ b)
  = map (fun x => a +:+ x +:+ b) <$> Command.expandBraces s.
Proof.
  intros Ha Hb. unfold Command.expandBraces.
  rewrite <- (expandBraces_fuel_context a b Ha Hb).
  apply expandBraces_fuel_enough.
  - pose proof (braces_le_length (a +:+ s +:+ b)). lia.
  - rewrite !braces_app.
    apply brace_free_braces in Ha, Hb. pose proof (braces_le_length s). lia.
Qed.

Lemma expandBraces_context_witness :
  Command.expandBraces "src/{a,b}{1..2}.go"
  = Some ["src/a1.go"; "src/a2.go"; "src/b1.go"; "src/b2.go"].
Proof.
  assert (Ha : brace_free "src/") by (unfold brace_free; cbn; repeat constructor; discriminate).
  assert (Hb : brace_free ".go") by (unfold brace_free; cbn; repeat constructor; discriminate).
  refine (eq_trans (expandBraces_context "src/" "{a,b}{1..2}" ".go" Ha Hb) _).
  vm_compute. reflexivity.
Defined.

(** ** The order of a sorted listing *)

Section PureSort.
Context {A : Type} (less : A -> A -> outcome bool) (lt : A -> A -> bool) (P : A -> Prop).
Hypothesis less_lt : forall a b, P a -> P b -> less a b = Done (lt a b).
Hypothesis lt_asym : forall a b, P a -> P b -> lt a b = true -> lt b a = false.
Hypothesis lt_negtrans : forall a b c, P a -> P b -> P c ->
  lt a b = false -> lt b c = false -> lt a c = false.

Lemma insert_left_descending x rp :
  P x -> Forall P rp -> descending lt rp ->
  exists rp', insert_left less x rp = Done rp' /\ rp' ≡ₚ x :: rp /\ descending lt rp'.
Proof.
  intros Hx HP Hsorted. induction Hsorted as [|y rp Hsorted IH Hy].
  - exists [x]. split; [reflexivity|]. split; [reflexivity|].
    constructor; constructor.
  - apply Forall_cons in HP as [HPy HP]. cbn [insert_left].
    rewrite (less_lt x y Hx HPy). cbn [mbind outcome_bind].
    destruct (lt x y) eqn:Hxy.
    + destruct (IH HP) as (rp' & -> & Hperm & Hdesc).
      cbn [mbind outcome_bind mret outcome_ret].
      exists (y :: rp'). split; [reflexivity|].
      split; [rewrite Hperm; apply Permutation_swap|].
      constructor; [exact Hdesc|]. rewrite Hperm. constructor; [|exact Hy].
      apply lt_asym; assumption.
    + exists (x :: y :: rp). split; [reflexivity|]. split; [reflexivity|].
      constructor; [constructor; assumption|].
      constructor; [exact Hxy|].
      rewrite Forall_forall in Hy, HP |- *. intros z Hz.
      apply (lt_negtrans x y z Hx HPy (HP z Hz) Hxy (Hy z Hz)).
Qed.

Lemma insertion_sort_ascending l : forall rp,
  Forall P rp -> Forall P l -> descending lt rp ->
  exists l', insertion_sort less rp l = Done l' /\ l' ≡ₚ rp ++ l
             /\ StronglySorted (fun a b => lt b a = false) l'.
Proof.
  induction l as [|x l IH]; intros rp HP Hl Hsorted.
  - exists (rev rp). split; [reflexivity|].
    split; [rewrite app_nil_r; apply Permutation_sym, Permutation_rev|].
    clear HP. induction Hsorted as [|y rp Hsorted IH Hy]; [constructor|].
    cbn [rev]. clear Hl.
    assert (Hsnoc : forall l0, StronglySorted (fun a b => lt b a = false) l0 ->
                      Forall (fun z => lt y z = false) l0 ->
                      StronglySorted (fun a b => lt b a = false) (l0 ++ [y])).
    { induction 1 as [|z l0 Hl0 IHl0 Hz]; intros Hall.
      - constructor; constructor.
      - apply Forall_cons in Hall as [Hyz Hall]. cbn [app].
        constructor; [apply IHl0; exact Hall|].
        apply Forall_app. split; [exact Hz|]. constructor; [exact Hyz|constructor]. }
    apply Hsnoc; [exact IH|]. apply Forall_rev. exact Hy.
  - apply Forall_cons in Hl as [Hx Hl]. cbn [insertion_sort].
    destruct (insert_left_descending x rp Hx HP Hsorted) as (rp' & -> & Hperm & Hdesc).
    cbn [mbind outcome_bind].
    destruct (IH rp') as (l' & -> & Hperm' & Hasc).
    { rewrite Hperm. constructor; assumption. }
    { exact Hl. }
    { exact Hdesc. }
    exists l'. split; [reflexivity|]. split; [|exact Hasc].
    rewrite Hperm', Hperm. apply Permutation_middle.
Qed.

(** ** Sorting with the comparison inverted *)

Variable less' : A -> A -> outcome bool.
Hypothesis less'_lt : forall a b, P a -> P b -> less' a b = Done (negb (lt a b)).

Lemma insert_left_snoc x y l :
  P x -> P y -> Forall P l -> lt x y = true ->
  forall r, insert_left less' x l = Done r ->
  insert_left less' x (l ++ [y]) = Done (r ++ [y]).
Proof.
  intros Hx Hy Hl Hxy. induction Hl as [|z l Hz Hl IH]; intros r Hr.
  - injection Hr as <-. cbn [app insert_left].
    rewrite (less'_lt x y Hx Hy), Hxy. reflexivity.
  - cbn [app insert_left] in Hr |- *. rewrite (less'_lt x z Hx Hz) in Hr |- *.
    cbn [mbind outcome_bind] in Hr |- *. destruct (negb (lt x z)).
    + destruct (insert_left less' x l) as [r0|] eqn:Hr0; [|discriminate].
      rewrite (IH r0 eq_refl). cbn [mbind outcome_bind mret outcome_ret] in Hr |- *.
      injection Hr as <-. reflexivity.
    + cbn [mret outcome_ret] in Hr |- *. injection Hr as <-. reflexivity.
Qed.

Lemma insert_left_all x l :
  P x -> Forall P l -> Forall (fun z => lt x z = false) l ->
  insert_left less' x l = Done (l ++ [x]).
Proof.
  intros Hx Hl Hall. induction Hl as [|z l Hz Hl IH]; [reflexivity|].
  apply Forall_cons in Hall as [Hxz Hall]. cbn [insert_left app].
  rewrite (less'_lt x z Hx Hz), Hxz. cbn [negb mbind outcome_bind].
  rewrite (IH Hall). reflexivity.
Qed.

Lemma insert_left_rev x rp rp' :
  P x -> Forall P rp -> descending lt rp ->
  insert_left less x rp = Done rp' ->
  insert_left less' x (rev rp) = Done (rev rp').
Proof.
  intros Hx HP Hsorted. revert rp'.
  induction Hsorted as [|y rp Hsorted IH Hy]; intros rp' Hins.
  - injection Hins as <-. reflexivity.
  - apply Forall_cons in HP as [HPy HP]. cbn [insert_left] in Hins.
    rewrite (less_lt x y Hx HPy) in Hins. cbn [mbind outcome_bind] in Hins.
    destruct (lt x y) eqn:Hxy.
    + destruct (insert_left less x rp) as [r0|] eqn:Hr0; [|discriminate].
      cbn [mbind outcome_bind mret outcome_ret] in Hins. injection Hins as <-.
      cbn [rev]. apply insert_left_snoc; try assumption.
      * apply Forall_rev. exact HP.
      * apply IH; [exact HP|reflexivity].
    + cbn [mret outcome_ret] in Hins. injection Hins as <-.
      change (rev (x :: y :: rp)) with (rev (y :: rp) ++ [x]).
      apply insert_left_all; [exact Hx|apply Forall_rev; constructor; assumption|].
      apply Forall_rev. constructor; [exact Hxy|].
      rewrite Forall_forall in Hy, HP |- *. intros z Hz.
      apply (lt_negtrans x y z Hx HPy (HP z Hz) Hxy (Hy z Hz)).
Qed.

(** The prefix of the inverted sort is the prefix of the plain sort,
    reversed; both sorts keep theirs with the rightmost element first. *)
Lemma insertion_sort_rev l : forall rp l',
  Forall P rp -> Forall P l -> descending lt rp ->
  insertion_sort less rp l = Done l' ->
  insertion_sort less' (rev rp) l = Done (rev l').
Proof.
  induction l as [|x l IH]; intros rp l' HP Hl Hsorted Hsort.
  - cbn [insertion_sort] in Hsort |- *. injection Hsort as <-. reflexivity.
  - apply Forall_cons in Hl as [Hx Hl]. cbn [insertion_sort] in Hsort |- *.
    destruct (insert_left_descending x rp Hx HP Hsorted) as (rp1 & Hins & Hperm & Hdesc).
    rewrite Hins in Hsort. cbn [mbind outcome_bind] in Hsort.
    rewrite (insert_left_rev x rp rp1 Hx HP Hsorted Hins). cbn [mbind outcome_bind].
    apply IH; try assumption. rewrite Hperm. constructor; assumption.
Qed.

Lemma sort_Slice_sorted l :
  Forall P l ->
  exists l', sort_Slice less l = Done l' /\ l' ≡ₚ l
             /\ StronglySorted (fun a b => lt b a = false) l'
             /\ sort_Slice less' l = Done (rev l').
Proof.
  intros Hl. unfold sort_Slice.
  destruct (insertion_sort_ascending l [] ltac:(constructor) Hl ltac:(constructor))
    as (l' & Hsort & Hperm & Hasc).
  exists l'. split; [exact Hsort|]. split; [exact Hperm|]. split; [exact Hasc|].
  apply (insertion_sort_rev l [] l' ltac:(constructor) Hl ltac:(constructor) Hsort).
Qed.
End PureSort.

Lemma StronglySorted_impl {A} (R1 R2 : A -> A -> Prop) (P : A -> Prop) (l : list A) :
  (forall a b, P a -> P b -> R1 a b -> R2 a b) ->
  Forall P l -> StronglySorted R1 l -> StronglySorted R2 l.
Proof.
  intros Himpl HP Hsorted. induction Hsorted as [|a l Hsorted IH Ha]; [constructor|].
  apply Forall_cons in HP as [HPa HP]. constructor; [apply IH; exact HP|].
  rewrite Forall_forall in Ha, HP |- *. intros b Hb.
  apply Himpl; [exact HPa|apply HP; exact Hb|apply Ha; exact Hb].
Qed.

Section KeyOrder.
Variable before : key -> key -> bool.
Context `{!StrictTotal before}.
Variable sortBy : string.

Lemma before_by_asym a b :
  keyed sortBy a -> keyed sortBy b ->
  before_by before sortBy a b = true -> before_by before sortBy b a = false.
Proof.
  intros [ka Ha] [kb Hb]. unfold before_by. rewrite Ha, Hb.
  apply before_asym; assumption.
Qed.

Lemma before_by_negtrans a b c :
  keyed sortBy a -> keyed sortBy b -> keyed sortBy c ->
  before_by before sortBy a b = false -> before_by before sortBy b c = false ->
  before_by before sortBy a c = false.
Proof.
  intros [ka Ha] [kb Hb] [kc Hc]. unfold before_by. rewrite Ha, Hb, Hc.
  intros Hab Hbc. destruct (before ka kc) eqn:Hac; [exfalso|reflexivity].
  destruct (decide (ka = kb)) as [->|Hne]; [congruence|].
  pose proof (sort_key_kind _ _ _ _ _ Ha Hb) as Hkind.
  rewrite (before_total _ _ Hkind Hne), negb_false_iff in Hab.
  pose proof (before_trans _ _ _ Hab Hac). congruence.
Qed.

Lemma before_by_in_order (l : list DirEntry) :
  Forall (keyed sortBy) l ->
  StronglySorted (fun a b => before_by before sortBy b a = false) l ->
  StronglySorted (in_order before sortBy) l.
Proof.
  apply StronglySorted_impl. intros a b _ _ Hab ka kb Ha Hb.
  unfold before_by in Hab. rewrite Ha, Hb in Hab. exact Hab.
Qed.
End KeyOrder.

Lemma less_A_before flags a b :
  keyed (SortBy flags) a -> keyed (SortBy flags) b ->
  Ls.less flags a b
  = Done (xorb (Reverse flags) (before_by key_ltb (SortBy flags) a b)).
Proof.
  intros [ka Ha] [kb Hb]. unfold before_by. rewrite Ha, Hb.
  apply less_A_keyed; assumption.
Qed.

Lemma less_B_before flags a b :
  keyed (SortBy flags) a -> keyed (SortBy flags) b ->
  Command.less flags a b = xorb (Reverse flags) (before_by key_before (SortBy flags) a b).
Proof.
  intros [ka Ha] [kb Hb]. unfold before_by. rewrite Ha, Hb.
  apply less_B_keyed; assumption.
Qed.

Lemma sorted_A flags (entries : list DirEntry) :
  Forall (keyed (SortBy flags)) entries ->
  exists sorted,
    sort_Slice (Ls.less (with_Reverse false flags)) entries = Done sorted
    /\ sorted ≡ₚ entries
    /\ StronglySorted (in_order key_ltb (SortBy flags)) sorted
    /\ sort_Slice (Ls.less (with_Reverse true flags)) entries = Done (rev sorted).
Proof.
  intros Hkeyed.
  destruct (sort_Slice_sorted (Ls.less (with_Reverse false flags))
              (before_by key_ltb (SortBy flags)) (keyed (SortBy flags))
              (fun a b Ha Hb => less_A_before (with_Reverse false flags) a b Ha Hb)
              (before_by_asym key_ltb (SortBy flags))
              (before_by_negtrans key_ltb (SortBy flags))
              (Ls.less (with_Reverse true flags))
              (fun a b Ha Hb => less_A_before (with_Reverse true flags) a b Ha Hb)
              entries Hkeyed)
    as (sorted & Hsort & Hperm & Hasc & Hrev).
  exists sorted. split; [exact Hsort|]. split; [exact Hperm|]. split; [|exact Hrev].
  apply before_by_in_order; [rewrite Hperm; exact Hkeyed|exact Hasc].
Qed.

Lemma sorted_B flags (entries : list DirEntry) :
  Forall (keyed (SortBy flags)) entries ->
  exists sorted,
    Command.sortEntries (with_Reverse false flags) entries = Done sorted
    /\ sorted ≡ₚ entries
    /\ StronglySorted (in_order key_before (SortBy flags)) sorted
    /\ Command.sortEntries (with_Reverse true flags) entries = Done (rev sorted).
Proof.
  intros Hkeyed. unfold Command.sortEntries.
  destruct (sort_Slice_sorted (fun e1 e2 => Done (Command.less (with_Reverse false flags) e1 e2))
              (before_by key_before (SortBy flags)) (keyed (SortBy flags))
              (fun a b Ha Hb => f_equal Done (less_B_before (with_Reverse false flags) a b Ha Hb))
              (before_by_asym key_before (SortBy flags))
              (before_by_negtrans key_before (SortBy flags))
              (fun e1 e2 => Done (Command.less (with_Reverse true flags) e1 e2))
              (fun a b Ha Hb => f_equal Done (less_B_before (with_Reverse true flags) a b Ha Hb))
              entries Hkeyed)
    as (sorted & Hsort & Hperm & Hasc & Hrev).
  exists sorted. split; [exact Hsort|]. split; [exact Hperm|]. split; [|exact Hrev].
  apply before_by_in_order; [rewrite Hperm; exact Hkeyed|exact Hasc].
Qed.

(** Without [Reverse], a directory of at most twelve entries that all
    have the chosen key comes out sorted: every entry is there once, and
    no entry stands before one with a smaller key, smaller meaning
    ascending in src/ls.go and, in the newer variant, ascending for names
    and descending for times and sizes. *)
Theorem listing_sorted (env : Env) (flags : Flags) (entries : list DirEntry) (w : World) :
  Reverse flags = false ->
  Forall (keyed (SortBy flags)) entries ->
  (length entries <= 12)%nat ->
  ctx_err env (polls w) = None ->
  (exists sorted,
     Ls.sortEntries env flags entries w = Some (Done sorted, tick w)
     /\ sorted ≡ₚ entries
     /\ StronglySorted (in_order key_ltb (SortBy flags)) sorted)
  /\ (exists sorted,
        Command.sortEntries flags entries = Done sorted
        /\ sorted ≡ₚ entries
        /\ StronglySorted (in_order key_before (SortBy flags)) sorted).
Proof.
  intros Hplain Hkeyed _ Hctx.
  assert (Hflags : with_Reverse false flags = flags).
  { destruct flags. cbn in Hplain. subst. reflexivity. }
  split.
  - destruct (sorted_A flags entries Hkeyed) as (sorted & Hsort & Hperm & Hasc & _).
    rewrite Hflags in Hsort.
    exists sorted. split; [|split; assumption].
    unfold Ls.sortEntries, mbind, M_bind, CheckContextCancellation.
    rewrite Hctx. unfold lift. rewrite Hsort. reflexivity.
  - destruct (sorted_B flags entries Hkeyed) as (sorted & Hsort & Hperm & Hasc & _).
    rewrite Hflags in Hsort.
    exists sorted. split; [exact Hsort|]. split; assumption.
Qed.

Lemma d_entries_keyed : Forall (keyed (SortBy by_time)) d_entries.
Proof. repeat (constructor; [eexists; reflexivity|]). constructor. Qed.

Lemma listing_sorted_witness :
  (exists sorted,
     Ls.sortEntries tree by_time d_entries World0 = Some (Done sorted, tick World0)
     /\ sorted ≡ₚ d_entries
     /\ StronglySorted (in_order key_ltb (SortBy by_time)) sorted)
  /\ (exists sorted,
        Command.sortEntries by_time d_entries = Done sorted
        /\ sorted ≡ₚ d_entries
        /\ StronglySorted (in_order key_before (SortBy by_time)) sorted).
Proof.
  apply (listing_sorted tree by_time d_entries World0).
  - reflexivity.
  - exact d_entries_keyed.
  - cbn. lia.
  - reflexivity.
Defined.

(** With [Reverse] the same directory comes out in exactly the opposite
    order, in both variants. *)
Theorem reverse_listing (env : Env) (flags : Flags) (entries : list DirEntry) (w : World) :
  Forall (keyed (SortBy flags)) entries ->
  (length entries <= 12)%nat ->
  ctx_err env (polls w) = None ->
  (exists sorted,
     Ls.sortEntries env (with_Reverse false flags) entries w = Some (Done sorted, tick w)
     /\ Ls.sortEntries env (with_Reverse true flags) entries w
        = Some (Done (rev sorted), tick w))
  /\ (exists sorted,
        Command.sortEntries (with_Reverse false flags) entries = Done sorted
        /\ Command.sortEntries (with_Reverse true flags) entries = Done (rev sorted)).
Proof.
  intros Hkeyed _ Hctx. split.
  - destruct (sorted_A flags entries Hkeyed) as (sorted & Hsort & _ & _ & Hrev).
    exists sorted.
    unfold Ls.sortEntries, mbind, M_bind, CheckContextCancellation.
    rewrite Hctx. unfold lift. rewrite Hsort, Hrev. split; reflexivity.
  - destruct (sorted_B flags entries Hkeyed) as (sorted & Hsort & _ & _ & Hrev).
    exists sorted. split; assumption.
Qed.

Lemma reverse_listing_witness :
  (exists sorted,
     Ls.sortEntries tree (with_Reverse false by_time) d_entries World0
     = Some (Done sorted, tick World0)
     /\ Ls.sortEntries tree (with_Reverse true by_time) d_entries World0
        = Some (Done (rev sorted), tick World0))
  /\ (exists sorted,
        Command.sortEntries (with_Reverse false by_time) d_entries = Done sorted
        /\ Command.sortEntries (with_Reverse true by_time) d_entries = Done (rev sorted)).
Proof.
  apply (reverse_listing tree by_time d_entries World0).
  - exact d_entries_keyed.
  - cbn. lia.
  - reflexivity.
Defined.

(** ** Paths that are not directories *)

Section Plain.
Variable env : Env.
Variable flags : Flags.
Hypothesis never : forall k, ctx_err env k = None.
Hypothesis short : LongFormat flags = false.

Lemma listPath_plain fuel path w :
  plain env path ->
  Ls.listPath env flags (S fuel) path w
  = Some (Done (if Stat env path is Err e then Some e else None),
          after 1 (found env [path]) w).
Proof.
  unfold plain, found. intros Hplain. cbn [Ls.listPath flat_map].
  unfold mbind at 1, M_bind. rewrite (poll_never env never).
  destruct (Stat env path) as [info|e].
  - rewrite Hplain. cbn [negb]. unfold mbind, M_bind.
    rewrite (printFile_short env flags _ _ _ short). rewrite after_after. reflexivity.
  - reflexivity.
Qed.

Lemma executePaths_plain fuel n paths : forall i w,
  Forall (plain env) paths ->
  Ls.executePaths env flags (S fuel) n i paths w
  = Some (Done None,
          {| stdout := stdout w ++ (if (1 <? n)%nat then announced env i paths
                                    else found env paths);
             stderr := stderr w ++ missing env paths;
             polls := polls w + 2 * length paths |}).
Proof.
  induction paths as [|path rest IH]; intros i w Hplain.
  - unfold mret, M_ret. cbn [Ls.executePaths announced found missing flat_map length].
    rewrite Nat.mul_0_r, Nat.add_0_r.
    destruct w as [out err k], (1 <? n)%nat; cbn [stdout stderr polls];
      rewrite !app_nil_r; reflexivity.
  - apply Forall_cons in Hplain as [Hpath Hrest].
    cbn [Ls.executePaths]. unfold mbind at 1, M_bind. rewrite (poll_never env never).
    unfold mbind at 1, M_bind.
    assert (Hhead : forall w0,
              (if (1 <? n)%nat && (0 <? i)%nat then Fprintln_stdout "" else mret ()) w0
              = Some (Done (), after 0 (if (1 <? n)%nat && (0 <? i)%nat then [""] else []) w0)).
    { intros w0. destruct (_ && _).
      - unfold Fprintln_stdout, after. rewrite Nat.add_0_r. reflexivity.
      - rewrite after_0. reflexivity. }
    rewrite Hhead. unfold mbind at 1, M_bind.
    assert (Hname : forall w0,
              (if (1 <? n)%nat then Fprintln_stdout (path +:+ ":") else mret ()) w0
              = Some (Done (), after 0 (if (1 <? n)%nat then [path +:+ ":"] else []) w0)).
    { intros w0. destruct (1 <? n)%nat.
      - unfold Fprintln_stdout, after. rewrite Nat.add_0_r. reflexivity.
      - rewrite after_0. reflexivity. }
    rewrite Hname. unfold mbind at 1, M_bind.
    rewrite (listPath_plain fuel path _ Hpath). rewrite !after_after.
    unfold mbind at 1, M_bind. unfold plain in Hpath. unfold found, missing.
    cbn [flat_map]. cbn [announced]. unfold found. cbn [flat_map].
    destruct (Stat env path) as [info|e]; cbn [mbind option_bind].
    + unfold mret at 1, M_ret. rewrite (IH (S i) _ Hrest).
      f_equal. f_equal. unfold after. cbn [stdout stderr polls length].
      f_equal; [|lia].
      rewrite <- !app_assoc. f_equal.
      destruct (1 <? n)%nat; cbn [andb app]; [|reflexivity].
      destruct (0 <? i)%nat; reflexivity.
    + unfold Fprintln_stderr at 1. cbn [stdout stderr polls].
      rewrite (IH (S i) _ Hrest).
      f_equal. f_equal. unfold after. cbn [stdout stderr polls length].
      f_equal; [|rewrite <- app_assoc; reflexivity|lia].
      rewrite <- !app_assoc. f_equal.
      destruct (1 <? n)%nat; cbn [andb app]; [|reflexivity].
      destruct (0 <? i)%nat; reflexivity.
Qed.
End Plain.

(** src/ls.go on paths that are files or missing, in short form and
    with a context that is never done: each file gives its base name
    and each missing path a diagnostic, whatever the other flags; with
    more than one path each is announced by a header, all but the first
    after an empty line; and the result is nil, also when every path is
    missing. *)
Theorem Execute_plain_paths (env : Env) (flags : Flags) (fuel : nat)
  (paths : list string) (w : World) :
  (forall k, ctx_err env k = None) ->
  LongFormat flags = false ->
  paths <> [] ->
  Forall (plain env) paths ->
  Ls.Execute env flags (S fuel) paths w
  = Some (Done None,
          {| stdout := stdout w ++ (if (1 <? length paths)%nat
                                    then announced env 0 paths
                                    else found env paths);
             stderr := stderr w ++ missing env paths;
             polls := polls w + 1 + 2 * length paths |}).
Proof.
  intros Hnever Hshort Hsome Hplain. unfold Ls.Execute.
  unfold mbind at 1, M_bind. rewrite (poll_never env Hnever).
  destruct paths as [|p rest]; [contradiction|].
  cbn [length Nat.eqb].
  rewrite (executePaths_plain env flags Hnever Hshort fuel _ _ 0 _ Hplain).
  unfold after. cbn [stdout stderr polls length]. rewrite app_nil_r.
  reflexivity.
Qed.

Lemma Execute_plain_paths_witness :
  Ls.Execute tree (with_Recursive true default_flags) 1 ["d/b.txt"; "nope"; "d/.hidden"] World0
  = Some (Done None,
          {| stdout := ["d/b.txt:"; "b.txt"; ""; "nope:"; ""; "d/.hidden:"; ".hidden"];
             stderr := ["ls: nope: stat nope: no such file or directory"];
             polls := 7 |}).
Proof.
  apply (Execute_plain_paths tree (with_Recursive true default_flags) 0
           ["d/b.txt"; "nope"; "d/.hidden"] World0).
  - reflexivity.
  - reflexivity.
  - discriminate.
  - repeat constructor.
Defined.

Section PlainNewer.
Variable env : Env.
Variable flags : Flags.
Hypothesis short : LongFormat flags = false.

Lemma executePaths_B_plain fuel paths : forall w,
  Forall (plain env) paths ->
  Command.executePaths env flags fuel paths w
  = Some (Done None,
          {| stdout := stdout w ++ found env paths;
             stderr := stderr w ++ missing env paths;
             polls := polls w |}).
Proof.
  induction paths as [|path rest IH]; intros w Hplain.
  - unfold mret, M_ret. cbn [Command.executePaths found missing flat_map].
    destruct w as [out err k]; cbn [stdout stderr polls]; rewrite !app_nil_r; reflexivity.
  - apply Forall_cons in Hplain as [Hpath Hrest].
    cbn [Command.executePaths]. unfold plain in Hpath. unfold found, missing.
    cbn [flat_map]. destruct (Stat env path) as [info|e]; cbn [mbind option_bind].
    + rewrite Hpath. cbn [negb]. unfold Command.formatEntry. rewrite short.
      unfold mbind, M_bind, mret, M_ret, Fprintln_stdout.
      rewrite (IH _ Hrest). cbn [stdout stderr polls]. unfold found, missing.
      rewrite <- app_assoc. reflexivity.
    + unfold mbind, M_bind, Fprintln_stderr.
      rewrite (IH _ Hrest). cbn [stdout stderr polls]. unfold found, missing.
      rewrite <- app_assoc. reflexivity.
Qed.
End PlainNewer.

(** The newer variant on patterns whose expansion gives only files and
    missing paths, in short form: the same lines, but no header and no
    empty line however many paths there are. *)
Theorem Executor_plain_paths (env : Env) (flags : Flags) (fuel : nat)
  (patterns paths : list string) (w : World) :
  LongFormat flags = false ->
  patterns <> [] ->
  Command.expandPatterns env patterns = Some (Ok paths) ->
  Forall (plain env) paths ->
  Command.Executor env flags fuel patterns w
  = Some (Done None,
          {| stdout := stdout w ++ found env paths;
             stderr := stderr w ++ missing env paths;
             polls := polls w |}).
Proof.
  intros Hshort Hsome Hexp Hplain. unfold Command.Executor.
  destruct patterns as [|p rest]; [contradiction|]. cbn [length Nat.eqb].
  rewrite Hexp. unfold mbind, M_bind, lift_fuel. cbn [fmap option_fmap option_map].
  assert (Hpaths : paths <> []).
  { apply (expandPatterns_some env (p :: rest) paths); [discriminate|exact Hexp]. }
  destruct paths as [|q paths]; [contradiction|]. cbn [length Nat.eqb].
  apply executePaths_B_plain; assumption.
Qed.

Lemma Executor_plain_paths_witness :
  Command.Executor tree (with_Recursive true default_flags) 0
    ["d/{b.txt,.hidden}"; "nope"; "d/b.txt"] World0
  = Some (Done None,
          {| stdout := ["b.txt"; ".hidden"];
             stderr := ["ls: nope: stat nope: no such file or directory"];
             polls := 0 |}).
Proof.
  apply (Executor_plain_paths tree (with_Recursive true default_flags) 0
           ["d/{b.txt,.hidden}"; "nope"; "d/b.txt"] ["d/b.txt"; "d/.hidden"; "nope"] World0).
  - reflexivity.
  - discriminate.
  - vm_compute. reflexivity.
  - repeat constructor.
Defined.

(** ** What the executors return *)

Lemma bind_Done {A B} (m : M A) (k : A -> M B) w r w' :
  (m ≫= k) w = Some (Done r, w') ->
  exists a w1, m w = Some (Done a, w1) /\ k a w1 = Some (Done r, w').
Proof.
  unfold mbind, M_bind. destruct (m w) as [[[a|msg] w1]|]; [|discriminate..].
  intros H. exists a, w1. split; [reflexivity|exact H].
Qed.

Lemma poll_Done env w c w1 :
  CheckContextCancellation env w = Some (Done c, w1) ->
  c = ctx_err env (polls w) /\ polls w1 = S (polls w).
Proof. unfold CheckContextCancellation. intros [= <- <-]. split; reflexivity. Qed.

Section Returned.
Variable env : Env.
Variable flags : Flags.

Lemma executePaths_error fuel n paths : forall i w e w',
  Ls.executePaths env flags fuel n i paths w = Some (Done (Some e), w') ->
  exists k, polls w' = S k /\ ctx_err env k = Some e.
Proof.
  induction paths as [|path rest IH]; intros i w e w' H.
  - discriminate H.
  - cbn [Ls.executePaths] in H.
    apply bind_Done in H as (c & w1 & Hpoll & H).
    apply poll_Done in Hpoll as [-> Hpolls].
    destruct (ctx_err env (polls w)) as [e0|] eqn:Hctx.
    + injection H as <- <-. exists (polls w). split; assumption.
    + apply bind_Done in H as (? & w2 & _ & H).
      apply bind_Done in H as (? & w3 & _ & H).
      apply bind_Done in H as (r & w4 & _ & H).
      apply bind_Done in H as (? & w5 & _ & H).
      apply (IH _ _ _ _ H).
Qed.

Lemma executePaths_B_nil fuel paths : forall w r w',
  Command.executePaths env flags fuel paths w = Some (Done r, w') -> r = None.
Proof.
  induction paths as [|path rest IH]; intros w r w' H.
  - injection H as <- _. reflexivity.
  - cbn [Command.executePaths] in H.
    apply bind_Done in H as (? & w1 & _ & H). apply (IH _ _ _ H).
Qed.

Lemma globAll_error expanded : forall st e,
  Command.globAll env st expanded = Err e ->
  exists exp ge, exp ∈ expanded /\ Glob env exp = Err ge
                 /\ e = Errorf ("invalid pattern " +:+ exp +:+ ": " +:+ Error ge).
Proof.
  induction expanded as [|exp rest IH]; intros st e H; [discriminate H|].
  cbn [Command.globAll] in H. destruct (Glob env exp) as [matches|ge] eqn:Hglob.
  - destruct (IH _ _ H) as (exp' & ge & Hin & Hrest).
    exists exp', ge. split; [right; exact Hin|exact Hrest].
  - injection H as <-. exists exp, ge. split; [left|]. split; [exact Hglob|reflexivity].
Qed.

Lemma expandPatterns_go_error patterns : forall st e,
  Command.expandPatterns_go env st patterns = Some (Err e) ->
  exists pattern expanded exp ge,
    pattern ∈ patterns /\ Command.expandBraces pattern = Some expanded
    /\ exp ∈ expanded /\ Glob env exp = Err ge
    /\ e = Errorf ("invalid pattern " +:+ exp +:+ ": " +:+ Error ge).
Proof.
  induction patterns as [|pattern rest IH]; intros st e H; [discriminate H|].
  cbn [Command.expandPatterns_go] in H.
  destruct (Command.expandBraces pattern) as [expanded|] eqn:Hexp; [|discriminate].
  cbn [mbind option_bind] in H.
  destruct (Command.globAll env st expanded) as [st'|e'] eqn:Hglob.
  - destruct (IH _ _ H) as (pattern' & expanded' & exp & ge & Hin & Hrest).
    exists pattern', expanded', exp, ge. split; [right; exact Hin|exact Hrest].
  - injection H as <-. destruct (globAll_error _ _ _ Hglob) as (exp & ge & Hin & Hg & He).
    exists pattern, expanded, exp, ge. split; [left|]. auto.
Qed.
End Returned.

(** src/ls.go returns an error only when the context is done: the error
    is the answer of its last poll.  A path that is missing or cannot be
    read is reported on stderr and the result is nil. *)
Theorem Execute_error_is_cancellation (env : Env) (flags : Flags) (fuel : nat)
  (positional : list string) (w w' : World) (e : error) :
  Ls.Execute env flags fuel positional w = Some (Done (Some e), w') ->
  exists k, polls w' = S k /\ ctx_err env k = Some e.
Proof.
  unfold Ls.Execute. intros H.
  apply bind_Done in H as (c & w1 & Hpoll & H).
  apply poll_Done in Hpoll as [-> Hpolls].
  destruct (ctx_err env (polls w)) as [e0|] eqn:Hctx.
  - injection H as <- <-. exists (polls w). split; assumption.
  - apply (executePaths_error env flags _ _ _ _ _ _ _ H).
Qed.

Lemma Execute_error_is_cancellation_witness :
  exists k, polls {| stdout := ["d/a.txt:"; "a.txt"]; stderr := []; polls := 4 |} = S k
            /\ ctx_err (mkTree tree_dirs tree_files (done_from 3 Canceled)) k = Some Canceled.
Proof.
  apply (Execute_error_is_cancellation
           (mkTree tree_dirs tree_files (done_from 3 Canceled)) default_flags 1
           ["d/a.txt"; "d"] World0).
  vm_compute. reflexivity.
Defined.

(** The newer variant returns an error only for a pattern that
    [filepath.Glob] refuses: one of the expansions of a pattern given.
    It has then written a single line, on stderr, and listed nothing. *)
Theorem Executor_error_is_bad_pattern (env : Env) (flags : Flags) (fuel : nat)
  (positional : list string) (w w' : World) (e : error) :
  Command.Executor env flags fuel positional w = Some (Done (Some e), w') ->
  exists pattern expanded exp ge,
    pattern ∈ (if (length positional =? 0)%nat then ["."] else positional)
    /\ Command.expandBraces pattern = Some expanded
    /\ exp ∈ expanded /\ Glob env exp = Err ge
    /\ e = Errorf ("invalid pattern " +:+ exp +:+ ": " +:+ Error ge)
    /\ w' = {| stdout := stdout w;
               stderr := stderr w ++ ["ls: invalid pattern " +:+ exp +:+ ": " +:+ Error ge];
               polls := polls w |}.
Proof.
  unfold Command.Executor. intros H.
  apply bind_Done in H as (r & w1 & Hexp & H).
  unfold lift_fuel in Hexp.
  destruct (Command.expandPatterns env _) as [r0|] eqn:Hpat; [|discriminate].
  cbn [fmap option_fmap option_map] in Hexp. injection Hexp as <- <-.
  destruct r0 as [paths|e0].
  - apply executePaths_B_nil in H. discriminate H.
  - apply bind_Done in H as (? & w2 & Hprint & H).
    injection H as <- <-. unfold Fprintln_stderr in Hprint. injection Hprint as <-.
    destruct (expandPatterns_go_error env _ _ _ Hpat)
      as (pattern & expanded & exp & ge & Hin & Hbr & Hexp & Hglob & ->).
    exists pattern, expanded, exp, ge. repeat (split; [assumption|]).
    split; [reflexivity|]. subst w2. reflexivity.
Qed.

Lemma Executor_error_is_bad_pattern_witness :
  exists pattern expanded exp ge,
    pattern ∈ ["x"; "{a,[}"]
    /\ Command.expandBraces pattern = Some expanded
    /\ exp ∈ expanded /\ Glob bad_pattern exp = Err ge
    /\ Errorf "invalid pattern [: syntax error in pattern"
       = Errorf ("invalid pattern " +:+ exp +:+ ": " +:+ Error ge)
    /\ {| stdout := []; stderr := ["ls: invalid pattern [: syntax error in pattern"];
          polls := 0 |}
       = {| stdout := stdout World0;
            stderr := stderr World0 ++ ["ls: invalid pattern " +:+ exp +:+ ": " +:+ Error ge];
            polls := polls World0 |}.
Proof.
  apply (Executor_error_is_bad_pattern bad_pattern default_flags 0 ["x"; "{a,[}"] World0).
  vm_compute. reflexivity.
Defined.

(** ** The walk of the newer variant *)

Section Walk.
Variable env : Env.
Variable flags : Flags.
Variable dirPath : string.

Lemma visit_result path d err w r w' :
  Command.visit env flags dirPath path (Some d) err w = Some (Done r, w') ->
  r = None \/ (r = Some SkipDir /\ IsDir d = true /\ err = None).
Proof.
  unfold Command.visit. destruct err as [e|].
  - intros H. apply bind_Done in H as (? & w1 & _ & H). injection H as <- _. left. reflexivity.
  - destruct (_ && _).
    + destruct (IsDir d) eqn:Hdir; intros H; injection H as <- _; auto.
    + destruct (Info d) as [info|e]; intros H.
      * apply bind_Done in H as (? & w1 & _ & H).
        apply bind_Done in H as (? & w2 & _ & H). injection H as <- _. left. reflexivity.
      * apply bind_Done in H as (? & w1 & _ & H). injection H as <- _. left. reflexivity.
Qed.

Lemma walkEntries_nil rec path dirs :
  (forall p d w r w', rec p d w = Some (Done r, w') -> r = None) ->
  forall w r w',
    walkEntries rec path dirs w = Some (Done r, w') -> r = None.
Proof.
  intros Hrec. induction dirs as [|d1 rest IH]; intros w r w' H.
  - injection H as <- _. reflexivity.
  - cbn [walkEntries] in H. apply bind_Done in H as (err & w1 & Hd1 & H).
    rewrite (Hrec _ _ _ _ _ Hd1) in H. apply (IH _ _ _ H).
Qed.

Lemma walkDir_nil fuel : forall path d w r w',
  walkDir env (Command.visit env flags dirPath) fuel path d w = Some (Done r, w') ->
  r = None.
Proof.
  induction fuel as [|fuel IH]; intros path d w r w' H; [discriminate H|].
  cbn [walkDir] in H. apply bind_Done in H as (err & w1 & Hvisit & H).
  apply visit_result in Hvisit.
  destruct (bool_decide (err ≠ None) || negb (IsDir d)) eqn:Hstop.
  - injection H as <- _. unfold skipped.
    destruct Hvisit as [->|(-> & Hdir & _)]; [|rewrite Hdir].
    + destruct (_ && _); reflexivity.
    + reflexivity.
  - destruct (ReadDir env path) as [dirs rerr].
    apply bind_Done in H as (err2 & w2 & Hread & H).
    assert (Herr2 : err2 = None).
    { destruct rerr as [e|].
      - apply visit_result in Hread as [->|(_ & _ & Habs)]; [reflexivity|discriminate].
      - injection Hread as <- _. reflexivity. }
    subst err2. apply (walkEntries_nil _ _ _ (IH) _ _ _ H).
Qed.
End Walk.

(** The recursive listing of the newer variant never returns an error:
    whatever cannot be read is reported on stderr by the walk itself,
    and a skipped directory ends nothing but its own visit. *)
Theorem listRecursive_returns_nil (env : Env) (flags : Flags) (fuel : nat)
  (dirPath : string) (w w' : World) (r : option error) :
  Command.listRecursive env flags fuel dirPath w = Some (Done r, w') -> r = None.
Proof.
  unfold Command.listRecursive, WalkDir. intros H.
  apply bind_Done in H as (err & w1 & Hwalk & H).
  assert (Herr : err = None).
  { destruct (Lstat env dirPath) as [info|e].
    - apply (walkDir_nil _ _ _ _ _ _ _ _ _ Hwalk).
    - unfold Command.visit in Hwalk.
      apply bind_Done in Hwalk as (? & w2 & _ & Hwalk). injection Hwalk as <- _.
      reflexivity. }
  subst err. injection H as <- _. reflexivity.
Qed.

Lemma listRecursive_returns_nil_witness :
  Command.listRecursive tree default_flags 3 "d" World0
  = Some (Done None,
          {| stdout := ["d"; "a.txt"; "b.txt"; "sub"; "f"]; stderr := []; polls := 0 |})
  /\ @None error = None.
Proof.
  assert (H : Command.listRecursive tree default_flags 3 "d" World0
              = Some (Done None,
                      {| stdout := ["d"; "a.txt"; "b.txt"; "sub"; "f"]; stderr := [];
                         polls := 0 |})) by (vm_compute; reflexivity).
  split; [exact H|].
  apply (listRecursive_returns_nil tree default_flags 3 "d" World0 _ _ H).
Defined.

Section WalkAppends.
Variable env : Env.
Variable flags : Flags.
Variable dirPath : string.

Lemma appends_formatEntry path info : appends (Command.formatEntry env flags path info).
Proof.
  unfold Command.formatEntry, Command.formatLong.
  destruct (LongFormat flags); [|auto with appends].
  apply appends_bind; [|auto with appends].
  destruct (HumanReadable flags); auto with appends.
Qed.

Lemma appends_visit path d err : appends (Command.visit env flags dirPath path d err).
Proof.
  unfold Command.visit. destruct err as [e|].
  { apply appends_bind; auto with appends. }
  destruct d as [d|]; [|auto with appends].
  destruct (_ && _); [destruct (IsDir d); auto with appends|].
  destruct (Info d) as [info|e].
  - apply appends_bind; [apply appends_formatEntry|]. intros line.
    apply appends_bind; auto with appends.
  - apply appends_bind; auto with appends.
Qed.

Lemma appends_walkEntries rec path dirs :
  (forall p d, appends (rec p d)) -> appends (walkEntries rec path dirs).
Proof.
  intros Hrec. induction dirs as [|d1 rest IH]; cbn [walkEntries].
  - auto with appends.
  - apply appends_bind; [apply Hrec|]. intros [e|]; [|exact IH].
    destruct (bool_decide _); auto with appends.
Qed.

Lemma appends_walkDir fuel : forall path d,
  appends (walkDir env (Command.visit env flags dirPath) fuel path d).
Proof.
  induction fuel as [|fuel IH]; intros path d; cbn [walkDir].
  - auto with appends.
  - apply appends_bind; [apply appends_visit|]. intros err.
    destruct (_ || _); [auto with appends|].
    destruct (ReadDir env path) as [dirs rerr].
    apply appends_bind.
    + destruct rerr; [apply appends_visit|auto with appends].
    + intros [e|]; [auto with appends|]. apply appends_walkEntries. exact IH.
Qed.
End WalkAppends.

Lemma bind_starts {A B} (m : M A) (k : A -> M B) (x : string) w r w' :
  (forall r1 w1, m w = Some (r1, w1) -> exists out, stdout w1 = stdout w ++ x :: out) ->
  (forall a, appends (k a)) ->
  (m ≫= k) w = Some (r, w') ->
  exists out, stdout w' = stdout w ++ x :: out.
Proof.
  intros Hm Hk H. unfold mbind, M_bind in H.
  destruct (m w) as [[[a|msg] w1]|] eqn:Hmw; [| |discriminate].
  - destruct (Hm _ _ eq_refl) as [out1 H1], (Hk a _ _ _ H) as [out2 H2].
    exists (out1 ++ out2). rewrite H2, H1, <- app_assoc. reflexivity.
  - injection H as _ <-. apply (Hm _ _ eq_refl).
Qed.

Lemma visit_root (env : Env) (flags : Flags) (dirPath : string) (d : DirEntry)
  (info : FileInfo) (w : World) :
  Info d = Ok info -> LongFormat flags = false ->
  Command.visit env flags dirPath dirPath (Some d) None w
  = Some (Done None,
          {| stdout := stdout w ++ [Base dirPath]; stderr := stderr w; polls := polls w |}).
Proof.
  intros Hinfo Hshort. unfold Command.visit.
  rewrite String.eqb_refl, andb_false_r, Hinfo.
  unfold Command.formatEntry. rewrite Hshort. reflexivity.
Qed.

(** The recursive listing of the newer variant starts with the
    directory itself: the first line is the base name of the path
    given, also when that name begins with a dot and hidden entries are
    not asked for. *)
Theorem listRecursive_lists_root (env : Env) (flags : Flags) (fuel : nat)
  (dirPath : string) (info : FileInfo) (w w' : World) (r : outcome (option error)) :
  Lstat env dirPath = Ok info ->
  LongFormat flags = false ->
  Command.listRecursive env flags (S fuel) dirPath w = Some (r, w') ->
  exists rest, stdout w' = stdout w ++ Base dirPath :: rest.
Proof.
  intros Hlstat Hshort H. unfold Command.listRecursive, WalkDir in H.
  rewrite Hlstat in H. cbn [walkDir] in H.
  revert H. apply bind_starts.
  - intros r1 w1. apply bind_starts.
    + intros r2 w2. rewrite (visit_root env flags dirPath (FileInfoToDirEntry (Base dirPath) info)
                 info w eq_refl Hshort).
      intros [= <- <-]. exists []. reflexivity.
    + intros err. destruct (_ || _); [auto with appends|].
      destruct (ReadDir env dirPath) as [dirs rerr].
      apply appends_bind.
      * destruct rerr; [apply appends_visit|auto with appends].
      * intros [e|]; [auto with appends|].
        apply appends_walkEntries. apply appends_walkDir.
  - intros err. destruct (_ || _); auto with appends.
Qed.

Lemma listRecursive_lists_root_witness :
  exists rest, stdout {| stdout := [".git"; "config"]; stderr := []; polls := 0 |}
               = stdout World0 ++ Base "./.git" :: rest.
Proof.
  apply (listRecursive_lists_root
           (mkTree [("./.git", [file_entry "config" 1 1])] [("./.git/config", file_info 1 1)]
                   never_done)
           default_flags 2 "./.git" dir_info World0 _ (Done None)).
  - reflexivity.
  - reflexivity.
  - vm_compute. reflexivity.
Defined.

(** Below the directory listed, an entry whose name begins with a dot
    is passed over without a line, and when it is a directory nothing
    in it is read or listed. *)
Theorem walk_prunes_hidden (env : Env) (flags : Flags) (fuel : nat)
  (dirPath path : string) (d : DirEntry) (w : World) :
  AllFiles flags = false ->
  HasPrefix (Name d) "." = true ->
  path <> dirPath ->
  walkDir env (Command.visit env flags dirPath) (S fuel) path d w = Some (Done None, w).
Proof.
  intros Hall Hdot Hpath. cbn [walkDir]. unfold Command.visit.
  rewrite Hall, Hdot. apply String.eqb_neq in Hpath. rewrite Hpath. cbn [negb andb].
  unfold mbind, M_bind. destruct (IsDir d) eqn:Hdir.
  - unfold mret at 1, M_ret. cbn [orb negb]. unfold skipped. rewrite Hdir. reflexivity.
  - unfold mret at 1, M_ret. cbn [orb negb bool_decide]. unfold skipped.
    rewrite Hdir, andb_false_r.
    destruct (bool_decide (None ≠ None)); reflexivity.
Qed.

Lemma walk_prunes_hidden_witness :
  walkDir tree (Command.visit tree default_flags "d") 1 "d/.git" (dir_entry ".git") World0
  = Some (Done None, World0).
Proof.
  apply (walk_prunes_hidden tree default_flags 0 "d" "d/.git" (dir_entry ".git") World0).
  - reflexivity.
  - reflexivity.
  - discriminate.
Defined.

(** ** The lines of one directory *)

Section Reports.
Variable env : Env.
Variable flags : Flags.
Hypothesis short : LongFormat flags = false.

Lemma printEntries_B_reports dirPath filtered : forall w,
  Forall (fun e => valid_name (Name e)) filtered ->
  Command.printEntries env flags dirPath filtered w
  = Some (Done (),
          {| stdout := stdout w ++ listed filtered;
             stderr := stderr w ++ reported dirPath filtered;
             polls := polls w |}).
Proof.
  intros w Hnames. revert w.
  induction Hnames as [|entry rest Hname _ IH]; intros w.
  - unfold mret, M_ret. cbn [Command.printEntries listed reported flat_map].
    destruct w as [out err k]; cbn [stdout stderr polls]. rewrite !app_nil_r. reflexivity.
  - cbn [Command.printEntries]. unfold listed, reported. cbn [flat_map].
    destruct (Info entry) as [info|e].
    + unfold Command.formatEntry. rewrite short.
      unfold mbind, M_bind, mret, M_ret, Fprintln_stdout.
      rewrite IH, (Base_Join _ _ Hname). cbn [stdout stderr polls].
      rewrite <- app_assoc. reflexivity.
    + unfold mbind, M_bind, Fprintln_stderr.
      rewrite IH. cbn [stdout stderr polls].
      rewrite <- app_assoc. reflexivity.
Qed.
End Reports.

(** The newer variant listing one directory in short form: the entries
    that pass the hidden-name test are sorted, and then each of them is
    accounted for once and in that order, by its name on stdout when its
    metadata can be retrieved and by a diagnostic on stderr when not. *)
Theorem listSingle_accounts (env : Env) (flags : Flags) (dirPath : string)
  (entries : list DirEntry) (w : World) :
  LongFormat flags = false ->
  ReadDir env dirPath = (entries, None) ->
  Forall (fun e => valid_name (Name e)) entries ->
  exists sorted,
    Command.sortEntries flags (List.filter (visible flags) entries) = Done sorted
    /\ sorted ≡ₚ List.filter (visible flags) entries
    /\ Command.listSingle env flags dirPath w
       = Some (Done None,
               {| stdout := stdout w ++ listed sorted;
                  stderr := stderr w ++ reported dirPath sorted;
                  polls := polls w |}).
Proof.
  intros Hshort Hread Hnames.
  destruct (sortEntries_B_total flags (List.filter (visible flags) entries))
    as (sorted & Hsort & Hperm).
  exists sorted. split; [exact Hsort|]. split; [exact Hperm|].
  unfold Command.listSingle. rewrite Hread.
  change (Command.filterEntries flags entries) with (List.filter (visible flags) entries).
  rewrite Hsort. unfold lift, mbind, M_bind.
  rewrite (printEntries_B_reports env flags Hshort); [reflexivity|].
  rewrite Hperm. apply Forall_forall. intros e He.
  apply list_elem_of_In, filter_In in He as [He _].
  rewrite Forall_forall in Hnames. apply Hnames, list_elem_of_In. exact He.
Qed.

Lemma listSingle_accounts_witness :
  exists sorted,
    Command.sortEntries default_flags
      (List.filter (visible default_flags) [vanished_entry "v" "a"; file_entry "b" 7 50])
    = Done sorted
    /\ sorted ≡ₚ List.filter (visible default_flags)
                   [vanished_entry "v" "a"; file_entry "b" 7 50]
    /\ Command.listSingle vanishing default_flags "v" World0
       = Some (Done None,
               {| stdout := stdout World0 ++ listed sorted;
                  stderr := stderr World0 ++ reported "v" sorted;
                  polls := polls World0 |}).
Proof.
  apply (listSingle_accounts vanishing default_flags "v"
           [vanished_entry "v" "a"; file_entry "b" 7 50] World0).
  - reflexivity.
  - reflexivity.
  - repeat constructor; discriminate.
Defined.

(** ** What src/ls.go writes to stderr *)

Lemma silent_ret {A} (a : A) : silent (mret a).
Proof. intros w r w' H. injection H as _ <-. reflexivity. Qed.

Lemma silent_bind {A B} (m : M A) (k : A -> M B) :
  silent m -> (forall a, silent (k a)) -> silent (m ≫= k).
Proof.
  intros Hm Hk w r w' H. unfold mbind, M_bind in H.
  destruct (m w) as [[[a|msg] w1]|] eqn:Hmw; [| |discriminate].
  - rewrite (Hk a _ _ _ H). apply (Hm _ _ _ Hmw).
  - injection H as _ <-. exact (Hm _ _ _ Hmw).
Qed.

Lemma silent_stdout line : silent (Fprintln_stdout line).
Proof. intros w r w' H. injection H as _ <-. reflexivity. Qed.

Lemma silent_poll env : silent (CheckContextCancellation env).
Proof. intros w r w' H. injection H as _ <-. reflexivity. Qed.

Lemma silent_lift {A} (o : outcome A) : silent (lift o).
Proof. intros w r w' H. injection H as _ <-. reflexivity. Qed.

Lemma silent_lift_fuel {A} (o : option (outcome A)) : silent (lift_fuel o).
Proof.
  intros w r w' H. unfold lift_fuel in H. destruct o; [|discriminate].
  injection H as _ <-. reflexivity.
Qed.

Lemma silent_out_of_fuel {A} : silent (@out_of_fuel A).
Proof. intros w r w' H. discriminate. Qed.

Create HintDb silent.
#[global] Hint Resolve silent_ret silent_stdout silent_poll silent_lift silent_lift_fuel
  silent_out_of_fuel : silent.

Section Silent.
Variable env : Env.
Variable flags : Flags.
Hypothesis infos : forall p e, e ∈ (ReadDir env p).1 -> has_info e.

Lemma silent_poll_every period i : silent (poll_every env period i).
Proof. unfold poll_every. destruct (_ =? _)%nat; auto with silent. Qed.

Lemma silent_printFile path info : silent (Ls.printFile env flags path info).
Proof.
  unfold Ls.printFile, Ls.printLongFormat.
  destruct (LongFormat flags); [|auto with silent].
  apply silent_bind; [|auto with silent].
  destruct (HumanReadable flags); auto with silent.
Qed.

Lemma filterEntries_subset entries : forall i items w r w',
  Ls.filterEntries env flags i entries items w = Some (Done (Ok r), w') ->
  forall e, e ∈ r -> e ∈ items \/ e ∈ entries.
Proof.
  induction entries as [|entry rest IH]; intros i items w r w' H e He.
  - injection H as <- _. left. exact He.
  - cbn [Ls.filterEntries] in H. unfold mbind at 1, M_bind in H.
    destruct (poll_every env 1000 i w) as [[[[c|]|msg] w1]|]; try discriminate.
    destruct (_ && _).
    + destruct (IH _ _ _ _ _ H e He) as [Hin|Hin]; [left; exact Hin|right; right; exact Hin].
    + destruct (IH _ _ _ _ _ H e He) as [Hin|Hin]; [|right; right; exact Hin].
      apply elem_of_app in Hin as [Hin|Hin]; [left; exact Hin|].
      apply list_elem_of_singleton in Hin as ->. right. left.
Qed.

Lemma silent_filterEntries entries : forall i items,
  silent (Ls.filterEntries env flags i entries items).
Proof.
  induction entries as [|entry rest IH]; intros i items; cbn [Ls.filterEntries].
  - auto with silent.
  - apply silent_bind; [apply silent_poll_every|]. intros [e|].
    + auto with silent.
    + destruct (_ && _); apply IH.
Qed.

Lemma silent_sortEntries items : silent (Ls.sortEntries env flags items).
Proof.
  unfold Ls.sortEntries. apply silent_bind; [auto with silent|].
  intros [e|]; auto with silent.
Qed.

Lemma sortEntries_subset items w sorted w' :
  Ls.sortEntries env flags items w = Some (Done sorted, w') ->
  forall e, e ∈ sorted -> e ∈ items.
Proof.
  unfold Ls.sortEntries, mbind, M_bind, CheckContextCancellation.
  destruct (ctx_err env (polls w)) as [c|].
  - intros H. injection H as <- _. auto.
  - unfold lift. intros H. injection H as Hsort _.
    apply sort_Slice_perm in Hsort. intros e He. rewrite <- Hsort. exact He.
Qed.

Lemma silent_printEntries rec path items :
  (forall p, silent (rec p)) ->
  Forall has_info items ->
  forall i, silent (Ls.printEntries env flags rec path i items).
Proof.
  intros Hrec Hinfo. induction Hinfo as [|entry rest [info Hentry] _ IH];
    intros i; cbn [Ls.printEntries].
  - auto with silent.
  - apply silent_bind; [apply silent_poll_every|]. intros [e|]; [auto with silent|].
    rewrite Hentry.
    apply silent_bind; [apply silent_printFile|]. intros _.
    apply silent_bind; [|intros _; apply IH].
    destruct (_ && _); [|auto with silent].
    repeat (apply silent_bind; [auto with silent|intros ?]).
    auto with silent.
Qed.

Lemma silent_listPath fuel : forall path, silent (Ls.listPath env flags fuel path).
Proof.
  induction fuel as [|fuel IH]; intros path; cbn [Ls.listPath].
  - auto with silent.
  - apply silent_bind; [auto with silent|]. intros [e|]; [auto with silent|].
    destruct (Stat env path) as [info|e]; [|auto with silent].
    destruct (negb (FileInfo_IsDir info)).
    { apply silent_bind; [apply silent_printFile|]. auto with silent. }
    pose proof (infos path) as Hinfos.
    destruct (ReadDir env path) as [entries [e|]]; [auto with silent|].
    cbn [fst] in Hinfos.
    apply silent_bind; [auto with silent|]. intros [e|]; [auto with silent|].
    intros w r w' H. unfold mbind at 1, M_bind in H.
    destruct (Ls.filterEntries env flags 0 entries [] w) as [[[[items|e]|msg] w1]|] eqn:Hfilter;
      try discriminate.
    + pose proof (silent_filterEntries entries 0 [] _ _ _ Hfilter) as H1.
      rewrite <- H1. revert H. unfold mbind at 1, M_bind.
      destruct (Ls.sortEntries env flags items w1) as [[[sorted|msg] w2]|] eqn:Hsort;
        try discriminate.
      * pose proof (silent_sortEntries items _ _ _ Hsort) as H2. rewrite <- H2.
        apply silent_bind; [auto with silent|]. intros [e|]; [auto with silent|].
        apply silent_printEntries; [exact IH|].
        apply Forall_forall. intros e He. apply Hinfos.
        apply (sortEntries_subset _ _ _ _ Hsort) in He.
        destruct (filterEntries_subset _ _ _ _ _ _ Hfilter e He) as [Hin|Hin];
          [apply elem_of_nil in Hin; contradiction|exact Hin].
      * intros H. injection H as _ <-. apply (silent_sortEntries items _ _ _ Hsort).
    + injection H as _ <-. apply (silent_filterEntries entries 0 [] _ _ _ Hfilter).
    + injection H as _ <-. apply (silent_filterEntries entries 0 [] _ _ _ Hfilter).
Qed.
End Silent.

(** [listPath] of src/ls.go writes nothing to stderr but the
    diagnostics of entries whose metadata cannot be retrieved: where
    there is no such entry it leaves stderr alone.  In a recursive
    listing a subdirectory that cannot be read, or a context that is
    done, therefore goes unreported: the error that the inner call
    returns is dropped. *)
Theorem listPath_silent (env : Env) (flags : Flags) (fuel : nat) (path : string)
  (w w' : World) (r : outcome (option error)) :
  (forall p e, e ∈ (ReadDir env p).1 -> has_info e) ->
  Ls.listPath env flags fuel path w = Some (r, w') ->
  stderr w' = stderr w.
Proof.
  intros Hinfos H. apply (silent_listPath env flags Hinfos fuel path w r w' H).
Qed.

Lemma missing_sub_infos : forall p e, e ∈ (ReadDir missing_sub p).1 -> has_info e.
Proof.
  intros p e. cbn [missing_sub mkTree ReadDir]. unfold lookup_path. cbn [List.find].
  destruct (String.eqb p "d"); cbn [fmap option_fmap option_map snd fst].
  - intros Hin. apply list_elem_of_In in Hin.
    destruct Hin as [<-|[<-|[]]]; eexists; reflexivity.
  - intros Hin. apply elem_of_nil in Hin. contradiction.
Qed.

Lemma listPath_silent_witness :
  stderr {| stdout := ["a"; "sub"; ""; "d/sub:"]; stderr := []; polls := 7 |}
  = stderr World0.
Proof.
  apply (listPath_silent missing_sub (with_Recursive true default_flags) 2 "d" World0 _
           (Done None) missing_sub_infos).
  vm_compute. reflexivity.
Defined.

(** ** The recursive listing ends *)

(** On a file system whose directories are ranked, each below the one
    that holds it, the recursive listing of src/ls.go ends, from every
    state and whatever the flags and the context. *)
Theorem recursive_listing_ends (env : Env) (flags : Flags) (rank : string -> nat)
  (path : string) (w : World) :
  (forall path entries e info,
     ReadDir env path = (entries, None) ->
     e ∈ entries -> Info e = Ok info -> FileInfo_IsDir info = true ->
     (rank (Join path (Name e)) < rank path)%nat) ->
  exists r w', Ls.listPath env flags (S (rank path)) path w = Some (r, w').
Proof.
  intros Hrank.
  destruct (listPath_returns env flags rank Hrank (S (rank path)) path ltac:(lia) w)
    as (r & w' & H & _).
  exists r, w'. exact H.
Qed.

Lemma tree_ranked : forall path entries e info,
  ReadDir tree path = (entries, None) ->
  e ∈ entries -> Info e = Ok info -> FileInfo_IsDir info = true ->
  (tree_rank (Join path (Name e)) < tree_rank path)%nat.
Proof.
  intros path entries e info. cbn [tree mkTree ReadDir]. unfold lookup_path, tree_dirs.
  cbn [List.find]. destruct (String.eqb_spec path "d") as [->|Hd].
  - cbn [fmap option_fmap option_map snd]. intros [= <-] Hin.
    apply list_elem_of_In in Hin.
    destruct Hin as [<-|[<-|[<-|[<-|[]]]]]; intros [= <-] Hdir;
      try discriminate Hdir. vm_compute. lia.
  - destruct (String.eqb_spec path "d/sub") as [->|Hsub].
    + cbn [fmap option_fmap option_map snd]. intros [= <-] Hin.
      apply list_elem_of_In in Hin.
      destruct Hin as [<-|[]]; intros [= <-] Hdir. discriminate Hdir.
    + cbn [fmap option_fmap option_map snd]. discriminate.
Qed.

Lemma recursive_listing_ends_witness :
  exists r w',
    Ls.listPath tree (with_Recursive true default_flags) (S (tree_rank "d")) "d" World0
    = Some (r, w').
Proof.
  apply (recursive_listing_ends tree (with_Recursive true default_flags) tree_rank "d" World0).
  exact tree_ranked.
Defined.

(** ** The number printed for a size *)

Lemma tenths_nearest (num den : Z) :
  0 < den -> 0 <= num ->
  2 * Z.abs (10 * num - tenths num den * den) <= den
  /\ (10 * num) / den <= tenths num den <= (10 * num) / den + 1.
Proof.
  intros Hden Hnum. unfold tenths.
  pose proof (Z.div_mod (10 * num) den ltac:(lia)) as Hdm.
  pose proof (Z.mod_pos_bound (10 * num) den Hden) as Hmod.
  set (q := 10 * num / den) in *. set (r := (10 * num) mod den) in *.
  clearbody q r.
  destruct (Z.ltb_spec (2 * r) den); [split; [nia|lia]|].
  destruct (Z.ltb_spec den (2 * r)); [split; [nia|lia]|].
  destruct (Z.even q); split; nia.
Qed.

(** The number that the formatter of the newer variant prints for a
    size from 1024 up to 2^53 is the size divided by the unit, within
    half a tenth; it lies between 1.0 and 1024.0, and 1024.0 is printed
    for the sizes just below the next unit. *)
Theorem human_readable_rounding (size : Z) :
  1024 <= size < 2 ^ 53 ->
  exists (k : nat) (m : Z) (u : string),
    Command.units !! k = Some u
    /\ Command.formatHumanReadable size
       = Some (Done (format_int (m / 10) +:+ "." +:+ format_int (m mod 10) +:+ u))
    /\ 1024 ^ (Z.of_nat k + 1) <= size < 1024 ^ (Z.of_nat k + 2)
    /\ 10 <= m <= 10240
    /\ 2 * Z.abs (10 * size - m * 1024 ^ (Z.of_nat k + 1)) <= 1024 ^ (Z.of_nat k + 1).
Proof.
  intros [Hlo Hhi].
  assert (Hmax : 1024 <= size <= max_int64) by (unfold max_int64; lia).
  destruct (scaled_index size Hmax) as (j & Hj & Heq & Hrange).
  assert (Hu : exists u, Command.units !! j = Some u).
  { do 6 (destruct j as [|j]; [eexists; reflexivity|]). lia. }
  destruct Hu as [u Hu].
  assert (Hexact : float64_of_int size = size).
  { unfold float64_of_int. rewrite Z.abs_eq by lia.
    destruct (Z.ltb_spec size (2 ^ 53)); [reflexivity|lia]. }
  set (den := 1024 ^ (Z.of_nat j + 1)) in *.
  assert (Hden : 0 < den) by (unfold den; apply Z.pow_pos_nonneg; lia).
  assert (Hnext : 1024 ^ (Z.of_nat j + 2) = 1024 * den).
  { unfold den. replace (Z.of_nat j + 2) with (Z.succ (Z.of_nat j + 1)) by lia.
    rewrite Z.pow_succ_r by lia. reflexivity. }
  destruct (tenths_nearest size den Hden ltac:(lia)) as [Hnear Hq].
  exists j, (tenths size den), u.
  split; [exact Hu|]. split; [|split; [exact Hrange|split; [|exact Hnear]]].
  - rewrite (scaled_B size j Hlo Heq), Hu.
    unfold format_scaled, format_f1. rewrite Hexact. fold den.
    rewrite !append_assoc. reflexivity.
  - rewrite Hnext in Hrange.
    assert (10 <= 10 * size / den) by (apply Z.div_le_lower_bound; lia).
    assert (10 * size / den < 10240) by (apply Z.div_lt_upper_bound; lia).
    lia.
Qed.

Lemma human_readable_rounding_witness :
  Command.formatHumanReadable 1048575 = Some (Done "1024.0K")
  /\ exists (k : nat) (m : Z) (u : string),
       Command.units !! k = Some u
       /\ Command.formatHumanReadable 1048575
          = Some (Done (format_int (m / 10) +:+ "." +:+ format_int (m mod 10) +:+ u))
       /\ 1024 ^ (Z.of_nat k + 1) <= 1048575 < 1024 ^ (Z.of_nat k + 2)
       /\ 10 <= m <= 10240
       /\ 2 * Z.abs (10 * 1048575 - m * 1024 ^ (Z.of_nat k + 1)) <= 1024 ^ (Z.of_nat k + 1).
Proof.
  split; [vm_compute; reflexivity|].
  apply (human_readable_rounding 1048575). lia.
Defined.
